(** * nhsmass/recal.py: recalibration of a mass spectrum by an error table

    A shallow embedding of [recallibrate] and of the class [ErrorTable]
    ([md_error_map], [kernel_density_map], [fit_kernel], [assign_error],
    [massdiff_error], [etalon_error], [extrapolate], [zeroshift]).

    Conventions of the embedding.
    - A Python float is an exact rational ([Q]); rounding is not modelled.
      Where the Python run would go on with [nan] or [inf] in its data
      (mean of an empty selection, division by zero), the model stops with
      the outcome [NaN] instead of inventing a number. Where a later line
      of the same function can still raise ([fit_kernel]), the [nan] is
      kept in the data as [None] until the function returns.
    - A raised exception is the outcome [Raise name], [name] being the
      name of the Python exception class.
    - A pandas table is the list of its rows, in table order, under the
      default index [0 .. n-1].
    - Python objects that are shared and mutated (a [Spectrum], its table
      and metadata, an [ErrorTable] and its table) live in a store, a
      finite map from locations to objects.
    - Code of other modules and libraries ([Spectrum.assign],
      [scipy.stats.gaussian_kde], [savgol_filter], ...) is taken through
      the class [Collaborators]. *)

From Stdlib Require Import QArith Qabs Qround Lqa Lia.
From stdpp Require Import gmap strings list sorting.

Open Scope Q_scope.

(* ===================================================================== *)
(** * Numbers *)
(* ===================================================================== *)

(** [a < b] and [a <= b] on floats, as booleans. *)
Definition Qltb (a b : Q) : bool := negb (Qle_bool b a).
Definition Qleb (a b : Q) : bool := Qle_bool a b.

(** A natural number used as a float ([arange(num) * step]). *)
Definition Qnat (n : nat) : Q := inject_Z (Z.of_nat n).

(* ===================================================================== *)
(** * Outcomes of a call *)
(* ===================================================================== *)

(** A call returns a value, raises the exception class [exc], or goes on
    with a value that holds [nan] / [inf], about which the model says
    nothing more. *)
Inductive outcome (A : Type) : Type :=
| Ok (a : A)
| Raise (exc : string)
| NaN.
Arguments Ok {A} a.
Arguments Raise {A} exc.
Arguments NaN {A}.

Definition obind {A B : Type} (f : A -> outcome B) (m : outcome A) : outcome B :=
  match m with
  | Ok a => f a
  | Raise e => Raise e
  | NaN => NaN
  end.

#[global]
Instance outcome_ret : MRet outcome := fun A a => Ok a.
#[global]
Instance outcome_bind : MBind outcome := fun A B f m => obind f m.

(** A value that is [nan] when absent. *)
Definition or_nan {A : Type} (o : option A) : outcome A :=
  match o with
  | Some a => Ok a
  | None => NaN
  end.

(* ===================================================================== *)
(** * numpy and pandas helpers *)
(* ===================================================================== *)

(** [np.linspace(start, stop, num)]: [arange(num) * step + start] with
    [step = (stop - start) / (num - 1)], the last entry then overwritten
    by [stop]. *)
Definition linspace (start stop : Q) (num : nat) : list Q :=
  match num with
  | O => []
  | 1%nat => [start]
  | S div =>
      map (fun k => Qnat k * ((stop - start) / Qnat div) + start) (seq 0 div)
      ++ [stop]
  end.

(** [Series.min()] and [Series.max()]: [None] is the [nan] pandas returns
    for an empty column. *)
Definition col_min (l : list Q) : option Q :=
  match l with
  | [] => None
  | x :: t => Some (fold_left (fun m y => if Qltb y m then y else m) t x)
  end.

Definition col_max (l : list Q) : option Q :=
  match l with
  | [] => None
  | x :: t => Some (fold_left (fun m y => if Qltb m y then y else m) t x)
  end.

(** Python's builtin [min(x)] / [max(x)]: [ValueError] on an empty
    sequence. *)
Definition py_min (l : list Q) : outcome Q :=
  match col_min l with
  | Some m => Ok m
  | None => Raise "ValueError"
  end.

Definition py_max (l : list Q) : outcome Q :=
  match col_max l with
  | Some m => Ok m
  | None => Raise "ValueError"
  end.

(** [np.mean]: [nan] on an empty array. *)
Definition Qsum (l : list Q) : Q := fold_left Qplus l 0.

Definition np_mean (l : list Q) : option Q :=
  match l with
  | [] => None
  | _ => Some (Qsum l / Qnat (length l))
  end.

(** Orders used by [sort_values] and [np.unique]. *)
Definition key_le {A : Type} (key : A -> Q) (x y : A) : Prop :=
  Qle_bool (key x) (key y) = true.

#[global]
Instance key_le_dec {A : Type} (key : A -> Q) (x y : A) :
  Decision (key_le key x y).
Proof. unfold key_le. apply _. Defined.

(** [df.sort_values(by=key)], ascending, and with [ascending=False]. The
    order pandas leaves among rows of equal key is not specified; the
    model sorts by merging. *)
Definition sort_values {A : Type} (key : A -> Q) (l : list A) : list A :=
  merge_sort (key_le key) l.

Definition sort_values_desc {A : Type} (key : A -> Q) (l : list A) : list A :=
  merge_sort (key_le (fun x => - key x)) l.

(** [np.unique]: the sorted values, each kept once. *)
Fixpoint dedup_sorted (l : list Q) : list Q :=
  match l with
  | [] => []
  | x :: t =>
      match t with
      | [] => [x]
      | y :: _ => if Qeq_bool x y then dedup_sorted t else x :: dedup_sorted t
      end
  end.

Definition np_unique (l : list Q) : list Q :=
  dedup_sorted (sort_values (fun x => x) l).

(** [Series.quantile(q)]: [ValueError] unless [0 <= q <= 1]; [nan] on an
    empty column; otherwise the linear interpolation between the two
    order statistics around position [q * (n - 1)]. *)
Definition quantile (q : Q) (l : list Q) : outcome Q :=
  if Qltb q 0 || Qltb 1 q then Raise "ValueError"
  else
    match l with
    | [] => NaN
    | _ =>
        let v := sort_values (fun x => x) l in
        let pos := q * Qnat (length l - 1) in
        let lo := Z.to_nat (Qfloor pos) in
        let hi := Z.to_nat (Qceiling pos) in
        let a := nth lo v 0 in
        let b := nth hi v 0 in
        Ok (a + (b - a) * (pos - Qnat lo))
    end.

(** [np.searchsorted(arr, key, side='left')]: the binary search numpy
    runs, whatever the order of [arr]. [fuel] bounds the halvings. *)
Fixpoint bisect_left (fuel : nat) (arr : list Q) (key : Q) (lo hi : nat) : nat :=
  match fuel with
  | O => lo
  | S fuel' =>
      if (lo <? hi)%nat then
        let mid := (lo + (hi - lo) / 2)%nat in
        if Qltb (nth mid arr 0) key
        then bisect_left fuel' arr key (S mid) hi
        else bisect_left fuel' arr key lo mid
      else lo
  end.

Definition searchsorted (arr : list Q) (key : Q) : nat :=
  bisect_left (S (length arr)) arr key 0 (length arr).

(* ===================================================================== *)
(** * Data model *)
(* ===================================================================== *)

(** A row of a spectrum's table: the columns this module reads. [assign]
    and [rel_error] are filled in by [Spectrum.assign] and
    [Spectrum.calc_error]; [rel_error] is [nan] ([None]) on a row that has
    no assignment. *)
Record Peak : Type := mkPeak {
  mass : Q;
  intensity : Q;
  assign : bool;
  rel_error : option Q
}.

(** [table.loc[ind, 'mass'] = m]: the other columns of the row stay. *)
Definition set_mass (p : Peak) (m : Q) : Peak :=
  {| mass := m; intensity := intensity p; assign := assign p;
     rel_error := rel_error p |}.

(** A row of an error table: error in ppm for a mass. *)
Record CurvePoint : Type := mkPoint {
  cmass : Q;
  cppm : Q
}.

(** A spectrum as a value: its table and its metadata (a dictionary). *)
Record Spectrum : Type := mkSpectrum {
  table : list Peak;
  metadata : gmap string string
}.

(* ===================================================================== *)
(** * recallibrate, lines 68-80: the correction loop on the table *)
(* ===================================================================== *)

(** Line 77, the mask [(mass > a[i]) & (mass <= a[i+1])]. *)
Definition bin_mask (lo hi : Q) (p : Peak) : bool :=
  Qltb lo (mass p) && Qleb (mass p) hi.

(** Line 77, the index of the rows the mask selects, read off the table
    as it is when bin [i] starts. *)
Definition bin_index (lo hi : Q) (tbl : list Peak) : list nat :=
  List.filter
    (fun ind => match tbl !! ind with
                | Some p => bin_mask lo hi p
                | None => false
                end)
    (seq 0 (length tbl)).

(** Lines 78-80 for one row [ind]: [e = mass * ppm / 1000000], then
    [table.loc[ind, 'mass'] = mass + e], written into the table. *)
Definition correct_row (ppm : Q) (tbl : list Peak) (ind : nat) : list Peak :=
  match tbl !! ind with
  | Some p =>
      let e := mass p * ppm / 1000000 in
      <[ind := set_mass p (mass p + e)]> tbl
  | None => tbl
  end.

(** Lines 77-80 for one bin [i]; [err.loc[i, 'ppm']] is row [i] of the
    error table. *)
Definition correct_bin (a : list Q) (err : list CurvePoint)
    (tbl : list Peak) (i : nat) : list Peak :=
  let ppm := match err !! i with Some r => cppm r | None => 0 end in
  fold_left (correct_row ppm) (bin_index (nth i a 0) (nth (S i) a 0) tbl) tbl.

(** Lines 70-74: the bin edges. With an empty error table [min] and [max]
    are [nan] and [wide = 0]: no bin is visited. *)
Definition bin_edges (err : list CurvePoint) : list Q :=
  match col_min (map cmass err), col_max (map cmass err) with
  | Some min_mass, Some max_mass => linspace min_mass max_mass (length err + 1)
  | _, _ => []
  end.

(** Lines 70-80. *)
Definition recal_loop (err : list CurvePoint) (tbl : list Peak) : list Peak :=
  let wide := length err in
  let a := bin_edges err in
  fold_left (correct_bin a err) (seq 0 wide) tbl.

(* ===================================================================== *)
(** * Collaborators *)
(* ===================================================================== *)

(** Code this module calls and does not define: the formula generator of
    [nhsmass.brutto], the methods of [nhsmass.spectrum.Spectrum], and the
    scipy routines. Each is a function of the values it is given; one
    that can fail returns an [outcome]. *)
Class Collaborators : Type := {
  (** [gen_from_brutto(df)['calc_mass'].values] for the six formulas of
      [md_error_map] (lines 136-140). *)
  dif_masses : list Q;
  (** [spec.assign(rel_error=ppm, brutto_dict=brutto_dict)]. *)
  spectrum_assign : Q -> gmap string (nat * nat) -> Spectrum -> outcome Spectrum;
  (** [spec.calc_mass()] and [spec.calc_error()]. *)
  spectrum_calc_mass : Spectrum -> outcome Spectrum;
  spectrum_calc_error : Spectrum -> outcome Spectrum;
  (** [Spectrum().read_csv(filename=how)]. *)
  read_csv : string -> outcome Spectrum;
  (** [st.gaussian_kde(np.vstack([x, y]))]: fitting may raise; the fitted
      kernel gives a density at every position. *)
  gaussian_kde : list Q -> list Q -> outcome (Q -> Q -> Q);
  (** [savgol_filter(x, window_length, polyorder)], on an array whose
      entries may be [nan] ([None]). *)
  savgol_filter : list (option Q) -> nat -> nat -> outcome (list (option Q))
}.

(** Modelled from the spec: [Spectrum.drop_unassigned] of
    nhsmass/spectrum.py, "filtering of unassigned rows". *)
Definition drop_unassigned (spec : Spectrum) : Spectrum :=
  {| table := List.filter assign (table spec); metadata := metadata spec |}.

(** [Series.mean()]: the mean of the entries that are not [nan]. *)
Definition series_mean (col : list (option Q)) : option Q :=
  np_mean (omap id col).

(** A loop that stops at the first call that does not return. *)
Fixpoint traverse {A B : Type} (f : A -> outcome B) (l : list A) : outcome (list B) :=
  match l with
  | [] => Ok []
  | x :: t => y ← f x; ys ← traverse f t; Ok (y :: ys)
  end.

(* ===================================================================== *)
(** * ErrorTable.md_error_map *)
(* ===================================================================== *)

Section MassDifference.
Context `{Collaborators}.

(** Line 141: [np.unique([dif_masses*i for i in range(1,10)])]. *)
Definition dif_set : list Q :=
  np_unique (concat (map (fun i => map (fun m => m * Qnat i) dif_masses) (seq 1 9))).

(** Lines 146-149: the rows the outer loop visits. *)
Definition md_candidates (tbl : list Peak) : list Peak :=
  let data := sort_values_desc intensity tbl in
  let data := if (1000 <? length data)%nat then take 1000 data else data in
  sort_values mass data.

(** Lines 160-162: the index of the observed mass taken for [mz]. *)
Definition nearest_index (masses : list Q) (mz : Q) : nat :=
  let idx := searchsorted masses mz in
  if (0 <? idx)%nat
     && ((idx =? length masses)%nat
         || Qltb (Qabs (mz - nth (idx - 1) masses 0)) (Qabs (mz - nth idx masses 0)))
  then (idx - 1)%nat
  else idx.

(** Line 164: [np.fabs(found - mz) / mz * 1e6 <= ppm]. A zero [mz] gives
    [inf] or [nan] on the left, and the comparison is false. *)
Definition within_ppm (found mz ppm : Q) : bool :=
  if Qeq_bool mz 0 then false
  else Qleb (Qabs (found - mz) / mz * 1000000) ppm.

(** Lines 158-165: one difference [i] for one [mass]. *)
Definition md_step (masses : list Q) (ppm mass : Q)
    (data_error : list CurvePoint) (i : Q) : list CurvePoint :=
  let mz := mass + i in
  let idx := nearest_index masses mz in
  let found := nth idx masses 0 in
  if within_ppm found mz ppm
  then data_error ++ [mkPoint mass ((found - mz) / mz * 1000000)]
  else data_error.

(** Lines 143-167. *)
Definition md_error_map (spec : Spectrum) (ppm : Q) : list CurvePoint :=
  let dif := dif_set in
  let data := table spec in
  let masses := map mass data in
  let data := md_candidates data in
  fold_left
    (fun data_error row => fold_left (md_step masses ppm (mass row)) dif data_error)
    data [].

End MassDifference.

(* ===================================================================== *)
(** * ErrorTable.kernel_density_map and ErrorTable.fit_kernel *)
(* ===================================================================== *)

(** [np.rot90]: the transposed matrix with its rows in reverse order. *)
Definition transpose (m : list (list Q)) : list (list Q) :=
  let ncols := match m with r :: _ => length r | [] => O end in
  map (fun c => map (fun row => nth c row 0) m) (seq 0 ncols).

Definition rot90 (m : list (list Q)) : list (list Q) := rev (transpose m).

Section Density.
Context `{Collaborators}.

(** Lines 256-281. *)
Definition kernel_density_map (df_error : list CurvePoint) (ppm : Q)
  : outcome (list (list Q)) :=
  let x := map cmass df_error in
  let y := map cppm df_error in
  xmin ← py_min x;
  xmax ← py_max x;
  let ymin := - ppm in
  let ymax := ppm in
  let xx := linspace xmin xmax 100 in
  let yy := linspace ymin ymax 100 in
  kernel ← gaussian_kde x y;
  let kdm := map (fun xi => map (fun yj => kernel xi yj) yy) xx in
  Ok (rot90 kdm).

(** Lines 199-202 for column [i] of the map: the mean of the ppm
    positions whose density is above the column's 0.95 quantile. *)
Definition ridge (index : list Q) (f : list (list Q)) (i : nat) : outcome Q :=
  let col := map (fun row => nth i row 0) f in
  max_kernel ← quantile 0.95 col;
  let ppm :=
    map fst (List.filter (fun iv => Qltb max_kernel (snd iv)) (zip index col)) in
  or_nan (np_mean ppm).

(** A float a run goes on with: [None] when it is [nan]. *)
Definition nan_cell (m : outcome Q) : outcome (option Q) :=
  match m with
  | Ok v => Ok (Some v)
  | NaN => Ok None
  | Raise exc => Raise exc
  end.

(** A difference of two floats: [nan] when either is. *)
Definition cell_sub (a b : option Q) : option Q :=
  match a, b with
  | Some x, Some y => Some (x - y)
  | _, _ => None
  end.

(** The rows of a two-column frame, when none of its ppm is [nan]. *)
Fixpoint numbers (rows : list (Q * option Q)) : option (list CurvePoint) :=
  match rows with
  | [] => Some []
  | (m, Some p) :: t =>
      match numbers t with
      | Some pts => Some (mkPoint m p :: pts)
      | None => None
      end
  | (_, None) :: _ => None
  end.

(** Lines 196-230: the frame [kde_err] that is returned, its ppm column
    holding floats that may be [nan] (the mean of an empty selection at
    line 202 is). Building the frame on a 100-entry index and assigning
    a column of another length raise [ValueError]. *)
Definition fit_kernel_frame (f : list (list Q)) (mass : list Q)
  : outcome (list (Q * option Q)) :=
  let index := linspace 3 (-3) 100 in
  if negb (length f =? length index)%nat then Raise "ValueError" else
  let ncols := match f with r :: _ => length r | [] => O end in
  out ← traverse (fun i => nan_cell (ridge index f i)) (seq 0 ncols);
  smoothed ← savgol_filter out 31 5;
  if negb (length smoothed =? length out)%nat then Raise "ValueError" else
  xmin ← py_min mass;
  xmax ← py_max mass;
  let masses := linspace xmin xmax 100 in
  if negb (length masses =? length out)%nat then Raise "ValueError" else
  match smoothed !! 0%nat with
  | None => Raise "KeyError"
  | Some first =>
      Ok (zip_with (fun m p => (m, cell_sub p first)) masses smoothed)
  end.

(** [fit_kernel] as the strategies use it: the curve, when the frame that
    is returned holds no [nan]. *)
Definition fit_kernel (f : list (list Q)) (mass : list Q)
  : outcome (list CurvePoint) :=
  frame ← fit_kernel_frame f mass;
  or_nan (numbers frame).

End Density.

(* ===================================================================== *)
(** * ErrorTable.extrapolate and ErrorTable.zeroshift on table values *)
(* ===================================================================== *)

(** [idx.clip(lo, hi)]. *)
Definition clip (lo hi idx : nat) : nat := Nat.min hi (Nat.max lo idx).

(** [interp1d(x, y, bounds_error=False, fill_value='extrapolate')] called
    at [x_new], the points [pts] already sorted by [x] (scipy's
    [_call_linear]): the segment is picked by [searchsorted] clipped to
    [1 .. len(x)-1], and the line through its two ends is evaluated, so a
    point outside the data lies on the first or the last segment's line.
    Equal abscissas give a division by zero. *)
Definition interp_at (pts : list CurvePoint) (x_new : Q) : outcome Q :=
  let x := map cmass pts in
  let y := map cppm pts in
  let idx := clip 1 (length x - 1) (searchsorted x x_new) in
  let lo := (idx - 1)%nat in
  let hi := idx in
  let x_lo := nth lo x 0 in
  let x_hi := nth hi x 0 in
  let y_lo := nth lo y 0 in
  let y_hi := nth hi y 0 in
  if Qeq_bool (x_hi - x_lo) 0 then NaN
  else
    let slope := (y_hi - y_lo) / (x_hi - x_lo) in
    Ok (slope * (x_new - x_lo) + y_lo).

(** The interpolant scipy builds: it needs an entry ([ValueError]
    otherwise), sorts the points by [x], and on a single point divides
    zero by zero. *)
Definition interp1d (tbl : list CurvePoint) : outcome (Q -> outcome Q) :=
  match tbl with
  | [] => Raise "ValueError"
  | [_] => Ok (fun _ => NaN)
  | _ => Ok (interp_at (sort_values cmass tbl))
  end.

(** Lines 442-452 on the rows of [self.table]. *)
Definition extrapolate_rows (tbl : list CurvePoint) (ranges : option (Q * Q))
  : outcome (list CurvePoint) :=
  let ranges :=
    match ranges with
    | Some r => Some r
    | None =>
        match col_min (map cmass tbl), col_max (map cmass tbl) with
        | Some lo, Some hi => Some (lo, hi)
        | _, _ => None
        end
    end in
  linear_interp ← interp1d tbl;
  r ← or_nan ranges;
  let interpolation_range := linspace (fst r) (snd r) 100 in
  linear_results ← traverse linear_interp interpolation_range;
  Ok (zip_with mkPoint interpolation_range linear_results).

(** Line 478 on the rows of the copied table. *)
Definition zeroshift_rows (mean_error : Q) (tbl : list CurvePoint) : list CurvePoint :=
  map (fun r => mkPoint (cmass r) (cppm r - mean_error)) tbl.

(** [dropna()] on a two-column frame whose second column may hold [nan]. *)
Definition dropna (rows : list (Q * option Q)) : list CurvePoint :=
  omap (fun r => mkPoint (fst r) <$> snd r) rows.

(** A quotient stored in a column: [nan] or [inf] when the divisor is 0. *)
Definition cell_div (a b : Q) : option Q :=
  if Qeq_bool b 0 then None else Some (a / b).

Section Strategies.
Context `{Collaborators}.

(** Line 477: [spec.drop_unassigned().calc_error()['rel_error'].mean()]. *)
Definition mean_rel_error (spec : Spectrum) : outcome Q :=
  sp ← spectrum_calc_error (drop_unassigned spec);
  or_nan (series_mean (map rel_error (table sp))).

(** [zeroshift] as a function of the table of [self]. *)
Definition zeroshift_value (tbl : list CurvePoint) (spec : Spectrum)
  : outcome (list CurvePoint) :=
  mean_error ← mean_rel_error spec;
  Ok (zeroshift_rows mean_error tbl).

(** Lines 308-325. *)
Definition assign_error (spec : Spectrum) (ppm : Q)
    (brutto_dict : gmap string (nat * nat)) : outcome (list CurvePoint) :=
  spectr ← spectrum_assign ppm brutto_dict spec;
  spectr ← spectrum_calc_mass spectr;
  spectr ← spectrum_calc_error spectr;
  let error_table := map (fun p => (mass p, rel_error p)) (table spectr) in
  let error_table := map (fun r => (fst r, Qopp <$> snd r)) error_table in
  let error_table := dropna error_table in
  kdm ← kernel_density_map error_table 3;
  err ← fit_kernel kdm (map mass (table (drop_unassigned spectr)));
  r ← or_nan (match col_min (map mass (table spec)),
                    col_max (map mass (table spec)) with
              | Some lo, Some hi => Some (lo, hi)
              | _, _ => None
              end);
  e ← extrapolate_rows err (Some r);
  zeroshift_value e spectr.

(** Lines 352-357. *)
Definition massdiff_error (spec : Spectrum) : outcome (list CurvePoint) :=
  let mde := md_error_map spec 3 in
  kdm ← kernel_density_map mde 3;
  fit_kernel kdm (map mass (table spec)).

(** Line 409, [df.loc[i, 'cal'] = mass]. *)
Definition set_cal (i : nat) (m : Q) (df : list (Peak * Q)) : list (Peak * Q) :=
  match df !! i with
  | Some (p, _) => <[i := (p, m)]> df
  | None => df
  end.

(** Lines 404-411 for row [i]. *)
Definition etalon_row (et : list Q) (ppm : Q) (df : list (Peak * Q)) (i : nat)
  : list (Peak * Q) :=
  match df !! i with
  | None => df
  | Some (p, _) =>
      let min_mass := mass p * (1 - ppm / 1000000) in
      let max_mass := mass p * (1 + ppm / 1000000) in
      fold_left
        (fun df m => if Qltb min_mass m && Qltb m max_mass then set_cal i m df else df)
        et df
  end.

(** Lines 403-411: the column [cal] filled in, row after row. *)
Definition etalon_fill (et : list Q) (ppm : Q) (df : list (Peak * Q))
  : list (Peak * Q) :=
  fold_left (etalon_row et ppm) (seq 0 (length df)) df.

(** Lines 398-399: the rows above the [quart] quantile of intensity; a
    comparison with the [nan] quantile of an empty column is false. *)
Definition etalon_survivors (spec : Spectrum) (quart : Q) : outcome (list Peak) :=
  match quantile quart (map intensity (table spec)) with
  | Ok treshold => Ok (List.filter (fun p => Qltb treshold (intensity p)) (table spec))
  | NaN => Ok []
  | Raise exc => Raise exc
  end.

(** Lines 391-420: the scatter [error_table] of [etalon_error]. *)
Definition etalon_scatter (spec etalon : Spectrum) (quart ppm : Q)
  : outcome (list CurvePoint) :=
  let et := map mass (table etalon) in
  df ← etalon_survivors spec quart;
  let df := map (fun p => (p, 0)) df in
  let df := etalon_fill et ppm df in
  let df := List.filter (fun r => Qltb 0 (snd r)) df in
  let error_table :=
    map (fun r =>
           let dif := snd r - mass (fst r) in
           (mass (fst r), (fun q => q * 1000000) <$> cell_div dif (mass (fst r))))
        df in
  Ok (dropna error_table).

(** Lines 391-425. *)
Definition etalon_error (spec etalon : Spectrum) (quart ppm : Q)
  : outcome (list CurvePoint) :=
  error_table ← etalon_scatter spec etalon quart ppm;
  kdm ← kernel_density_map error_table 3;
  fit_kernel kdm (map mass (table spec)).

(** Lines 59-66 of [recallibrate]: the error table computed for [spec]
    when none is given. *)
Definition default_brutto_dict : gmap string (nat * nat) :=
  <["C" := (4, 30)%nat]> (<["H" := (4, 60)%nat]> (<["O" := (0, 20)%nat]> ∅)).

Definition compute_error_table (spec : Spectrum) (how : string)
  : outcome (list CurvePoint) :=
  if String.eqb how "assign" then assign_error spec 3 default_brutto_dict
  else if String.eqb how "mdm" then massdiff_error spec
  else
    etalon ← read_csv how;
    etalon_error spec etalon 0.9 3.

End Strategies.

(* ===================================================================== *)
(** * The store: objects that are shared and mutated *)
(* ===================================================================== *)

Definition loc : Type := positive.

(** What a location holds: a pandas frame (of a spectrum or of an error
    table), a metadata dictionary, a [Spectrum] object (its [table] and
    [metadata] attributes), or an [ErrorTable] object (its [table]). *)
Inductive obj : Type :=
| DataFrame (rows : list Peak)
| CurveFrame (rows : list CurvePoint)
| MetaData (kv : gmap string string)
| SpectrumObj (tbl md : loc)
| ErrorTableObj (tbl : loc).

Abbreviation store := (gmap loc obj).

(** A computation on the store. *)
Definition St (A : Type) : Type := store -> outcome (A * store).

Definition st_ret {A : Type} (a : A) : St A := fun σ => Ok (a, σ).

Definition st_bind {A B : Type} (m : St A) (f : A -> St B) : St B :=
  fun σ =>
    match m σ with
    | Ok (a, σ') => f a σ'
    | Raise e => Raise e
    | NaN => NaN
    end.

Declare Scope st_scope.
Delimit Scope st_scope with st.
Notation "x <~ m ;; k" := (st_bind m (fun x => k))
  (at level 90, m at next level, right associativity) : st_scope.
Notation "m ;;; k" := (st_bind m (fun _ => k))
  (at level 90, right associativity) : st_scope.

(** A computation that does not touch the store. *)
Definition lift {A : Type} (m : outcome A) : St A :=
  fun σ =>
    match m with
    | Ok a => Ok (a, σ)
    | Raise e => Raise e
    | NaN => NaN
    end.

(** A new object, at a location no object has. *)
Definition alloc (o : obj) : St loc :=
  fun σ => let l := fresh (dom σ) in Ok (l, <[l := o]> σ).

Definition load (l : loc) : St obj :=
  fun σ =>
    match σ !! l with
    | Some o => Ok (o, σ)
    | None => Raise "ReferenceError"
    end.

Definition write (l : loc) (o : obj) : St unit :=
  fun σ => Ok (tt, <[l := o]> σ).

(** Attribute reads; an object of another class has no such attribute. *)
Definition spec_fields (s : loc) : St (loc * loc) :=
  (o <~ load s ;;
   match o with
   | SpectrumObj t m => st_ret (t, m)
   | _ => lift (Raise "AttributeError")
   end)%st.

Definition etable_field (e : loc) : St loc :=
  (o <~ load e ;;
   match o with
   | ErrorTableObj t => st_ret t
   | _ => lift (Raise "AttributeError")
   end)%st.

Definition get_frame (t : loc) : St (list Peak) :=
  (o <~ load t ;;
   match o with
   | DataFrame rows => st_ret rows
   | _ => lift (Raise "AttributeError")
   end)%st.

Definition get_curve (t : loc) : St (list CurvePoint) :=
  (o <~ load t ;;
   match o with
   | CurveFrame rows => st_ret rows
   | _ => lift (Raise "AttributeError")
   end)%st.

Definition get_meta (m : loc) : St (gmap string string) :=
  (o <~ load m ;;
   match o with
   | MetaData kv => st_ret kv
   | _ => lift (Raise "AttributeError")
   end)%st.

(** The spectrum at [s], read as a value. *)
Definition read_spectrum (s : loc) : St Spectrum :=
  (tm <~ spec_fields s ;;
   rows <~ get_frame (fst tm) ;;
   kv <~ get_meta (snd tm) ;;
   st_ret {| table := rows; metadata := kv |})%st.

(** Modelled from the spec: [Spectrum.copy] of nhsmass/spectrum.py, "a
    copy() producing an independent value": a new object with a table and
    a metadata dictionary of its own. *)
Definition spectrum_copy (s : loc) : St loc :=
  (v <~ read_spectrum s ;;
   t <~ alloc (DataFrame (table v)) ;;
   m <~ alloc (MetaData (metadata v)) ;;
   alloc (SpectrumObj t m))%st.

(** Modelled from the spec: [MetaData.add] of nhsmass, "a metadata
    key-value store supporting add(mapping)", for a one-entry mapping. *)
Definition metadata_add (m : loc) (k v : string) : St unit :=
  (kv <~ get_meta m ;; write m (MetaData (<[k := v]> kv)))%st.

(** [ErrorTable(rows)]: a new object around a new frame. *)
Definition new_error_table (rows : list CurvePoint) : St loc :=
  (t <~ alloc (CurveFrame rows) ;; alloc (ErrorTableObj t))%st.

(** A [for] loop whose body acts on the store. *)
Fixpoint st_for {A : Type} (l : list A) (body : A -> St unit) : St unit :=
  match l with
  | [] => st_ret tt
  | x :: t => (body x ;;; st_for t body)%st
  end.

(* ===================================================================== *)
(** * recallibrate, ErrorTable.extrapolate and ErrorTable.zeroshift on the store *)
(* ===================================================================== *)

Section OnTheStore.
Context `{Collaborators}.
Open Scope st_scope.

(** Lines 78-80 for row [ind] of [spec.table]. *)
Definition st_correct_row (spec : loc) (ppm : Q) (ind : nat) : St unit :=
  tm <~ spec_fields spec ;;
  tbl <~ get_frame (fst tm) ;;
  write (fst tm) (DataFrame (correct_row ppm tbl ind)).

(** Lines 77-80 for bin [i]: the index is computed from [spec.table] as
    it is now, then its rows are written one by one. *)
Definition st_correct_bin (spec : loc) (a : list Q) (err : list CurvePoint)
    (i : nat) : St unit :=
  tm <~ spec_fields spec ;;
  tbl <~ get_frame (fst tm) ;;
  let ppm := match err !! i with Some r => cppm r | None => 0 end in
  st_for (bin_index (nth i a 0) (nth (S i) a 0) tbl) (st_correct_row spec ppm).

(** Lines 59-66: the error table given, or the one computed for the
    copy [spec] by the strategy [how] names. The strategies start by
    copying what they are given ([copy.deepcopy]) and are functions of
    its value. *)
Definition choose_error_table (spec : loc) (error_table : option loc)
    (how : string) : St loc :=
  match error_table with
  | Some e => st_ret e
  | None =>
      v <~ read_spectrum spec ;;
      rows <~ lift (compute_error_table v how) ;;
      new_error_table rows
  end.

(** Lines 68-84. *)
Definition apply_error_table (spec error_table : loc) (how : string) : St loc :=
  (* err = copy.deepcopy(error_table.table) *)
  et <~ etable_field error_table ;;
  rows <~ get_curve et ;;
  err <~ alloc (CurveFrame rows) ;;
  (* spec.table = spec.table.reset_index(drop=True) *)
  tm <~ spec_fields spec ;;
  tbl <~ get_frame (fst tm) ;;
  t <~ alloc (DataFrame tbl) ;;
  write spec (SpectrumObj t (snd tm)) ;;;
  (* wide, min_mass, max_mass, a *)
  err <~ get_curve err ;;
  let wide := length err in
  let a := bin_edges err in
  st_for (seq 0 wide) (st_correct_bin spec a err) ;;;
  (* spec.metadata.add({'recallibrate': how}) *)
  tm <~ spec_fields spec ;;
  metadata_add (snd tm) "recallibrate" how ;;;
  st_ret spec.

(** Lines 57-84. [draw] only selects plotting. *)
Definition recallibrate (spec : loc) (error_table : option loc) (how : string)
    (draw : bool) : St loc :=
  (* spec = spec.copy() *)
  spec <~ spectrum_copy spec ;;
  error_table <~ choose_error_table spec error_table how ;;
  apply_error_table spec error_table how.

(** Lines 442-452. *)
Definition extrapolate (self : loc) (ranges : option (Q * Q)) : St loc :=
  t <~ etable_field self ;;
  tbl <~ get_curve t ;;
  err <~ lift (extrapolate_rows tbl ranges) ;;
  new_error_table err.

(** Lines 476-479. *)
Definition zeroshift (self spec : loc) : St loc :=
  (* err = copy.deepcopy(self) *)
  t <~ etable_field self ;;
  tbl <~ get_curve t ;;
  err <~ new_error_table tbl ;;
  (* mean_error = spec.drop_unassigned().calc_error()['rel_error'].mean() *)
  v <~ read_spectrum spec ;;
  mean_error <~ lift (mean_rel_error v) ;;
  (* err.table['ppm'] = err.table['ppm'] - mean_error *)
  t <~ etable_field err ;;
  tbl <~ get_curve t ;;
  write t (CurveFrame (zeroshift_rows mean_error tbl)) ;;;
  (* return ErrorTable(err.table) *)
  t <~ etable_field err ;;
  alloc (ErrorTableObj t).

End OnTheStore.

(* ===================================================================== *)
(** * A laboratory instance of the collaborators *)
(* ===================================================================== *)

(** Stand-ins on which the definitions above can be run: the six
    monoisotopic masses of CH2, CO, CH2O, C2HO, H2O and CO2; a spectrum
    whose assignment is already in its table; a density that peaks at
    0 ppm whatever the mass; a smoothing filter that leaves the curve as
    it is. The concrete runs below use them; no general theorem does. *)
Definition bench_kde (x y : list Q) : outcome (Q -> Q -> Q) :=
  if (length x <? 2)%nat then Raise "ValueError"
  else Ok (fun _ yj => 1 / (1 + yj * yj)).

Definition bench : Collaborators := {|
  dif_masses := [14.01565; 27.994915; 30.010565; 41.00274; 18.010565; 43.98983];
  spectrum_assign := fun _ _ s => Ok s;
  spectrum_calc_mass := fun s => Ok s;
  spectrum_calc_error := fun s => Ok s;
  read_csv := fun _ => Raise "FileNotFoundError";
  gaussian_kde := bench_kde;
  savgol_filter := fun x _ _ => Ok x
|}.

(** A second laboratory: the density has its ridge on the line
    [ppm = (mass - 150) / 25], and the kernel cannot be fitted on fewer
    than two points. *)
Definition slope_kde (x y : list Q) : outcome (Q -> Q -> Q) :=
  if (length x <? 2)%nat then Raise "LinAlgError"
  else Ok (fun xi yj => 1 / (1 + (yj - (xi - 150) / 25) * (yj - (xi - 150) / 25))).

Definition bench_slope : Collaborators := {|
  dif_masses := [14.01565; 27.994915; 30.010565; 41.00274; 18.010565; 43.98983];
  spectrum_assign := fun _ _ s => Ok s;
  spectrum_calc_mass := fun s => Ok s;
  spectrum_calc_error := fun s => Ok s;
  read_csv := fun _ => Raise "FileNotFoundError";
  gaussian_kde := slope_kde;
  savgol_filter := fun x _ _ => Ok x
|}.

(* ===================================================================== *)
(** * Vocabulary of the statements *)
(* ===================================================================== *)

(** The row [recallibrate] writes for a row [p] met in a bin of error
    [ppm]: its mass becomes [mass + mass * ppm / 1000000]. *)
Definition corrected (ppm : Q) (p : Peak) : Peak :=
  set_mass p (mass p + mass p * ppm / 1000000).

(** Two rows that agree on every column but [mass]. *)
Definition same_but_mass (p p' : Peak) : Prop :=
  intensity p' = intensity p /\ assign p' = assign p /\ rel_error p' = rel_error p.

(** Every object of [σ] is in [σ'], as it was. *)
Definition untouched (σ σ' : store) : Prop :=
  forall (l : loc) (o : obj), σ !! l = Some o -> σ' !! l = Some o.

(** The masses of the spectrum at [s]. *)
Definition masses_at (s : loc) (σ : store) : option (list Q) :=
  match read_spectrum s σ with
  | Ok (v, _) => Some (map mass (table v))
  | _ => None
  end.

(** An array in ascending order, as [np.searchsorted] expects it. *)
Definition ascending (l : list Q) : Prop := StronglySorted Qle l.

(** A curve whose masses increase strictly from row to row. *)
Definition increasing (tbl : list CurvePoint) : Prop :=
  StronglySorted (fun p q => cmass p < cmass q) tbl.

(** What lines 158-165 append for the mass [m] and the difference [d]. *)
Definition md_emit (masses : list Q) (ppm m d : Q) : list CurvePoint :=
  let mz := m + d in
  let found := nth (nearest_index masses mz) masses 0 in
  if Qleb (Qabs (found - mz) / mz * 1000000) ppm
  then [mkPoint m ((found - mz) / mz * 1000000)]
  else [].

(** The float line 202 leaves for column [i] of the map: the ridge, or
    [nan]. *)
Definition ridge_cell (index : list Q) (f : list (list Q)) (i : nat) : option Q :=
  match ridge index f i with
  | Ok v => Some v
  | _ => None
  end.

(** Line 408: [mass > min_mass and mass < max_mass] for the etalon mass
    [x] and the window of the observed mass [m]. *)
Definition in_window (ppm m x : Q) : bool :=
  Qltb (m * (1 - ppm / 1000000)) x && Qltb x (m * (1 + ppm / 1000000)).

(** The inner loop of lines 406-411 on the value of [cal]. *)
Definition cal_loop (et : list Q) (ppm : Q) (p : Peak) (cal : Q) : Q :=
  fold_left (fun c m => if in_window ppm (mass p) m then m else c) et cal.

(** The line through two points of a curve, at [x]. *)
Definition line_through (p q : CurvePoint) (x : Q) : Q :=
  (cppm q - cppm p) / (cmass q - cmass p) * (x - cmass p) + cppm p.

(** [y] is the value at [x] of the piecewise-linear function through
    [pts], extended to the left by the line of the first segment and to
    the right by the line of the last one. *)
Definition piecewise_linear (pts : list CurvePoint) (x y : Q) : Prop :=
  exists (j : nat) (p q : CurvePoint),
    pts !! j = Some p /\ pts !! S j = Some q /\
    y == line_through p q x /\
    ((cmass p <= x <= cmass q)
     \/ (j = 0%nat /\ x <= cmass p)
     \/ (S (S j) = length pts /\ cmass q <= x)).

(** A store of five objects: the spectrum 1 (table 2, metadata 3) and the
    error table 4 (table 5). *)
Definition lab_store (rows : list Peak) (curve : list CurvePoint) : store :=
  <[1%positive := SpectrumObj 2%positive 3%positive]>
    (<[2%positive := DataFrame rows]>
       (<[3%positive := MetaData ∅]>
          (<[4%positive := ErrorTableObj 5%positive]>
             (<[5%positive := CurveFrame curve]> ∅)))).

(** The masses [recallibrate] returns for the spectrum and the error
    table of [lab_store]. *)
Definition lab_recallibrate (rows : list Peak) (curve : list CurvePoint)
  : option (list Q) :=
  match @recallibrate bench 1%positive (Some 4%positive) "assign" true
          (lab_store rows curve) with
  | Ok (s, σ) => masses_at s σ
  | _ => None
  end.

(** The spectrum and the curve of the end-to-end scenario. *)
Definition scenario_rows : list Peak :=
  [mkPeak 100 10 false None; mkPeak 100.01 5 false None; mkPeak 200.005 8 false None].

Definition scenario_curve : list CurvePoint := [mkPoint 100 5; mkPoint 200 (-5)].

(** A run on four peaks, three of them one CH2 apart. *)
Definition md_demo : Spectrum :=
  {| table := [mkPeak 100 10 false None; mkPeak 114.01565 5 false None;
               mkPeak 128.0313 3 false None; mkPeak 200.005 8 false None];
     metadata := ∅ |}.

(** A density map and a mass array on which [fit_kernel] can be run. *)
Definition demo_grid : list (list Q) :=
  match @kernel_density_map bench [mkPoint 100 0; mkPoint 200 1] 3 with
  | Ok kdm => kdm
  | _ => []
  end.

(** A spectrum whose peaks are assigned, with their relative errors. *)
Definition assigned_rows : list Peak :=
  [mkPeak 100 10 true (Some 1); mkPeak 150 5 false None; mkPeak 200 8 true (Some 2)].

(** A spectrum whose assigned peaks span a part of its mass range only. *)
Definition wide_rows : list Peak :=
  [mkPeak 50 4 false None; mkPeak 100 10 true (Some 1); mkPeak 200 8 true (Some 2);
   mkPeak 250 3 false None].

(* ===================================================================== *)
(** * Comparisons and arithmetic *)
(* ===================================================================== *)

Lemma Qltb_lt (a b : Q) : Qltb a b = true <-> a < b.
Proof.
  unfold Qltb. rewrite negb_true_iff.
  destruct (Qle_bool b a) eqn:E.
  - apply Qle_bool_iff in E. split; [discriminate | intros; lra].
  - split; [intros _ | reflexivity].
    apply Qnot_le_lt. intros Hle. apply Qle_bool_iff in Hle. congruence.
Qed.

Lemma Qltb_ge (a b : Q) : Qltb a b = false <-> b <= a.
Proof.
  unfold Qltb. rewrite negb_false_iff. apply Qle_bool_iff.
Qed.

Lemma Qleb_le (a b : Q) : Qleb a b = true <-> a <= b.
Proof. apply Qle_bool_iff. Qed.

Lemma Qleb_gt (a b : Q) : Qleb a b = false <-> b < a.
Proof.
  unfold Qleb. destruct (Qle_bool a b) eqn:E.
  - apply Qle_bool_iff in E. split; [discriminate | intros; lra].
  - split; [intros _ | reflexivity].
    apply Qnot_le_lt. intros Hle. apply Qle_bool_iff in Hle. congruence.
Qed.

Lemma Qnat_le (a b : nat) : (a <= b)%nat -> Qnat a <= Qnat b.
Proof. intros Hab. unfold Qnat, Qle. simpl. lia. Qed.

Lemma Qnat_pos (n : nat) : (0 < n)%nat -> 0 < Qnat n.
Proof. intros Hn. unfold Qnat, Qlt. simpl. lia. Qed.

Lemma Qnat_nonneg (n : nat) : 0 <= Qnat n.
Proof. unfold Qnat, Qle. simpl. lia. Qed.

Lemma Qnat_S (n : nat) : Qnat (S n) == Qnat n + 1.
Proof. unfold Qnat. rewrite Nat2Z.inj_succ, <- Z.add_1_r, inject_Z_plus. reflexivity. Qed.

Lemma Qnat_lt (a b : nat) : (a < b)%nat -> Qnat a < Qnat b.
Proof.
  intros Hlt. pose proof (Qnat_le (S a) b Hlt) as Hle. rewrite Qnat_S in Hle. lra.
Qed.

Lemma scaled_step_le (k w d : Q) : 0 <= d -> 0 <= k <= w -> 0 < w -> k * (d / w) <= d.
Proof.
  intros Hd [Hk Hkw] Hw.
  assert (0 <= d / w) as Hstep.
  { unfold Qdiv. apply Qmult_le_0_compat; [exact Hd|]. apply Qlt_le_weak, Qinv_lt_0_compat, Hw. }
  assert (k * (d / w) <= w * (d / w)) as Hle by (apply Qmult_le_compat_r; assumption).
  assert (w * (d / w) == d) as Heq by (field; lra).
  lra.
Qed.

Lemma Qabs_minus_nonneg (a b : Q) : b <= a -> Qabs (a - b) == a - b.
Proof. intros Hle. apply Qabs_pos. lra. Qed.

Lemma Qabs_minus_nonpos (a b : Q) : a <= b -> Qabs (a - b) == b - a.
Proof. intros Hle. rewrite Qabs_neg by lra. lra. Qed.

Lemma Qabs_ppm (x mz : Q) : 0 < mz -> Qabs (x / mz * 1000000) == Qabs x / mz * 1000000.
Proof.
  intros Hmz. unfold Qdiv. rewrite !Qabs_Qmult.
  rewrite (Qabs_pos (/ mz)) by (apply Qlt_le_weak, Qinv_lt_0_compat; exact Hmz).
  rewrite (Qabs_pos 1000000) by discriminate. reflexivity.
Qed.

(* ===================================================================== *)
(** * Lists *)
(* ===================================================================== *)

Lemma list_lookup_map {A B : Type} (f : A -> B) (l : list A) (i : nat) :
  map f l !! i = f <$> l !! i.
Proof. revert i. induction l as [|x l IH]; intros [|i]; simpl; auto. Qed.

Lemma nth_map_lt {A B : Type} (f : A -> B) (l : list A) (i : nat) (d : B) (d' : A) :
  (i < length l)%nat -> nth i (map f l) d = f (nth i l d').
Proof.
  revert i. induction l as [|x l IH]; intros [|i] Hi; simpl in *; try lia; [reflexivity|].
  apply IH. lia.
Qed.

Lemma nth_map_lookup {A : Type} (f : A -> Q) (l : list A) (i : nat) (x : A) :
  l !! i = Some x -> nth i (map f l) 0 = f x.
Proof.
  revert i. induction l as [|a l IH]; intros [|i] Hi; simpl in *; try discriminate.
  - congruence.
  - auto.
Qed.

Lemma map_zip_with_l {A B C : Type} (f : A -> B -> C) (g : C -> A) (l : list A) (k : list B) :
  (forall x y, g (f x y) = x) -> length l = length k -> map g (zip_with f l k) = l.
Proof.
  intros Hg. revert k. induction l as [|x l IH]; intros [|y k] Hlen; simpl in *;
    try discriminate; [reflexivity|].
  rewrite Hg, IH by lia. reflexivity.
Qed.


Lemma flat_map_ext_elem {A B : Type} (f g : A -> list B) (l : list A) :
  (forall a, a ∈ l -> f a = g a) -> flat_map f l = flat_map g l.
Proof.
  induction l as [|a l IH]; intros Hfg; simpl; [reflexivity|].
  rewrite Hfg by left. rewrite IH; [reflexivity|]. intros b Hb. apply Hfg. right. assumption.
Qed.

Lemma omap_id_map {A B : Type} (f : A -> option B) (l : list A) :
  omap id (map f l) = omap f l.
Proof.
  induction l as [|x l IH]; [reflexivity|].
  cbn [map omap list_omap]. fold (omap id (map f l)). fold (omap f l).
  rewrite IH. destruct (f x); reflexivity.
Qed.

Lemma nth_map_seq {A : Type} (f : nat -> A) (n c : nat) (d : A) :
  (c < n)%nat -> nth c (map f (seq 0 n)) d = f c.
Proof.
  intros Hc. rewrite (nth_map_lt f (seq 0 n) c d 0%nat) by (rewrite length_seq; exact Hc).
  rewrite seq_nth by exact Hc. reflexivity.
Qed.

Lemma filter_none {A : Type} (f : A -> bool) (l : list A) :
  (forall x, x ∈ l -> f x = false) -> List.filter f l = [].
Proof.
  induction l as [|x l IH]; intros Hall; [reflexivity|].
  cbn [List.filter]. rewrite (Hall x) by left. apply IH. intros y Hy. apply Hall. right. exact Hy.
Qed.

Lemma length_flat_map_le {A B : Type} (f : A -> list B) (n : nat) (l : list A) :
  (forall a, (length (f a) <= n)%nat) -> (length (flat_map f l) <= length l * n)%nat.
Proof.
  intros Hf. induction l as [|a l IH]; [simpl; lia|].
  cbn [flat_map length]. rewrite length_app. specialize (Hf a). lia.
Qed.

Lemma fold_alter_lookup {A : Type} (f : A -> A) (idxs : list nat) :
  NoDup idxs -> forall (l : list A) (k : nat),
  fold_left (fun l i => alter f i l) idxs l !! k
  = if decide (k ∈ idxs) then f <$> l !! k else l !! k.
Proof.
  induction 1 as [|i idxs Hnotin Hnd IH]; intros l k; cbn [fold_left].
  - case_decide as Hin; [inversion Hin | reflexivity].
  - rewrite IH. destruct (decide (k = i)) as [->|Hne].
    + rewrite decide_False by assumption. rewrite decide_True by left.
      apply list_lookup_alter_eq.
    + rewrite !list_lookup_alter_ne by congruence.
      destruct (decide (k ∈ idxs)) as [Hin|Hin].
      * rewrite decide_True by (right; assumption). reflexivity.
      * rewrite decide_False; [reflexivity|].
        intros [->|?]%elem_of_cons; contradiction.
Qed.

Lemma fold_alter_all {A : Type} (f : A -> A) (l : list A) :
  fold_left (fun l i => alter f i l) (seq 0 (length l)) l = map f l.
Proof.
  apply list_eq. intros k.
  rewrite fold_alter_lookup by apply NoDup_ListNoDup, List.seq_NoDup.
  rewrite list_lookup_map.
  case_decide as Hin; [reflexivity|].
  destruct (l !! k) as [x|] eqn:Hk; [|reflexivity].
  exfalso. apply Hin. apply list_elem_of_In, in_seq.
  apply lookup_lt_Some in Hk. lia.
Qed.

Lemma traverse_Ok {A B : Type} (f : A -> outcome B) (P : A -> B -> Prop) (l : list A) :
  (forall x, exists y, f x = Ok y /\ P x y) ->
  exists ys, traverse f l = Ok ys /\ Forall2 P l ys.
Proof.
  intros Hf. induction l as [|x l (ys & Hys & Hall)]; simpl.
  - exists []. split; [reflexivity | constructor].
  - destruct (Hf x) as (y & Hy & Hp). exists (y :: ys).
    unfold mbind, outcome_bind. rewrite Hy. cbn [obind]. rewrite Hys. cbn [obind mret outcome_ret].
    split; [reflexivity | constructor; assumption].
Qed.

Lemma traverse_length {A B : Type} (f : A -> outcome B) (l : list A) (ys : list B) :
  traverse f l = Ok ys -> length ys = length l.
Proof.
  revert ys. induction l as [|x l IH]; intros ys; simpl.
  - intros [= <-]. reflexivity.
  - unfold mbind, outcome_bind. destruct (f x) as [y| |]; cbn [obind]; try discriminate.
    destruct (traverse f l) as [ys'| |]; cbn [obind]; try discriminate.
    intros [= <-]. simpl. rewrite (IH ys' eq_refl). reflexivity.
Qed.

Lemma traverse_rel {A B : Type} (f g : A -> outcome B) (R : B -> B -> Prop) (l : list A) :
  (forall x y, f x = Ok y -> exists y', g x = Ok y' /\ R y' y) ->
  forall ys, traverse f l = Ok ys ->
  exists ys', traverse g l = Ok ys' /\ Forall2 R ys' ys.
Proof.
  intros Hfg. induction l as [|x l IH]; intros ys.
  - intros [= <-]. exists []. split; [reflexivity | constructor].
  - cbn [traverse]. unfold mbind, outcome_bind.
    destruct (f x) as [y| |] eqn:Hx; cbn [obind]; try discriminate.
    destruct (traverse f l) as [ys0| |]; cbn [obind]; try discriminate.
    intros [= <-]. destruct (Hfg x y Hx) as (y' & -> & Hy).
    destruct (IH ys0 eq_refl) as (ys' & -> & Hys). cbn [obind].
    exists (y' :: ys'). split; [reflexivity | constructor; assumption].
Qed.

Lemma traverse_nan {A : Type} (l : list A) :
  l <> [] -> traverse (fun _ : A => @NaN Q) l = NaN.
Proof. destruct l; [congruence | reflexivity]. Qed.

Lemma traverse_stops_at_nan {A B : Type} (f : A -> outcome B) (l : list A) (x : A) :
  (forall y exc, f y <> Raise exc) -> x ∈ l -> f x = NaN -> traverse f l = NaN.
Proof.
  intros Hnoraise Hx Hnan. induction l as [|y l IH]; [inversion Hx|].
  cbn [traverse]. unfold mbind, outcome_bind.
  destruct (f y) as [b| |] eqn:Hy; cbn [obind].
  - assert (x ∈ l) as Hx'.
    { apply list_elem_of_In in Hx. destruct Hx as [-> | Hx]; [congruence|].
      apply list_elem_of_In. exact Hx. }
    rewrite (IH Hx'). reflexivity.
  - exfalso. exact (Hnoraise y exc Hy).
  - reflexivity.
Qed.

(* ===================================================================== *)
(** * linspace, min, max and mean *)
(* ===================================================================== *)

Lemma length_linspace (start stop : Q) (num : nat) : length (linspace start stop num) = num.
Proof.
  destruct num as [|[|div]]; [reflexivity | reflexivity |].
  unfold linspace. rewrite length_app, length_map, length_seq. simpl. lia.
Qed.

(** The entries of [np.linspace(start, stop, div + 1)]. *)
Lemma linspace_nth (start stop : Q) (div i : nat) :
  (1 <= div)%nat -> (i <= div)%nat ->
  nth i (linspace start stop (S div)) 0
  = if (i =? div)%nat then stop
    else Qnat i * ((stop - start) / Qnat div) + start.
Proof.
  intros Hdiv Hi. unfold linspace. destruct div as [|div]; [lia|].
  destruct (Nat.eqb_spec i (S div)) as [->|Hne].
  - rewrite app_nth2; rewrite length_map, length_seq; [|lia].
    rewrite Nat.sub_diag. reflexivity.
  - rewrite app_nth1 by (rewrite length_map, length_seq; lia).
    rewrite (nth_map_lt _ _ _ _ 0%nat) by (rewrite length_seq; lia).
    rewrite seq_nth by lia. reflexivity.
Qed.

(** The edges lie between the first and the last, in order. *)
Lemma linspace_bounds (start stop : Q) (div i : nat) :
  (1 <= div)%nat -> (i <= div)%nat -> start <= stop ->
  start <= nth i (linspace start stop (S div)) 0 <= stop.
Proof.
  intros Hdiv Hi Hle. rewrite linspace_nth by assumption.
  destruct (Nat.eqb_spec i div) as [->|Hne]; [lra|].
  assert (0 < Qnat div) as Hw by (apply Qnat_pos; lia).
  assert (0 <= Qnat i <= Qnat div) as Hk by (split; [apply Qnat_nonneg | apply Qnat_le; lia]).
  assert (0 <= (stop - start) / Qnat div) as Hstep.
  { unfold Qdiv. apply Qmult_le_0_compat; [lra|]. apply Qlt_le_weak, Qinv_lt_0_compat, Hw. }
  assert (0 <= Qnat i * ((stop - start) / Qnat div)) as H0
    by (apply Qmult_le_0_compat; [apply Hk | exact Hstep]).
  pose proof (scaled_step_le (Qnat i) (Qnat div) (stop - start)) as H1.
  split; [lra|]. assert (Qnat i * ((stop - start) / Qnat div) <= stop - start) by (apply H1; lra).
  lra.
Qed.

Lemma linspace_monotone (start stop : Q) (div i j : nat) :
  (1 <= div)%nat -> (j <= i <= div)%nat -> start <= stop ->
  nth j (linspace start stop (S div)) 0 <= nth i (linspace start stop (S div)) 0.
Proof.
  intros Hdiv Hij Hle.
  destruct (decide (i = div)) as [->|Hne].
  - rewrite (linspace_nth start stop div div) by lia. rewrite Nat.eqb_refl.
    apply linspace_bounds; [lia | lia | exact Hle].
  - rewrite !linspace_nth by lia.
    destruct (Nat.eqb_spec i div) as [|_]; [contradiction|].
    destruct (Nat.eqb_spec j div) as [|_]; [lia|].
    assert (0 < Qnat div) as Hw by (apply Qnat_pos; lia).
    assert (0 <= (stop - start) / Qnat div) as Hstep.
    { unfold Qdiv. apply Qmult_le_0_compat; [lra|]. apply Qlt_le_weak, Qinv_lt_0_compat, Hw. }
    assert (Qnat j * ((stop - start) / Qnat div) <= Qnat i * ((stop - start) / Qnat div))
      by (apply Qmult_le_compat_r; [apply Qnat_le; lia | exact Hstep]).
    lra.
Qed.

(** Every entry of [linspace], the last one included, in closed form. *)
Lemma linspace_nth_eq (start stop : Q) (div i : nat) :
  (1 <= div)%nat -> (i <= div)%nat ->
  nth i (linspace start stop (S div)) 0 == Qnat i * ((stop - start) / Qnat div) + start.
Proof.
  intros Hdiv Hi. rewrite linspace_nth by assumption.
  destruct (Nat.eqb_spec i div) as [-> | _]; [|reflexivity].
  pose proof (Qnat_pos div Hdiv). field. lra.
Qed.

(** [linspace] climbs strictly when its ends are apart. *)
Lemma linspace_strict (start stop : Q) (div i j : nat) :
  (1 <= div)%nat -> start < stop -> (i < j <= div)%nat ->
  nth i (linspace start stop (S div)) 0 < nth j (linspace start stop (S div)) 0.
Proof.
  intros Hdiv Hlt Hij.
  rewrite (linspace_nth_eq start stop div i), (linspace_nth_eq start stop div j) by lia.
  pose proof (Qnat_pos div Hdiv) as Hd. pose proof (Qnat_lt i j ltac:(lia)) as Hq.
  assert (0 < (stop - start) / Qnat div) as Hstep by (apply Qlt_shift_div_l; lra).
  nra.
Qed.

(** The two grids of ppm positions read the same band in opposite
    directions. *)
Lemma linspace_reversed (p : Q) (r : nat) :
  (r < 100)%nat ->
  nth (99 - r) (linspace (- p) p 100) 0 == nth r (linspace p (- p) 100) 0.
Proof.
  intros Hr.
  rewrite (linspace_nth (- p) p 99 (99 - r)) by lia.
  rewrite (linspace_nth p (- p) 99 r) by lia.
  destruct (Nat.eqb_spec (99 - r) 99) as [E1|E1];
    destruct (Nat.eqb_spec r 99) as [E2|E2]; try lia.
  - assert (r = 0%nat) as -> by lia. change (Qnat 0) with 0. ring.
  - subst r. change (99 - 99)%nat with 0%nat. change (Qnat 0) with 0. ring.
  - unfold Qnat. rewrite Nat2Z.inj_sub by lia. rewrite <- Z.add_opp_r, inject_Z_plus, inject_Z_opp.
    change (inject_Z (Z.of_nat 99)) with 99. field.
Qed.

Lemma col_min_fold (t : list Q) : forall x : Q,
  let m := fold_left (fun m y => if Qltb y m then y else m) t x in
  m ∈ x :: t /\ forall y, y ∈ x :: t -> m <= y.
Proof.
  induction t as [|a t IH]; intros x; simpl.
  - split; [left|]. intros y Hy. apply list_elem_of_singleton in Hy as ->. lra.
  - destruct (Qltb a x) eqn:Hax.
    + apply Qltb_lt in Hax. destruct (IH a) as [Hin Hle]. split.
      * right. exact Hin.
      * intros y [->|Hy]%elem_of_cons; [|auto].
        assert (fold_left (fun m y => if Qltb y m then y else m) t a <= a) by (apply Hle; left).
        lra.
    + apply Qltb_ge in Hax. destruct (IH x) as [Hin Hle]. split.
      * apply elem_of_cons in Hin as [->|Hin]; [left | right; right; exact Hin].
      * intros y [->|[->|Hy]%elem_of_cons]%elem_of_cons.
        -- apply Hle. left.
        -- assert (fold_left (fun m y => if Qltb y m then y else m) t x <= x) by (apply Hle; left).
           lra.
        -- apply Hle. right. exact Hy.
Qed.

Lemma col_max_fold (t : list Q) : forall x : Q,
  let m := fold_left (fun m y => if Qltb m y then y else m) t x in
  m ∈ x :: t /\ forall y, y ∈ x :: t -> y <= m.
Proof.
  induction t as [|a t IH]; intros x; simpl.
  - split; [left|]. intros y Hy. apply list_elem_of_singleton in Hy as ->. lra.
  - destruct (Qltb x a) eqn:Hax.
    + apply Qltb_lt in Hax. destruct (IH a) as [Hin Hle]. split.
      * right. exact Hin.
      * intros y [->|Hy]%elem_of_cons; [|auto].
        assert (a <= fold_left (fun m y => if Qltb m y then y else m) t a) by (apply Hle; left).
        lra.
    + apply Qltb_ge in Hax. destruct (IH x) as [Hin Hle]. split.
      * apply elem_of_cons in Hin as [->|Hin]; [left | right; right; exact Hin].
      * intros y [->|[->|Hy]%elem_of_cons]%elem_of_cons.
        -- apply Hle. left.
        -- assert (x <= fold_left (fun m y => if Qltb m y then y else m) t x) by (apply Hle; left).
           lra.
        -- apply Hle. right. exact Hy.
Qed.

(** [min] and [max] of a column are entries of it that bound it. *)
Lemma col_min_spec (l : list Q) (m : Q) :
  col_min l = Some m -> m ∈ l /\ forall y, y ∈ l -> m <= y.
Proof.
  destruct l as [|x t]; [discriminate|]. intros [= <-]. apply col_min_fold.
Qed.

Lemma col_max_spec (l : list Q) (m : Q) :
  col_max l = Some m -> m ∈ l /\ forall y, y ∈ l -> y <= m.
Proof.
  destruct l as [|x t]; [discriminate|]. intros [= <-]. apply col_max_fold.
Qed.

Lemma col_min_linspace (lo hi : Q) (div : nat) (m0 : Q) :
  (1 <= div)%nat -> lo <= hi -> col_min (linspace lo hi (S div)) = Some m0 -> m0 == lo.
Proof.
  intros Hdiv Hle Hmin. apply col_min_spec in Hmin as [Hin Hall].
  apply Qle_antisym.
  - assert (nth 0 (linspace lo hi (S div)) 0 == lo) as E.
    { rewrite linspace_nth_eq by lia. change (Qnat 0) with 0. ring. }
    rewrite <- E. apply Hall, list_elem_of_In, nth_In. rewrite length_linspace. lia.
  - apply list_elem_of_In, (In_nth _ _ 0) in Hin as (i & Hi & <-).
    rewrite length_linspace in Hi. apply (linspace_bounds lo hi div i); [lia | lia | exact Hle].
Qed.

Lemma col_max_linspace (lo hi : Q) (div : nat) (m1 : Q) :
  (1 <= div)%nat -> lo <= hi -> col_max (linspace lo hi (S div)) = Some m1 -> m1 == hi.
Proof.
  intros Hdiv Hle Hmax. apply col_max_spec in Hmax as [Hin Hall].
  apply Qle_antisym.
  - apply list_elem_of_In, (In_nth _ _ 0) in Hin as (i & Hi & <-).
    rewrite length_linspace in Hi. apply (linspace_bounds lo hi div i); [lia | lia | exact Hle].
  - assert (nth div (linspace lo hi (S div)) 0 = hi) as E.
    { rewrite linspace_nth by lia. rewrite Nat.eqb_refl. reflexivity. }
    rewrite <- E at 1. apply Hall, list_elem_of_In, nth_In. rewrite length_linspace. lia.
Qed.

Lemma py_min_Ok (l : list Q) (m : Q) : py_min l = Ok m -> col_min l = Some m.
Proof. unfold py_min. destruct (col_min l); [intros [= ->]; reflexivity | discriminate]. Qed.

Lemma py_max_Ok (l : list Q) (m : Q) : py_max l = Ok m -> col_max l = Some m.
Proof. unfold py_max. destruct (col_max l); [intros [= ->]; reflexivity | discriminate]. Qed.

Lemma np_mean_Some (l : list Q) (m : Q) :
  np_mean l = Some m -> l <> [] /\ m = Qsum l / Qnat (length l).
Proof.
  destruct l as [|x l]; [discriminate|]. intros [= <-]. split; [discriminate | reflexivity].
Qed.

Lemma Qsum_fold_bounds (lo hi : Q) (l : list Q) :
  Forall (fun x => lo <= x <= hi) l ->
  forall acc : Q,
    acc + lo * Qnat (length l) <= fold_left Qplus l acc <= acc + hi * Qnat (length l).
Proof.
  induction 1 as [|x l Hx Hl IH]; intros acc.
  - simpl. change (Qnat 0) with 0. lra.
  - cbn [fold_left length]. specialize (IH (acc + x)).
    assert (Qnat (S (length l)) == Qnat (length l) + 1) as E.
    { unfold Qnat. rewrite Nat2Z.inj_succ, <- Z.add_1_r, inject_Z_plus. reflexivity. }
    rewrite E. lra.
Qed.

Lemma np_mean_bounds (lo hi : Q) (l : list Q) (m : Q) :
  Forall (fun x => lo <= x <= hi) l -> np_mean l = Some m -> lo <= m <= hi.
Proof.
  intros Hall Hm. apply np_mean_Some in Hm as [Hne ->].
  pose proof (Qsum_fold_bounds lo hi l Hall 0) as Hs. fold (Qsum l) in Hs.
  assert (0 < Qnat (length l)) as Hpos.
  { apply Qnat_pos. destruct l; [congruence | simpl; lia]. }
  split.
  - apply Qle_shift_div_l; [exact Hpos | lra].
  - apply Qle_shift_div_r; [exact Hpos | lra].
Qed.

(* ===================================================================== *)
(** * Sorting and np.unique *)
(* ===================================================================== *)

#[local]
Instance key_le_total {A : Type} (key : A -> Q) : Total (key_le key).
Proof.
  intros x y. unfold key_le. rewrite !Qle_bool_iff.
  destruct (Qlt_le_dec (key y) (key x)); [right | left]; lra.
Qed.

#[local]
Instance key_le_trans {A : Type} (key : A -> Q) : Transitive (key_le key).
Proof.
  intros x y z. unfold key_le. rewrite !Qle_bool_iff. lra.
Qed.

Lemma sort_values_perm {A : Type} (key : A -> Q) (l : list A) :
  sort_values key l ≡ₚ l.
Proof. apply merge_sort_Permutation. Qed.

Lemma sort_values_sorted {A : Type} (key : A -> Q) (l : list A) :
  StronglySorted (fun x y => key x <= key y) (sort_values key l).
Proof.
  unfold sort_values.
  pose proof (StronglySorted_merge_sort (key_le key) l) as Hs.
  induction Hs as [|x l' Hs IH Hall]; constructor; [assumption|].
  eapply Forall_impl; [exact Hall|]. intros y Hy. apply Qle_bool_iff, Hy.
Qed.

Lemma sort_values_desc_perm {A : Type} (key : A -> Q) (l : list A) :
  sort_values_desc key l ≡ₚ l.
Proof. apply merge_sort_Permutation. Qed.

Lemma sort_values_desc_sorted {A : Type} (key : A -> Q) (l : list A) :
  StronglySorted (fun x y => key y <= key x) (sort_values_desc key l).
Proof.
  unfold sort_values_desc.
  pose proof (StronglySorted_merge_sort (key_le (fun x => - key x)) l) as Hs.
  induction Hs as [|x l' Hs IH Hall]; constructor; [assumption|].
  eapply Forall_impl; [exact Hall|]. intros y Hy.
  unfold key_le in Hy. apply Qle_bool_iff in Hy. lra.
Qed.

Lemma dedup_sorted_elem (l : list Q) (x : Q) : x ∈ dedup_sorted l -> x ∈ l.
Proof.
  induction l as [|a l IH]; [intros Hx; exact Hx|].
  cbn [dedup_sorted]. destruct l as [|b l]; [intros Hx; exact Hx|].
  destruct (Qeq_bool a b).
  - intros Hx. right. auto.
  - intros [->|Hx]%elem_of_cons; [left | right; auto].
Qed.

Lemma dedup_sorted_covers (l : list Q) (x : Q) :
  x ∈ l -> exists y, y ∈ dedup_sorted l /\ y == x.
Proof.
  revert x. induction l as [|a l IH]; intros x; [intros Hx; inversion Hx|].
  cbn [dedup_sorted]. destruct l as [|b l].
  - intros Hx. exists x. split; [assumption | reflexivity].
  - destruct (Qeq_bool a b) eqn:Hab.
    + intros [->|Hx]%elem_of_cons; [|auto].
      apply Qeq_bool_iff in Hab.
      destruct (IH b) as (y & Hy & Hyb); [left|].
      exists y. split; [assumption | lra].
    + intros [->|Hx]%elem_of_cons.
      * exists a. split; [left | reflexivity].
      * destruct (IH x Hx) as (y & Hy & Hyx). exists y. split; [right; assumption | assumption].
Qed.

Lemma dedup_sorted_strict (l : list Q) :
  StronglySorted Qle l -> StronglySorted Qlt (dedup_sorted l).
Proof.
  induction 1 as [|a l Hs IH Hall]; [constructor|].
  cbn [dedup_sorted]. destruct l as [|b l]; [repeat constructor|].
  destruct (Qeq_bool a b) eqn:Hab; [assumption|].
  constructor; [assumption|].
  apply Forall_forall. intros y Hy. apply dedup_sorted_elem in Hy.
  assert (~ a == b) as Hne by (intros E; apply Qeq_bool_iff in E; congruence).
  rewrite Forall_forall in Hall.
  assert (a <= b) by (apply Hall; left).
  assert (b <= y).
  { inversion Hs as [|? ? _ Hb]; subst. apply elem_of_cons in Hy as [->|Hy]; [lra|].
    rewrite Forall_forall in Hb. auto. }
  lra.
Qed.

Lemma np_unique_spec (l : list Q) :
  StronglySorted Qlt (np_unique l) /\
  (forall x, x ∈ np_unique l -> x ∈ l) /\
  (forall x, x ∈ l -> exists y, y ∈ np_unique l /\ y == x).
Proof.
  unfold np_unique. split; [|split].
  - apply dedup_sorted_strict. apply (sort_values_sorted (fun x => x)).
  - intros x Hx%dedup_sorted_elem. rewrite sort_values_perm in Hx. assumption.
  - intros x Hx. apply dedup_sorted_covers. rewrite sort_values_perm. assumption.
Qed.

Lemma length_dedup_sorted (l : list Q) : (length (dedup_sorted l) <= length l)%nat.
Proof.
  induction l as [|x [|y t] IH]; [simpl; lia | simpl; lia |].
  change (dedup_sorted (x :: y :: t))
    with (if Qeq_bool x y then dedup_sorted (y :: t) else x :: dedup_sorted (y :: t)).
  destruct (Qeq_bool x y); cbn [length] in *; lia.
Qed.

(* ===================================================================== *)
(** * Binary search *)
(* ===================================================================== *)

Lemma ascending_nth (l : list Q) :
  ascending l -> forall i j : nat, (i <= j < length l)%nat -> nth i l 0 <= nth j l 0.
Proof.
  induction 1 as [|x l Hs IH Hall]; intros i j Hij; simpl in Hij; [lia|].
  destruct j as [|j].
  - assert (i = 0%nat) as -> by lia. simpl. lra.
  - destruct i as [|i]; simpl.
    + rewrite Forall_forall in Hall. apply Hall, list_elem_of_In, nth_In. lia.
    + apply IH. lia.
Qed.

Lemma bisect_left_spec (arr : list Q) (key : Q) :
  ascending arr ->
  forall (fuel lo hi : nat),
  (lo <= hi <= length arr)%nat -> (hi - lo < fuel)%nat ->
  (forall j, (j < lo)%nat -> nth j arr 0 < key) ->
  (forall j, (hi <= j < length arr)%nat -> key <= nth j arr 0) ->
  let r := bisect_left fuel arr key lo hi in
  (lo <= r <= hi)%nat /\
  (forall j, (j < r)%nat -> nth j arr 0 < key) /\
  (forall j, (r <= j < length arr)%nat -> key <= nth j arr 0).
Proof.
  intros Hasc fuel. induction fuel as [|fuel IH]; intros lo hi Hb Hf Hlo Hhi; [lia|].
  cbn [bisect_left]. destruct (Nat.ltb_spec lo hi) as [Hlt|Hge].
  - assert (lo <= lo + (hi - lo) / 2 < hi)%nat as Hmid.
    { split; [lia|].
      assert ((hi - lo) / 2 < hi - lo)%nat by (apply Nat.div_lt; lia). lia. }
    remember (lo + (hi - lo) / 2)%nat as mid eqn:Emid. clear Emid. cbv zeta.
    destruct (Qltb (nth mid arr 0) key) eqn:Hcmp.
    + apply Qltb_lt in Hcmp.
      destruct (IH (S mid) hi) as (Hr & Hbelow & Habove); try lia; try assumption.
      * intros j Hj. destruct (decide (j < lo)%nat) as [Hjl|Hjl]; [auto|].
        assert (nth j arr 0 <= nth mid arr 0) by (apply (ascending_nth _ Hasc); lia). lra.
      * repeat split; try assumption; lia.
    + apply Qltb_ge in Hcmp.
      destruct (IH lo mid) as (Hr & Hbelow & Habove); try lia; try assumption.
      * intros j Hj. destruct (decide (hi <= j)%nat) as [Hjh|Hjh]; [apply Hhi; lia|].
        assert (nth mid arr 0 <= nth j arr 0) by (apply (ascending_nth _ Hasc); lia). lra.
      * repeat split; try assumption; lia.
  - assert (lo = hi) as -> by lia. repeat split; try assumption; lia.
Qed.

(** On an ascending array [searchsorted] returns the insertion point:
    the entries before it are below [key], the others are not. *)
Lemma searchsorted_spec (arr : list Q) (key : Q) :
  ascending arr ->
  let r := searchsorted arr key in
  (r <= length arr)%nat /\
  (forall j, (j < r)%nat -> nth j arr 0 < key) /\
  (forall j, (r <= j < length arr)%nat -> key <= nth j arr 0).
Proof.
  intros Hasc. unfold searchsorted.
  destruct (bisect_left_spec arr key Hasc (S (length arr)) 0 (length arr))
    as (Hr & Hbelow & Habove); [lia | lia | intros j Hj; lia | intros j Hj; lia |].
  repeat split; try assumption; lia.
Qed.

Lemma bisect_left_range (arr : list Q) (key : Q) (fuel : nat) :
  forall lo hi : nat, (lo <= hi)%nat ->
  (lo <= bisect_left fuel arr key lo hi <= hi)%nat.
Proof.
  induction fuel as [|fuel IH]; intros lo hi Hle; [simpl; lia|].
  cbn [bisect_left].
  destruct (Nat.ltb_spec lo hi) as [Hlt|]; [|lia].
  assert (lo <= lo + (hi - lo) / 2 < hi)%nat as Hmid.
  { pose proof (Nat.Div0.div_lt_upper_bound (hi - lo) 2 (hi - lo) ltac:(lia)). lia. }
  remember (lo + (hi - lo) / 2)%nat as mid eqn:Emid. clear Emid.
  destruct (Qltb (nth mid arr 0) key).
  - specialize (IH (S mid) hi ltac:(lia)). lia.
  - specialize (IH lo mid ltac:(lia)). lia.
Qed.

(* ===================================================================== *)
(** * Quantiles *)
(* ===================================================================== *)

(** The quantile of order 1 is not below any entry of the column. *)
Lemma quantile_one_max (l : list Q) (thr x : Q) :
  quantile 1 l = Ok thr -> x ∈ l -> x <= thr.
Proof.
  unfold quantile. change (Qltb 1 0 || Qltb 1 1) with false. cbv iota.
  destruct l as [|x0 l0] eqn:El; [discriminate|]. rewrite <- El. cbv zeta.
  assert (length l = S (length l0)) as Hlen by (subst l; reflexivity).
  set (v := sort_values (fun x => x) l).
  assert (length v = length l) as Hv by (apply Permutation_length, sort_values_perm).
  assert (1 * Qnat (length l - 1) == inject_Z (Z.of_nat (length l - 1))) as Hpos
    by (unfold Qnat; ring).
  rewrite (Qfloor_comp _ _ Hpos), (Qceiling_comp _ _ Hpos), Qfloor_Z, Qceiling_Z, Nat2Z.id.
  intros [= <-] Hx.
  assert (x ∈ v) as Hxv by (subst v; rewrite sort_values_perm; exact Hx).
  apply list_elem_of_In, (In_nth _ _ 0) in Hxv as (j & Hj & <-).
  assert (ascending v) as Hasc by (subst v; apply (sort_values_sorted (fun x => x))).
  pose proof (ascending_nth v Hasc j (length l - 1) ltac:(lia)) as Hle.
  set (a := nth (length l - 1) v 0) in *. nra.
Qed.

(** The quantile of a column whose entries are all equal is that value. *)
Lemma quantile_flat (q c : Q) (l : list Q) (thr : Q) :
  Forall (fun x => x == c) l -> quantile q l = Ok thr -> thr == c.
Proof.
  intros Hall. unfold quantile.
  destruct (Qltb q 0 || Qltb 1 q) eqn:Hq; [discriminate|].
  apply orb_false_iff in Hq as [Hq0 Hq1]. apply Qltb_ge in Hq0, Hq1.
  destruct l as [|x0 l0] eqn:El; [discriminate|]. rewrite <- El in *. cbv zeta.
  assert (length l = S (length l0)) as Hlen by (subst l; reflexivity).
  set (v := sort_values (fun x => x) l).
  assert (length v = length l) as Hv by (apply Permutation_length, sort_values_perm).
  assert (forall j, (j < length l)%nat -> nth j v 0 == c) as Hflat.
  { intros j Hj. rewrite Forall_forall in Hall. apply Hall.
    rewrite <- (sort_values_perm (fun x => x) l). apply list_elem_of_In, nth_In.
    change (j < length v)%nat. lia. }
  set (pos := q * Qnat (length l - 1)).
  assert (0 <= pos <= Qnat (length l - 1)) as Hpos.
  { subst pos. pose proof (Qnat_nonneg (length l - 1)) as HN.
    set (N := Qnat (length l - 1)) in *. split.
    - apply Qmult_le_0_compat; assumption.
    - assert (0 <= (1 - q) * N) as Hm by (apply Qmult_le_0_compat; [lra | assumption]).
      assert ((1 - q) * N == N - q * N) as E by ring. rewrite E in Hm. lra. }
  assert (Z.to_nat (Qfloor pos) < length l)%nat as Hlo.
  { assert (Qfloor pos <= Z.of_nat (length l - 1))%Z.
    { rewrite <- (Qfloor_Z (Z.of_nat (length l - 1))). apply Qfloor_resp_le, Hpos. }
    lia. }
  assert (Z.to_nat (Qceiling pos) < length l)%nat as Hhi.
  { assert (Qceiling pos <= Z.of_nat (length l - 1))%Z.
    { rewrite <- (Qceiling_Z (Z.of_nat (length l - 1))). apply Qceiling_resp_le, Hpos. }
    lia. }
  remember (Z.to_nat (Qfloor pos)) as lo eqn:Elo. remember (Z.to_nat (Qceiling pos)) as hi eqn:Ehi.
  clear Elo Ehi. clearbody pos.
  intros [= <-]. rewrite (Hflat _ Hlo), (Hflat _ Hhi). ring.
Qed.

(* ===================================================================== *)
(** * The correction loop of recallibrate *)
(* ===================================================================== *)

Lemma bin_mask_spec (lo hi : Q) (p : Peak) :
  bin_mask lo hi p = true <-> lo < mass p /\ mass p <= hi.
Proof.
  unfold bin_mask. rewrite andb_true_iff, Qltb_lt, Qleb_le. reflexivity.
Qed.

Lemma correct_row_lookup (ppm : Q) (tbl : list Peak) (ind k : nat) :
  correct_row ppm tbl ind !! k
  = if decide (k = ind) then corrected ppm <$> tbl !! k else tbl !! k.
Proof.
  unfold correct_row. destruct (tbl !! ind) as [p|] eqn:E.
  - case_decide as Hk.
    + subst k. rewrite E. simpl.
      rewrite list_lookup_insert_eq; [reflexivity | eauto using lookup_lt_Some].
    + rewrite list_lookup_insert_ne by congruence. reflexivity.
  - case_decide as Hk; [subst k; rewrite E |]; reflexivity.
Qed.

Lemma correct_rows_lookup (ppm : Q) (idxs : list nat) :
  NoDup idxs -> forall (tbl : list Peak) (k : nat),
  fold_left (correct_row ppm) idxs tbl !! k
  = if decide (k ∈ idxs) then corrected ppm <$> tbl !! k else tbl !! k.
Proof.
  induction 1 as [|ind idxs Hnotin Hnd IH]; intros tbl k; cbn [fold_left].
  - case_decide as Hin; [inversion Hin | reflexivity].
  - rewrite IH, !correct_row_lookup.
    destruct (decide (k = ind)) as [->|Hne].
    + rewrite decide_False by assumption.
      rewrite decide_True by (left). reflexivity.
    + destruct (decide (k ∈ idxs)) as [Hin|Hin].
      * rewrite decide_True by (by right). reflexivity.
      * rewrite decide_False; [reflexivity |].
        intros [->|?]%elem_of_cons; contradiction.
Qed.

Lemma bin_index_NoDup (lo hi : Q) (tbl : list Peak) : NoDup (bin_index lo hi tbl).
Proof.
  unfold bin_index. apply NoDup_ListNoDup, List.NoDup_filter, List.seq_NoDup.
Qed.

Lemma bin_index_elem (lo hi : Q) (tbl : list Peak) (k : nat) :
  k ∈ bin_index lo hi tbl <-> exists p, tbl !! k = Some p /\ bin_mask lo hi p = true.
Proof.
  unfold bin_index. rewrite list_elem_of_In, List.filter_In, List.in_seq.
  split.
  - intros [_ Hk]. destruct (tbl !! k) as [p|]; [eauto | discriminate].
  - intros (p & Hp & Hm). rewrite Hp. split; [|assumption].
    apply lookup_lt_Some in Hp. lia.
Qed.

Lemma recal_loop_unfold err tbl :
  recal_loop err tbl = fold_left (correct_bin (bin_edges err) err) (seq 0 (length err)) tbl.
Proof. reflexivity. Qed.

(** One bin: every row the mask selects is corrected, once, in place. *)
Lemma correct_bin_map (a : list Q) (err : list CurvePoint) (tbl : list Peak) (i : nat) :
  correct_bin a err tbl i
  = map (fun p => if bin_mask (nth i a 0) (nth (S i) a 0) p
                  then corrected (match err !! i with Some r => cppm r | None => 0 end) p
                  else p) tbl.
Proof.
  unfold correct_bin. apply list_eq. intros k.
  rewrite correct_rows_lookup by apply bin_index_NoDup.
  rewrite list_lookup_map.
  destruct (tbl !! k) as [p|] eqn:Hp; simpl.
  - destruct (bin_mask _ _ p) eqn:Hm.
    + rewrite decide_True; [reflexivity |]. apply bin_index_elem. eauto.
    + rewrite decide_False; [reflexivity |].
      intros (q & Hq & Hq')%bin_index_elem. congruence.
  - case_decide; reflexivity.
Qed.

#[local]
Instance same_but_mass_refl : Reflexive same_but_mass.
Proof. intros p. repeat split. Qed.

#[local]
Instance same_but_mass_trans : Transitive same_but_mass.
Proof.
  intros p q r (H1 & H2 & H3) (H4 & H5 & H6).
  repeat split; congruence.
Qed.

Lemma correct_bin_frame a err tbl i :
  Forall2 same_but_mass tbl (correct_bin a err tbl i).
Proof.
  rewrite correct_bin_map. induction tbl as [|p tbl IH]; simpl; constructor; auto.
  destruct (bin_mask _ _ p); repeat split.
Qed.

Lemma recal_loop_frame err tbl :
  Forall2 same_but_mass tbl (recal_loop err tbl).
Proof.
  rewrite recal_loop_unfold. generalize (seq 0 (length err)) as bins.
  intros bins. revert tbl.
  induction bins as [|i bins IH]; intros tbl; simpl.
  - reflexivity.
  - etransitivity; [apply correct_bin_frame | apply IH].
Qed.

(** The bins of [recallibrate] lie inside [min .. max] of the masses of
    the error table. *)
Lemma bin_edges_bounds (err : list CurvePoint) (m0 m1 : Q) (i : nat) :
  col_min (map cmass err) = Some m0 -> col_max (map cmass err) = Some m1 ->
  (i <= length err)%nat ->
  m0 <= nth i (bin_edges err) 0 <= m1.
Proof.
  intros Hmin Hmax Hi. unfold bin_edges. rewrite Hmin, Hmax.
  assert (1 <= length err)%nat as Hlen.
  { destruct err; [discriminate | simpl; lia]. }
  rewrite Nat.add_1_r. apply linspace_bounds; [exact Hlen | exact Hi |].
  apply col_min_spec in Hmin as [Hin Hle]. apply col_max_spec in Hmax as [_ Hge].
  apply Hge, Hin.
Qed.

Lemma bin_edges_monotone (err : list CurvePoint) (i j : nat) :
  (j <= i <= length err)%nat ->
  nth j (bin_edges err) 0 <= nth i (bin_edges err) 0.
Proof.
  intros Hij. unfold bin_edges.
  destruct (col_min (map cmass err)) as [m0|] eqn:Hmin;
    [|destruct err; [destruct i, j; simpl; lra | discriminate]].
  destruct (col_max (map cmass err)) as [m1|] eqn:Hmax;
    [|destruct err; discriminate].
  assert (1 <= length err)%nat as Hlen by (destruct err; [discriminate | simpl; lia]).
  rewrite Nat.add_1_r. apply linspace_monotone; [exact Hlen | exact Hij |].
  apply col_min_spec in Hmin as [Hin Hle]. apply col_max_spec in Hmax as [_ Hge].
  apply Hge, Hin.
Qed.

(** Bin coverage, outside the range: a peak whose mass is at most the
    least mass of the error table, or above its greatest mass, keeps its
    row. *)
Theorem recal_loop_outside_range (err : list CurvePoint) (tbl : list Peak)
    (m0 m1 : Q) (k : nat) (p : Peak) :
  col_min (map cmass err) = Some m0 -> col_max (map cmass err) = Some m1 ->
  tbl !! k = Some p -> mass p <= m0 \/ m1 < mass p ->
  recal_loop err tbl !! k = Some p.
Proof.
  intros Hmin Hmax Hk Hout. rewrite recal_loop_unfold.
  assert (forall i, In i (seq 0 (length err)) -> (i < length err)%nat) as Hbins
    by (intros i Hi%in_seq; lia).
  revert tbl Hk Hbins. generalize (seq 0 (length err)) as bins.
  induction bins as [|i bins IH]; intros tbl Hk Hbins; simpl; [exact Hk|].
  apply IH; [|intros j Hj; apply Hbins; right; exact Hj].
  rewrite correct_bin_map, list_lookup_map, Hk. simpl.
  assert (i < length err)%nat as Hi by (apply Hbins; left; reflexivity).
  pose proof (bin_edges_bounds err m0 m1 i Hmin Hmax ltac:(lia)) as Hlo.
  pose proof (bin_edges_bounds err m0 m1 (S i) Hmin Hmax ltac:(lia)) as Hhi.
  destruct (bin_mask _ _ p) eqn:Hm; [|reflexivity].
  apply bin_mask_spec in Hm. lra.
Qed.

Lemma recal_loop_outside_range_witness :
  recal_loop [mkPoint 100 5; mkPoint 200 (-5)]
    [mkPeak 100 10 false None; mkPeak 100.01 5 false None; mkPeak 200.005 8 false None]
    !! 2%nat
  = Some (mkPeak 200.005 8 false None).
Proof.
  apply (recal_loop_outside_range _ _ 100 200); [reflexivity | reflexivity | reflexivity |].
  right. reflexivity.
Defined.

(** Bin coverage, inside the range: when the loop reaches the bin [i] of
    a peak, the peak still has its mass, and bin [i] writes
    [mass + mass * ppm[i] / 1000000]. *)
Theorem recal_loop_own_bin (err : list CurvePoint) (tbl : list Peak)
    (i k : nat) (p : Peak) (r : CurvePoint) :
  err !! i = Some r -> tbl !! k = Some p ->
  nth i (bin_edges err) 0 < mass p <= nth (S i) (bin_edges err) 0 ->
  fold_left (correct_bin (bin_edges err) err) (seq 0 i) tbl !! k = Some p /\
  fold_left (correct_bin (bin_edges err) err) (seq 0 (S i)) tbl !! k
  = Some (corrected (cppm r) p).
Proof.
  intros Hr Hk Hbin.
  assert (i < length err)%nat as Hi by (eapply lookup_lt_Some; exact Hr).
  assert (forall n, (n <= i)%nat ->
            fold_left (correct_bin (bin_edges err) err) (seq 0 n) tbl !! k = Some p) as Hbefore.
  { induction n as [|n IH]; intros Hn; [exact Hk|].
    rewrite seq_S, fold_left_app. cbn [fold_left Nat.add].
    rewrite correct_bin_map, list_lookup_map, IH by lia. simpl.
    destruct (bin_mask _ _ p) eqn:Hm; [|reflexivity].
    apply bin_mask_spec in Hm.
    pose proof (bin_edges_monotone err i (S n) ltac:(lia)). lra. }
  split; [apply Hbefore; lia|].
  rewrite seq_S, fold_left_app. cbn [fold_left Nat.add].
  rewrite correct_bin_map, list_lookup_map, Hbefore by lia. simpl. rewrite Hr.
  destruct (bin_mask _ _ p) eqn:Hm; [reflexivity|].
  exfalso. assert (bin_mask (nth i (bin_edges err) 0) (nth (S i) (bin_edges err) 0) p = true)
    by (apply bin_mask_spec; exact Hbin). congruence.
Qed.

Lemma recal_loop_own_bin_witness :
  fold_left (correct_bin (bin_edges [mkPoint 100 5; mkPoint 200 (-5)])
                         [mkPoint 100 5; mkPoint 200 (-5)])
            (seq 0 1) [mkPeak 149.9999 1 false None] !! 0%nat
  = Some (corrected 5 (mkPeak 149.9999 1 false None)).
Proof.
  apply (recal_loop_own_bin [mkPoint 100 5; mkPoint 200 (-5)] [mkPeak 149.9999 1 false None]
           0 0 (mkPeak 149.9999 1 false None) (mkPoint 100 5) eq_refl eq_refl).
  split; vm_compute; [reflexivity | discriminate].
Defined.

Lemma correct_bins_skip (a : list Q) (err : list CurvePoint) (bins : list nat) :
  forall (tbl : list Peak) (k : nat),
  (forall p j, tbl !! k = Some p -> j ∈ bins ->
               bin_mask (nth j a 0) (nth (S j) a 0) p = false) ->
  fold_left (correct_bin a err) bins tbl !! k = tbl !! k.
Proof.
  induction bins as [|i bins IH]; intros tbl k Hout; [reflexivity|].
  cbn [fold_left].
  assert (correct_bin a err tbl i !! k = tbl !! k) as Hstep.
  { rewrite correct_bin_map, list_lookup_map.
    destruct (tbl !! k) as [p|] eqn:Hk; [|reflexivity]. simpl.
    rewrite (Hout p i eq_refl) by left. reflexivity. }
  rewrite IH; [exact Hstep|].
  intros p j Hp Hj. rewrite Hstep in Hp. apply Hout; [exact Hp | right; exact Hj].
Qed.

Lemma correct_bin_hit (a : list Q) (err : list CurvePoint) (tbl : list Peak)
    (i k : nat) (p : Peak) (r : CurvePoint) :
  err !! i = Some r -> tbl !! k = Some p ->
  nth i a 0 < mass p <= nth (S i) a 0 ->
  correct_bin a err tbl i !! k = Some (corrected (cppm r) p).
Proof.
  intros Hr Hk Hbin. rewrite correct_bin_map, list_lookup_map, Hk, Hr. simpl.
  apply bin_mask_spec in Hbin. rewrite Hbin. reflexivity.
Qed.

Lemma bin_mask_below (lo hi : Q) (p : Peak) : mass p <= lo -> bin_mask lo hi p = false.
Proof.
  intros Hle. destruct (bin_mask lo hi p) eqn:E; [|reflexivity].
  apply bin_mask_spec in E. lra.
Qed.

Lemma bin_mask_above (lo hi : Q) (p : Peak) : hi < mass p -> bin_mask lo hi p = false.
Proof.
  intros Hlt. destruct (bin_mask lo hi p) eqn:E; [|reflexivity].
  apply bin_mask_spec in E. lra.
Qed.

(** The bins before the one a row lies in, and the bins after a bin the
    row came to rest in, pass it by. *)
Lemma bins_before_skip (err : list CurvePoint) (i : nat) (p : Peak) :
  (i < length err)%nat -> nth i (bin_edges err) 0 < mass p ->
  forall j, j ∈ seq 0 i ->
            bin_mask (nth j (bin_edges err) 0) (nth (S j) (bin_edges err) 0) p = false.
Proof.
  intros Hi Hlt j Hj. apply elem_of_seq in Hj.
  apply bin_mask_above.
  pose proof (bin_edges_monotone err i (S j) ltac:(lia)). lra.
Qed.

Lemma bins_after_skip (err : list CurvePoint) (i : nat) (p : Peak) :
  mass p <= nth i (bin_edges err) 0 \/ nth (length err) (bin_edges err) 0 < mass p ->
  forall j, j ∈ seq i (length err - i) ->
            bin_mask (nth j (bin_edges err) 0) (nth (S j) (bin_edges err) 0) p = false.
Proof.
  intros Hrest j Hj. apply elem_of_seq in Hj. destruct Hrest as [Hle | Hgt].
  - apply bin_mask_below.
    pose proof (bin_edges_monotone err j i ltac:(lia)). lra.
  - apply bin_mask_above.
    pose proof (bin_edges_monotone err (length err) (S j) ltac:(lia)). lra.
Qed.

Lemma seq_split3 (i n : nat) :
  (i < n)%nat -> seq 0 n = seq 0 i ++ i :: seq (S i) (n - S i).
Proof.
  intros Hi. replace n with (i + S (n - S i))%nat at 1 by lia.
  rewrite seq_app. reflexivity.
Qed.

(** A peak that its correction does not carry over the upper edge of its
    bin (or carries beyond the last edge) is corrected exactly once. *)
Theorem recal_loop_corrects_once (err : list CurvePoint) (tbl : list Peak)
    (i k : nat) (p : Peak) (r : CurvePoint) :
  err !! i = Some r -> tbl !! k = Some p ->
  nth i (bin_edges err) 0 < mass p <= nth (S i) (bin_edges err) 0 ->
  mass (corrected (cppm r) p) <= nth (S i) (bin_edges err) 0
  \/ nth (length err) (bin_edges err) 0 < mass (corrected (cppm r) p) ->
  recal_loop err tbl !! k = Some (corrected (cppm r) p).
Proof.
  intros Hr Hk Hbin Hrest.
  assert (i < length err)%nat as Hi by (eapply lookup_lt_Some; exact Hr).
  rewrite recal_loop_unfold, (seq_split3 i (length err) Hi), fold_left_app.
  cbn [fold_left].
  set (tbl1 := fold_left (correct_bin (bin_edges err) err) (seq 0 i) tbl).
  assert (tbl1 !! k = Some p) as Hk1.
  { subst tbl1. rewrite correct_bins_skip; [exact Hk|].
    intros q j Hq Hj. assert (q = p) as -> by congruence.
    apply (bins_before_skip err i p Hi); [apply Hbin | exact Hj]. }
  pose proof (correct_bin_hit (bin_edges err) err tbl1 i k p r Hr Hk1 Hbin) as Hk2.
  rewrite correct_bins_skip; [exact Hk2|].
  intros q j Hq Hj. assert (q = corrected (cppm r) p) as -> by congruence.
  apply (bins_after_skip err (S i)); [exact Hrest|].
  exact Hj.
Qed.

Lemma recal_loop_corrects_once_witness :
  recal_loop [mkPoint 100 5; mkPoint 200 (-5)]
    [mkPeak 100 10 false None; mkPeak 100.01 5 false None; mkPeak 200.005 8 false None]
    !! 1%nat
  = Some (corrected 5 (mkPeak 100.01 5 false None)).
Proof.
  apply (recal_loop_corrects_once [mkPoint 100 5; mkPoint 200 (-5)]
           [mkPeak 100 10 false None; mkPeak 100.01 5 false None; mkPeak 200.005 8 false None]
           0 1 (mkPeak 100.01 5 false None) (mkPoint 100 5) eq_refl eq_refl).
  - split; vm_compute; [reflexivity | discriminate].
  - left. vm_compute. discriminate.
Defined.

(** A peak that its correction carries over the upper edge of its bin
    into the next bin is corrected a second time there, by the error of
    that next bin. *)
Theorem recal_loop_crossing_peak (err : list CurvePoint) (tbl : list Peak)
    (i k : nat) (p : Peak) (r r' : CurvePoint) :
  err !! i = Some r -> err !! S i = Some r' -> tbl !! k = Some p ->
  nth i (bin_edges err) 0 < mass p <= nth (S i) (bin_edges err) 0 ->
  nth (S i) (bin_edges err) 0 < mass (corrected (cppm r) p)
    <= nth (S (S i)) (bin_edges err) 0 ->
  mass (corrected (cppm r') (corrected (cppm r) p)) <= nth (S (S i)) (bin_edges err) 0
  \/ nth (length err) (bin_edges err) 0 < mass (corrected (cppm r') (corrected (cppm r) p)) ->
  recal_loop err tbl !! k = Some (corrected (cppm r') (corrected (cppm r) p)).
Proof.
  intros Hr Hr' Hk Hbin Hbin' Hrest.
  assert (S i < length err)%nat as Hi by (eapply lookup_lt_Some; exact Hr').
  rewrite recal_loop_unfold, (seq_split3 i (length err) ltac:(lia)), fold_left_app.
  cbn [fold_left].
  set (tbl1 := fold_left (correct_bin (bin_edges err) err) (seq 0 i) tbl).
  assert (tbl1 !! k = Some p) as Hk1.
  { subst tbl1. rewrite correct_bins_skip; [exact Hk|].
    intros q j Hq Hj. assert (q = p) as -> by congruence.
    apply (bins_before_skip err i p ltac:(lia)); [apply Hbin | exact Hj]. }
  pose proof (correct_bin_hit (bin_edges err) err tbl1 i k p r Hr Hk1 Hbin) as Hk2.
  set (tbl2 := correct_bin (bin_edges err) err tbl1 i) in *.
  replace (length err - S i)%nat with (S (length err - S (S i))) by lia.
  cbn [seq fold_left].
  pose proof (correct_bin_hit (bin_edges err) err tbl2 (S i) k _ r' Hr' Hk2 Hbin') as Hk3.
  rewrite correct_bins_skip; [exact Hk3|].
  intros q j Hq Hj.
  assert (q = corrected (cppm r') (corrected (cppm r) p)) as -> by congruence.
  apply (bins_after_skip err (S (S i))); [exact Hrest | exact Hj].
Qed.

Lemma recal_loop_crossing_peak_witness :
  recal_loop [mkPoint 100 5; mkPoint 200 (-5)] [mkPeak 149.9999 1 false None] !! 0%nat
  = Some (corrected (-5) (corrected 5 (mkPeak 149.9999 1 false None))).
Proof.
  apply (recal_loop_crossing_peak [mkPoint 100 5; mkPoint 200 (-5)]
           [mkPeak 149.9999 1 false None] 0 0
           (mkPeak 149.9999 1 false None) (mkPoint 100 5) (mkPoint 200 (-5))
           eq_refl eq_refl eq_refl).
  - split; vm_compute; [reflexivity | discriminate].
  - split; vm_compute; [reflexivity | discriminate].
  - left. vm_compute. discriminate.
Defined.

Lemma bin_edges_first (err : list CurvePoint) (m0 m1 : Q) :
  col_min (map cmass err) = Some m0 -> col_max (map cmass err) = Some m1 ->
  nth 0 (bin_edges err) 0 == m0.
Proof.
  intros Hmin Hmax. unfold bin_edges. rewrite Hmin, Hmax.
  assert (1 <= length err)%nat as Hlen by (destruct err; [discriminate | simpl; lia]).
  rewrite Nat.add_1_r, linspace_nth by lia.
  destruct (Nat.eqb_spec 0 (length err)); [lia|].
  change (Qnat 0) with 0. ring.
Qed.

Lemma bin_edges_last (err : list CurvePoint) (m0 m1 : Q) :
  col_min (map cmass err) = Some m0 -> col_max (map cmass err) = Some m1 ->
  nth (length err) (bin_edges err) 0 = m1.
Proof.
  intros Hmin Hmax. unfold bin_edges. rewrite Hmin, Hmax.
  assert (1 <= length err)%nat as Hlen by (destruct err; [discriminate | simpl; lia]).
  rewrite Nat.add_1_r, linspace_nth by lia.
  rewrite Nat.eqb_refl. reflexivity.
Qed.

(** The bins cover the range of the error table without overlap: a mass
    above the least and not above the greatest mass of the table lies in
    exactly one bin. *)
Theorem bin_edges_partition (err : list CurvePoint) (m0 m1 m : Q) :
  col_min (map cmass err) = Some m0 -> col_max (map cmass err) = Some m1 ->
  m0 < m <= m1 ->
  length (bin_edges err) = S (length err) /\
  exists i : nat,
    (i < length err)%nat /\
    nth i (bin_edges err) 0 < m <= nth (S i) (bin_edges err) 0 /\
    forall j : nat, (j < length err)%nat ->
      nth j (bin_edges err) 0 < m <= nth (S j) (bin_edges err) 0 -> j = i.
Proof.
  intros Hmin Hmax [Hlo Hhi]. split.
  { unfold bin_edges. rewrite Hmin, Hmax, length_linspace. lia. }
  pose proof (bin_edges_first err m0 m1 Hmin Hmax) as H0.
  pose proof (bin_edges_last err m0 m1 Hmin Hmax) as Hlast.
  assert (forall n, (n <= length err)%nat -> m <= nth n (bin_edges err) 0 ->
            exists i, (i < n)%nat /\ nth i (bin_edges err) 0 < m <= nth (S i) (bin_edges err) 0)
    as Hfind.
  { induction n as [|n IH]; intros Hn Hle; [lra|].
    destruct (Qlt_le_dec (nth n (bin_edges err) 0) m) as [Hlt | Hge].
    - exists n. split; [lia | split; assumption].
    - destruct (IH ltac:(lia) Hge) as (i & Hi & Hbin). exists i. split; [lia | exact Hbin]. }
  destruct (Hfind (length err) ltac:(lia) ltac:(rewrite Hlast; exact Hhi)) as (i & Hi & Hbin).
  exists i. split; [exact Hi | split; [exact Hbin|]].
  intros j Hj Hbinj.
  destruct (Nat.lt_trichotomy j i) as [Hlt | [-> | Hgt]]; [exfalso | reflexivity | exfalso].
  - pose proof (bin_edges_monotone err i (S j) ltac:(lia)). lra.
  - pose proof (bin_edges_monotone err j (S i) ltac:(lia)). lra.
Qed.

Lemma bin_edges_partition_witness :
  exists i : nat,
    (i < 2)%nat /\
    nth i (bin_edges [mkPoint 100 5; mkPoint 200 (-5)]) 0 < 150
      <= nth (S i) (bin_edges [mkPoint 100 5; mkPoint 200 (-5)]) 0.
Proof.
  destruct (bin_edges_partition [mkPoint 100 5; mkPoint 200 (-5)] 100 200 150
              eq_refl eq_refl) as (_ & i & Hi & Hbin & _).
  - split; [reflexivity | discriminate].
  - exists i. split; [exact Hi | exact Hbin].
Defined.

(** An error table whose masses are all the same (one row, say), or that
    has no row, has no bin a peak can lie in: every row is left as it
    is. *)
Theorem recal_loop_degenerate (err : list CurvePoint) (tbl : list Peak) (c : Q) :
  Forall (fun r => cmass r == c) err -> recal_loop err tbl = tbl.
Proof.
  intros Hall. rewrite recal_loop_unfold. apply list_eq. intros k.
  apply correct_bins_skip. intros p j _ Hj. apply elem_of_seq in Hj.
  destruct (col_min (map cmass err)) as [m0|] eqn:Hmin;
    [|destruct err; [simpl in Hj; lia | discriminate]].
  destruct (col_max (map cmass err)) as [m1|] eqn:Hmax;
    [|destruct err; discriminate].
  assert (forall x, x ∈ map cmass err -> x == c) as Hc.
  { intros x Hx. apply list_elem_of_In, in_map_iff in Hx as (r & <- & Hr).
    rewrite Forall_forall in Hall. apply Hall, list_elem_of_In. exact Hr. }
  pose proof (col_min_spec _ _ Hmin) as [Hin0 _].
  pose proof (col_max_spec _ _ Hmax) as [Hin1 _].
  apply Hc in Hin0, Hin1.
  pose proof (bin_edges_bounds err m0 m1 j Hmin Hmax ltac:(lia)) as Hj0.
  pose proof (bin_edges_bounds err m0 m1 (S j) Hmin Hmax ltac:(lia)) as Hj1.
  destruct (bin_mask _ _ p) eqn:E; [|reflexivity].
  apply bin_mask_spec in E. lra.
Qed.

Lemma recal_loop_degenerate_witness :
  recal_loop [mkPoint 150 5] [mkPeak 100 10 false None; mkPeak 150 5 false None]
  = [mkPeak 100 10 false None; mkPeak 150 5 false None].
Proof.
  apply (recal_loop_degenerate [mkPoint 150 5]
           [mkPeak 100 10 false None; mkPeak 150 5 false None] 150).
  repeat constructor.
Defined.

(** For an error table whose masses are evenly spaced (the tables
    [fit_kernel] and [extrapolate] build), the row whose ppm is applied
    in bin [i] has its mass inside that bin, ends included. *)
Theorem bin_holds_its_row (err : list CurvePoint) (lo hi : Q) (i : nat) (r : CurvePoint) :
  lo <= hi -> (2 <= length err)%nat ->
  map cmass err = linspace lo hi (length err) ->
  err !! i = Some r ->
  nth i (bin_edges err) 0 <= cmass r <= nth (S i) (bin_edges err) 0.
Proof.
  intros Hle Hlen Hmass Hr.
  assert (i < length err)%nat as Hi by (eapply lookup_lt_Some; exact Hr).
  destruct (length err) as [|d] eqn:Hn; [lia|].
  assert (1 <= d)%nat as Hd by lia.
  destruct (col_min (map cmass err)) as [m0|] eqn:Hmin;
    [|destruct err; discriminate].
  destruct (col_max (map cmass err)) as [m1|] eqn:Hmax;
    [|destruct err; discriminate].
  assert (m0 == lo) as Hm0 by (rewrite Hmass in Hmin; exact (col_min_linspace lo hi d m0 Hd Hle Hmin)).
  assert (m1 == hi) as Hm1 by (rewrite Hmass in Hmax; exact (col_max_linspace lo hi d m1 Hd Hle Hmax)).
  assert (cmass r == Qnat i * ((hi - lo) / Qnat d) + lo) as Hx.
  { rewrite <- (nth_map_lookup cmass err i r Hr), Hmass. apply linspace_nth_eq; lia. }
  unfold bin_edges. rewrite Hmin, Hmax, Hn, Nat.add_1_r.
  rewrite (linspace_nth_eq m0 m1 (S d) i) by lia.
  rewrite (linspace_nth_eq m0 m1 (S d) (S i)) by lia.
  rewrite Hx, Hm0, Hm1, !Qnat_S.
  pose proof (Qnat_pos d Hd) as HD. pose proof (Qnat_nonneg i) as HA.
  assert (Qnat i <= Qnat d) as HAD by (apply Qnat_le; lia).
  set (A := Qnat i) in *. set (D := Qnat d) in *.
  set (u := (hi - lo) / (D * (D + 1))).
  assert (0 <= u) as Hu.
  { subst u. apply Qle_shift_div_l; [nra | lra]. }
  assert ((hi - lo) / (D + 1) == u * D) as -> by (subst u; field; lra).
  assert ((hi - lo) / D == u * (D + 1)) as -> by (subst u; field; lra).
  split; nra.
Qed.

Lemma bin_holds_its_row_witness :
  nth 1 (bin_edges (zip_with mkPoint (linspace 100 200 3) [5; 0; -5])) 0
    <= nth 1 (linspace 100 200 3) 0
    <= nth 2 (bin_edges (zip_with mkPoint (linspace 100 200 3) [5; 0; -5])) 0.
Proof.
  apply (bin_holds_its_row (zip_with mkPoint (linspace 100 200 3) [5; 0; -5]) 100 200 1
           (mkPoint (nth 1 (linspace 100 200 3) 0) 0)).
  - discriminate.
  - simpl. lia.
  - reflexivity.
  - reflexivity.
Defined.

(* ===================================================================== *)
(** * ErrorTable.md_error_map *)
(* ===================================================================== *)

(** What lines 160-162 return on an ascending, non-empty array: an index
    of the array whose entry is as near to [mz] as any. *)
Lemma nearest_index_spec (masses : list Q) (mz : Q) :
  ascending masses -> masses <> [] ->
  let r := nearest_index masses mz in
  (r < length masses)%nat /\
  forall j, (j < length masses)%nat ->
            Qabs (nth r masses 0 - mz) <= Qabs (nth j masses 0 - mz).
Proof.
  intros Hasc Hne.
  assert (0 < length masses)%nat as Hlen by (destruct masses; [congruence | simpl; lia]).
  destruct (searchsorted_spec masses mz Hasc) as (Hr & Hbelow & Habove).
  unfold nearest_index. set (idx := searchsorted masses mz) in *.
  destruct (Nat.ltb_spec 0 idx) as [Hpos|Hzero]; cbn [andb].
  - destruct (Nat.eqb_spec idx (length masses)) as [Hend|Hmid]; cbn [orb].
    + split; [lia|]. intros j Hj.
      assert (nth j masses 0 < mz) by (apply Hbelow; lia).
      assert (nth (idx - 1) masses 0 < mz) by (apply Hbelow; lia).
      assert (nth j masses 0 <= nth (idx - 1) masses 0) by (apply (ascending_nth _ Hasc); lia).
      rewrite !Qabs_minus_nonpos by lra. lra.
    + assert (nth (idx - 1) masses 0 < mz) as Hleft by (apply Hbelow; lia).
      assert (mz <= nth idx masses 0) as Hright by (apply Habove; lia).
      destruct (Qltb _ _) eqn:Hcmp.
      * apply Qltb_lt in Hcmp.
        rewrite (Qabs_minus_nonneg mz (nth (idx - 1) masses 0)),
          (Qabs_minus_nonpos mz (nth idx masses 0)) in Hcmp by lra.
        split; [lia|]. intros j Hj.
        rewrite (Qabs_minus_nonpos (nth (idx - 1) masses 0)) by lra.
        destruct (decide (j < idx)%nat) as [Hjl|Hjl].
        -- assert (nth j masses 0 < mz) by (apply Hbelow; lia).
           assert (nth j masses 0 <= nth (idx - 1) masses 0) by (apply (ascending_nth _ Hasc); lia).
           rewrite Qabs_minus_nonpos by lra. lra.
        -- assert (mz <= nth j masses 0) by (apply Habove; lia).
           assert (nth idx masses 0 <= nth j masses 0) by (apply (ascending_nth _ Hasc); lia).
           rewrite Qabs_minus_nonneg by lra. lra.
      * apply Qltb_ge in Hcmp.
        rewrite (Qabs_minus_nonneg mz (nth (idx - 1) masses 0)),
          (Qabs_minus_nonpos mz (nth idx masses 0)) in Hcmp by lra.
        split; [lia|]. intros j Hj.
        rewrite (Qabs_minus_nonneg (nth idx masses 0)) by lra.
        destruct (decide (j < idx)%nat) as [Hjl|Hjl].
        -- assert (nth j masses 0 < mz) by (apply Hbelow; lia).
           assert (nth j masses 0 <= nth (idx - 1) masses 0) by (apply (ascending_nth _ Hasc); lia).
           rewrite Qabs_minus_nonpos by lra. lra.
        -- assert (mz <= nth j masses 0) by (apply Habove; lia).
           assert (nth idx masses 0 <= nth j masses 0) by (apply (ascending_nth _ Hasc); lia).
           rewrite Qabs_minus_nonneg by lra. lra.
  - assert (idx = 0%nat) as Hidx by lia. rewrite Hidx. split; [lia|]. intros j Hj.
    assert (mz <= nth 0 masses 0) by (apply Habove; lia).
    assert (nth 0 masses 0 <= nth j masses 0) by (apply (ascending_nth _ Hasc); lia).
    rewrite !Qabs_minus_nonneg by lra. lra.
Qed.

(** The tie-break between the two neighbours of the insertion point: the
    left one is taken when it is strictly nearer, the right one
    otherwise. *)
Lemma nearest_index_neighbours (masses : list Q) (mz : Q) :
  let idx := searchsorted masses mz in
  (0 < idx < length masses)%nat ->
  (Qabs (mz - nth (idx - 1) masses 0) < Qabs (mz - nth idx masses 0) ->
   nearest_index masses mz = (idx - 1)%nat) /\
  (Qabs (mz - nth idx masses 0) <= Qabs (mz - nth (idx - 1) masses 0) ->
   nearest_index masses mz = idx).
Proof.
  intros idx Hidx. unfold nearest_index. fold idx.
  destruct (Nat.ltb_spec 0 idx) as [_|]; [|lia].
  destruct (Nat.eqb_spec idx (length masses)) as [|_]; [lia|]. cbn [andb orb].
  split; intros Hcmp.
  - apply Qltb_lt in Hcmp. rewrite Hcmp. reflexivity.
  - apply Qltb_ge in Hcmp. rewrite Hcmp. reflexivity.
Qed.

(** Whatever the order of the observed masses, the index the matcher
    settles on is an index of the array: [masses[idx]] is always
    defined. *)
Theorem nearest_index_in_range (masses : list Q) (mz : Q) :
  masses <> [] -> (nearest_index masses mz < length masses)%nat.
Proof.
  intros Hne. unfold nearest_index, searchsorted.
  pose proof (bisect_left_range masses mz (S (length masses)) 0 (length masses) ltac:(lia))
    as Hr.
  set (idx := bisect_left (S (length masses)) masses mz 0 (length masses)) in *.
  assert (0 < length masses)%nat by (destruct masses; [congruence | simpl; lia]).
  destruct (Nat.ltb_spec 0 idx) as [Hpos|Hzero]; cbn [andb]; [|lia].
  destruct (Nat.eqb_spec idx (length masses)) as [Heq|Hneq]; cbn [orb]; [lia|].
  destruct (Qltb _ _); lia.
Qed.

Lemma nearest_index_in_range_witness :
  (nearest_index [300; 100; 200]%Q 1000 < 3)%nat.
Proof.
  apply (nearest_index_in_range [300; 100; 200] 1000). discriminate.
Defined.

(** Lines 146-149: at most 1000 rows, and none of the rows left out is
    more intense than a row kept. *)
Lemma md_candidates_spec (tbl : list Peak) :
  (length (md_candidates tbl) <= 1000)%nat /\
  exists rest : list Peak,
    tbl ≡ₚ md_candidates tbl ++ rest /\
    forall c r : Peak, c ∈ md_candidates tbl -> r ∈ rest -> intensity r <= intensity c.
Proof.
  unfold md_candidates.
  set (data := sort_values_desc intensity tbl).
  assert ((if (1000 <? length data)%nat then take 1000 data else data) = take 1000 data) as ->.
  { destruct (Nat.ltb_spec 1000 (length data)); [reflexivity|]. symmetry. apply take_ge. lia. }
  split.
  - rewrite (Permutation_length (sort_values_perm mass (take 1000 data))).
    rewrite length_take. lia.
  - exists (drop 1000 data). split.
    + rewrite sort_values_perm, take_drop. symmetry. apply sort_values_desc_perm.
    + intros c r Hc Hr. rewrite sort_values_perm in Hc.
      pose proof (sort_values_desc_sorted intensity tbl) as Hs. fold data in Hs.
      rewrite <- (take_drop 1000 data) in Hs.
      exact (StronglySorted_app_1_elem_of _ _ _ _ _ Hs Hc Hr).
Qed.

(** Lines 146-149 keep [min(1000, n)] rows, and leave them in ascending
    order of mass. *)
Lemma md_candidates_length (tbl : list Peak) :
  length (md_candidates tbl) = Nat.min 1000 (length tbl).
Proof.
  unfold md_candidates.
  rewrite (Permutation_length (sort_values_perm _ _)).
  pose proof (Permutation_length (sort_values_desc_perm intensity tbl)) as Hlen.
  destruct (Nat.ltb_spec 1000 (length (sort_values_desc intensity tbl))).
  - rewrite length_take. lia.
  - lia.
Qed.

Lemma md_candidates_sorted (tbl : list Peak) :
  StronglySorted (fun x y => mass x <= mass y) (md_candidates tbl).
Proof. unfold md_candidates. apply sort_values_sorted. Qed.

Lemma md_emit_elem (masses : list Q) (ppm m d : Q) (pt : CurvePoint) :
  pt ∈ md_emit masses ppm m d <->
  pt = mkPoint m ((nth (nearest_index masses (m + d)) masses 0 - (m + d)) / (m + d) * 1000000)
  /\ Qabs (nth (nearest_index masses (m + d)) masses 0 - (m + d)) / (m + d) * 1000000 <= ppm.
Proof.
  unfold md_emit. cbv zeta. destruct (Qleb _ ppm) eqn:Hle.
  - apply Qleb_le in Hle. rewrite list_elem_of_singleton. tauto.
  - apply Qleb_gt in Hle. split; [intros Hin; inversion Hin | intros [_ Hle']; lra].
Qed.

Section Matcher.
Context `{Collaborators}.

Lemma md_step_fold (masses : list Q) (ppm m : Q) (dif : list Q) :
  forall acc : list CurvePoint,
  fold_left (md_step masses ppm m) dif acc
  = acc ++ flat_map (fun d => if within_ppm (nth (nearest_index masses (m + d)) masses 0) (m + d) ppm
                              then [mkPoint m ((nth (nearest_index masses (m + d)) masses 0 - (m + d))
                                               / (m + d) * 1000000)]
                              else []) dif.
Proof.
  induction dif as [|d dif IH]; intros acc; simpl.
  - rewrite app_nil_r. reflexivity.
  - rewrite IH. unfold md_step. cbv zeta.
    destruct (within_ppm _ _ _); [rewrite <- app_assoc|]; reflexivity.
Qed.

Lemma md_rows_fold (masses : list Q) (ppm : Q) (dif : list Q) (data : list Peak) :
  forall acc : list CurvePoint,
  fold_left (fun data_error row => fold_left (md_step masses ppm (mass row)) dif data_error)
            data acc
  = acc ++ flat_map
             (fun row =>
                flat_map (fun d => if within_ppm (nth (nearest_index masses (mass row + d)) masses 0)
                                                 (mass row + d) ppm
                                   then [mkPoint (mass row)
                                           ((nth (nearest_index masses (mass row + d)) masses 0
                                             - (mass row + d)) / (mass row + d) * 1000000)]
                                   else []) dif)
             data.
Proof.
  induction data as [|row data IH]; intros acc; simpl.
  - rewrite app_nil_r. reflexivity.
  - rewrite IH, md_step_fold, <- app_assoc. reflexivity.
Qed.

(** Line 141: the differences are the multiples 1..9 of the six masses,
    in increasing order, each value once. *)
Lemma dif_set_spec :
  StronglySorted Qlt dif_set /\
  (forall d, d ∈ dif_set ->
     exists (i : nat) (m : Q), (1 <= i <= 9)%nat /\ m ∈ dif_masses /\ d = m * Qnat i) /\
  (forall (i : nat) (m : Q), (1 <= i <= 9)%nat -> m ∈ dif_masses ->
     exists d, d ∈ dif_set /\ d == m * Qnat i).
Proof.
  unfold dif_set.
  set (L := concat (map (fun i => map (fun m => m * Qnat i) dif_masses) (seq 1 9))).
  assert (forall d, d ∈ L <-> exists (i : nat) (m : Q),
             (1 <= i <= 9)%nat /\ m ∈ dif_masses /\ d = m * Qnat i) as HL.
  { intros d. subst L. rewrite list_elem_of_In, in_concat. split.
    - intros (l & Hl & Hd). apply in_map_iff in Hl as (i & <- & Hi).
      apply in_map_iff in Hd as (m & <- & Hm). apply in_seq in Hi.
      exists i, m. rewrite list_elem_of_In. repeat split; [lia | lia | assumption].
    - intros (i & m & Hi & Hm & ->). exists (map (fun m => m * Qnat i) dif_masses). split.
      + apply in_map_iff. exists i. split; [reflexivity|]. apply in_seq. lia.
      + apply in_map_iff. exists m. split; [reflexivity|]. apply list_elem_of_In. assumption. }
  destruct (np_unique_spec L) as (Hs & Hin & Hcov).
  split; [assumption | split].
  - intros d Hd. apply HL, Hin, Hd.
  - intros i m Hi Hm. apply Hcov, HL. eauto.
Qed.

(** C2. The mass-difference matcher visits the [min(1000, n)] most
    intense rows, in ascending order of mass, and every difference of
    the deduplicated set; for [mz = m + d] it takes, by binary search in
    the ascending array of observed masses, an observed mass nearest to
    [mz] (of the two neighbours of the insertion point the left one only
    when strictly nearer); it appends [(m, (found - mz) / mz * 1e6)]
    exactly when [|found - mz| / mz * 1e6 <= ppm], and nothing
    otherwise. *)
Theorem md_error_map_matches (spec : Spectrum) (ppm : Q) :
  let masses := map mass (table spec) in
  let candidates := md_candidates (table spec) in
  ascending masses ->
  (forall p, p ∈ table spec -> 0 < mass p) ->
  (forall m, m ∈ dif_masses -> 0 <= m) ->
  (length candidates = Nat.min 1000 (length (table spec)) /\
   StronglySorted (fun x y => mass x <= mass y) candidates /\
   exists rest : list Peak,
     table spec ≡ₚ candidates ++ rest /\
     forall c r : Peak, c ∈ candidates -> r ∈ rest -> intensity r <= intensity c) /\
  (StronglySorted Qlt dif_set /\
   forall d, d ∈ dif_set ->
     exists (i : nat) (m : Q), (1 <= i <= 9)%nat /\ m ∈ dif_masses /\ d = m * Qnat i) /\
  md_error_map spec ppm
  = flat_map (fun row => flat_map (md_emit masses ppm (mass row)) dif_set) candidates /\
  (forall (m d : Q) (pt : CurvePoint),
     let mz := m + d in
     let found := nth (nearest_index masses mz) masses 0 in
     pt ∈ md_emit masses ppm m d <->
     pt = mkPoint m ((found - mz) / mz * 1000000)
     /\ Qabs (found - mz) / mz * 1000000 <= ppm) /\
  (forall (row : Peak) (d : Q), row ∈ candidates -> d ∈ dif_set ->
     let mz := mass row + d in
     let found := nth (nearest_index masses mz) masses 0 in
     found ∈ masses /\ forall x, x ∈ masses -> Qabs (found - mz) <= Qabs (x - mz)) /\
  (forall mz : Q,
     let idx := searchsorted masses mz in
     (0 < idx < length masses)%nat ->
     (Qabs (mz - nth (idx - 1) masses 0) < Qabs (mz - nth idx masses 0) ->
      nearest_index masses mz = (idx - 1)%nat) /\
     (Qabs (mz - nth idx masses 0) <= Qabs (mz - nth (idx - 1) masses 0) ->
      nearest_index masses mz = idx)).
Proof.
  intros masses candidates Hasc Hpos Hdif.
  destruct (md_candidates_spec (table spec)) as (_ & rest & Hperm & Hint).
  destruct dif_set_spec as (Hstrict & Hmult & _).
  assert (forall row, row ∈ candidates -> row ∈ table spec) as Hsub.
  { intros row Hrow. rewrite Hperm. apply elem_of_app. left. exact Hrow. }
  assert (forall d, d ∈ dif_set -> 0 <= d) as Hd0.
  { intros d (i & m & _ & Hm & ->)%Hmult.
    apply Qmult_le_0_compat; [auto | apply Qnat_nonneg]. }
  split.
  { split; [apply md_candidates_length | split; [apply md_candidates_sorted|]].
    exists rest. split; assumption. }
  split; [split; assumption|].
  split; [|split; [|split]].
  - unfold md_error_map. cbv zeta. fold masses. fold candidates.
    rewrite md_rows_fold. cbn [app].
    apply flat_map_ext_elem. intros row Hrow.
    apply flat_map_ext_elem. intros d Hd.
    unfold md_emit, within_ppm. cbv zeta.
    assert (0 < mass row + d) as Hmz.
    { specialize (Hpos row (Hsub row Hrow)). specialize (Hd0 d Hd). lra. }
    destruct (Qeq_bool (mass row + d) 0) eqn:E; [|reflexivity].
    apply Qeq_bool_iff in E. lra.
  - intros m d pt. apply md_emit_elem.
  - intros row d Hrow Hd mz found.
    assert (masses <> []) as Hne.
    { apply Hsub in Hrow. subst masses. destruct (table spec); [inversion Hrow | discriminate]. }
    destruct (nearest_index_spec masses mz Hasc Hne) as (Hr & Hnear).
    split.
    + subst found. apply list_elem_of_In, nth_In. exact Hr.
    + intros x Hx. apply list_elem_of_In in Hx.
      destruct (In_nth _ _ 0 Hx) as (j & Hj & <-). apply Hnear, Hj.
  - intros mz. apply nearest_index_neighbours.
Qed.

End Matcher.

Lemma md_error_map_matches_witness :
  length (md_candidates (table md_demo)) = 4%nat /\
  map mass (md_candidates (table md_demo)) = [100; 114.01565; 128.0313; 200.005] /\
  length (@md_error_map bench md_demo 3) = 3%nat /\
  @md_error_map bench md_demo 3
  = flat_map (fun row => flat_map (md_emit (map mass (table md_demo)) 3 (mass row))
                                  (@dif_set bench))
             (md_candidates (table md_demo)).
Proof.
  assert (ascending (map mass (table md_demo))) as Hasc.
  { unfold ascending. simpl. repeat constructor; unfold Qle; simpl; lia. }
  assert (forall p, p ∈ table md_demo -> 0 < mass p) as Hpos.
  { intros p Hp. apply list_elem_of_In in Hp. simpl in Hp.
    destruct Hp as [<-|[<-|[<-|[<-|[]]]]]; reflexivity. }
  assert (forall m, m ∈ @dif_masses bench -> 0 <= m) as Hdif.
  { intros m Hm. apply list_elem_of_In in Hm. simpl in Hm.
    destruct Hm as [<-|[<-|[<-|[<-|[<-|[<-|[]]]]]]]; discriminate. }
  destruct (@md_error_map_matches bench md_demo 3 Hasc Hpos Hdif)
    as ((Hlen & _) & _ & Hmap & _).
  split; [exact Hlen|].
  split; [vm_compute; reflexivity|].
  split; [vm_compute; reflexivity | exact Hmap].
Defined.

Section MatcherInvariants.
Context `{Collaborators}.

Lemma length_dif_set : (length dif_set <= 9 * length dif_masses)%nat.
Proof.
  unfold dif_set, np_unique.
  etransitivity; [apply length_dedup_sorted|].
  rewrite (Permutation_length (sort_values_perm _ _)).
  simpl. rewrite !length_app, !length_map. simpl. lia.
Qed.

Lemma length_md_candidates (tbl : list Peak) :
  (length (md_candidates tbl) <= Nat.min 1000 (length tbl))%nat.
Proof.
  unfold md_candidates.
  rewrite (Permutation_length (sort_values_perm _ _)).
  pose proof (Permutation_length (sort_values_desc_perm intensity tbl)) as Hlen.
  destruct (Nat.ltb_spec 1000 (length (sort_values_desc intensity tbl))).
  - rewrite length_take. lia.
  - lia.
Qed.

Lemma md_candidates_sub (tbl : list Peak) (row : Peak) :
  row ∈ md_candidates tbl -> row ∈ tbl.
Proof.
  unfold md_candidates. rewrite sort_values_perm.
  intros Hrow. rewrite <- (sort_values_desc_perm intensity tbl).
  destruct (1000 <? length (sort_values_desc intensity tbl))%nat; [|exact Hrow].
  apply elem_of_take in Hrow as (i & Hi & _).
  eapply list_elem_of_lookup_2; exact Hi.
Qed.

(** Every observation of the mass-difference map carries the mass of a
    peak of the spectrum, and an error inside the tolerance. *)
Theorem md_error_map_observations (spec : Spectrum) (ppm : Q) (pt : CurvePoint) :
  (forall p, p ∈ table spec -> 0 < mass p) ->
  (forall m, m ∈ dif_masses -> 0 <= m) ->
  pt ∈ md_error_map spec ppm ->
  (exists p, p ∈ table spec /\ cmass pt = mass p) /\ Qabs (cppm pt) <= ppm.
Proof.
  intros Hpos Hdif Hpt. unfold md_error_map in Hpt. cbv zeta in Hpt.
  rewrite md_rows_fold in Hpt. cbn [app] in Hpt.
  apply list_elem_of_In, in_flat_map in Hpt as (row & Hrow & Hpt).
  apply in_flat_map in Hpt as (d & Hd & Hpt).
  apply list_elem_of_In, md_candidates_sub in Hrow.
  destruct (within_ppm _ _ ppm) eqn:Hw; [|destruct Hpt].
  destruct Hpt as [<-|[]]. cbn [cmass cppm].
  split; [exists row; split; [exact Hrow | reflexivity]|].
  assert (0 < mass row + d) as Hmz.
  { destruct dif_set_spec as (_ & Hmult & _).
    apply list_elem_of_In, Hmult in Hd as (i & m & _ & Hm & ->).
    specialize (Hpos row Hrow). specialize (Hdif m Hm).
    pose proof (Qnat_nonneg i). nra. }
  unfold within_ppm in Hw.
  destruct (Qeq_bool (mass row + d) 0); [discriminate|].
  apply Qleb_le in Hw. rewrite Qabs_ppm by exact Hmz. exact Hw.
Qed.

(** The map holds at most one observation for a candidate peak and a
    difference: no more than [min(1000, rows) * 9 * formulas] in all. *)
Theorem md_error_map_size (spec : Spectrum) (ppm : Q) :
  (length (md_error_map spec ppm)
   <= Nat.min 1000 (length (table spec)) * (9 * length dif_masses))%nat.
Proof.
  unfold md_error_map. cbv zeta. rewrite md_rows_fold. cbn [app].
  etransitivity.
  - apply (length_flat_map_le _ (9 * length dif_masses)). intros row.
    etransitivity; [apply (length_flat_map_le _ 1)|].
    + intros d. destruct (within_ppm _ _ ppm); simpl; lia.
    + pose proof length_dif_set. lia.
  - apply Nat.mul_le_mono_r, length_md_candidates.
Qed.

End MatcherInvariants.

Lemma md_error_map_observations_witness :
  exists pt : CurvePoint, pt ∈ @md_error_map bench md_demo 3 /\ Qabs (cppm pt) <= 3.
Proof.
  assert (forall p, p ∈ table md_demo -> 0 < mass p) as Hpos.
  { intros p Hp. apply list_elem_of_In in Hp. simpl in Hp.
    destruct Hp as [<-|[<-|[<-|[<-|[]]]]]; reflexivity. }
  assert (forall m, m ∈ @dif_masses bench -> 0 <= m) as Hdif.
  { intros m Hm. apply list_elem_of_In in Hm. simpl in Hm.
    destruct Hm as [<-|[<-|[<-|[<-|[<-|[<-|[]]]]]]]; discriminate. }
  destruct (@md_error_map bench md_demo 3) as [|pt rest] eqn:E; [vm_compute in E; discriminate|].
  exists pt. split; [left|].
  apply (@md_error_map_observations bench md_demo 3 pt Hpos Hdif).
  rewrite E. left.
Defined.

(* ===================================================================== *)
(** * ErrorTable.kernel_density_map *)
(* ===================================================================== *)

Lemma rot90_nth (m : list (list Q)) (row : list Q) (rest : list (list Q)) (r : nat) :
  m = row :: rest -> (r < length row)%nat ->
  nth r (rot90 m) [] = map (fun line => nth (length row - S r) line 0) m.
Proof.
  intros -> Hr. unfold rot90, transpose.
  rewrite rev_nth by (rewrite length_map, length_seq; exact Hr).
  rewrite length_map, length_seq. cbv zeta.
  rewrite nth_map_seq by lia. reflexivity.
Qed.

Lemma length_rot90 (m : list (list Q)) (row : list Q) (rest : list (list Q)) :
  m = row :: rest -> length (rot90 m) = length row.
Proof.
  intros ->. unfold rot90, transpose. rewrite length_rev, length_map, length_seq. reflexivity.
Qed.

Lemma rot90_rows (m : list (list Q)) :
  Forall (fun line => length line = length m) (rot90 m).
Proof.
  unfold rot90, transpose. apply Forall_forall. intros line Hin.
  apply list_elem_of_In, in_rev, in_map_iff in Hin as (c & <- & _).
  apply length_map.
Qed.

Section DensityMap.
Context `{Collaborators}.

(** On a scatter that is not empty and on which [gaussian_kde] fits a
    kernel, [kernel_density_map] returns a map of 100 rows of 100
    entries. Its column [c] is at the mass [linspace(xmin, xmax, 100)[c]];
    its row [r] is at a ppm position that runs from [ppm] (row 0) down to
    [-ppm] (row 99), the order of the index [fit_kernel] labels the rows
    with. *)
Theorem kernel_density_map_grid (scatter : list CurvePoint) (ppm : Q)
    (kernel : Q -> Q -> Q) :
  scatter <> [] ->
  gaussian_kde (map cmass scatter) (map cppm scatter) = Ok kernel ->
  exists (kdm : list (list Q)) (xmin xmax : Q),
    kernel_density_map scatter ppm = Ok kdm /\
    col_min (map cmass scatter) = Some xmin /\
    col_max (map cmass scatter) = Some xmax /\
    length kdm = 100%nat /\
    Forall (fun line => length line = 100%nat) kdm /\
    forall r c : nat, (r < 100)%nat -> (c < 100)%nat ->
      exists y : Q,
        nth c (nth r kdm []) 0 = kernel (nth c (linspace xmin xmax 100) 0) y /\
        y = nth (99 - r) (linspace (- ppm) ppm 100) 0 /\
        y == nth r (linspace ppm (- ppm) 100) 0.
Proof.
  intros Hne Hkde.
  destruct (col_min (map cmass scatter)) as [xmin|] eqn:Hmin;
    [|destruct scatter; [congruence | discriminate]].
  destruct (col_max (map cmass scatter)) as [xmax|] eqn:Hmax;
    [|destruct scatter; discriminate].
  set (xx := linspace xmin xmax 100).
  set (yy := linspace (- ppm) ppm 100).
  set (raw := map (fun xi => map (fun yj => kernel xi yj) yy) xx).
  assert (length raw = 100%nat) as Hraw
    by (subst raw xx; rewrite length_map; apply length_linspace).
  assert (exists row rest, raw = row :: rest /\ length row = 100%nat) as (row & rest & Eraw & Hrow).
  { subst raw xx. unfold linspace at 1. cbn [map app].
    eexists _, _. split; [reflexivity|]. subst yy. rewrite length_map. apply length_linspace. }
  exists (rot90 raw), xmin, xmax.
  split; [|split; [reflexivity | split; [reflexivity | split; [|split]]]].
  - unfold kernel_density_map, mbind, outcome_bind, py_min, py_max.
    rewrite Hmin, Hmax. cbn [obind]. rewrite Hkde. reflexivity.
  - rewrite (length_rot90 raw row rest Eraw). exact Hrow.
  - rewrite <- Hraw. apply rot90_rows.
  - intros r c Hr Hc. exists (nth (99 - r) yy 0).
    split; [|split; [reflexivity | apply linspace_reversed; exact Hr]].
    rewrite (rot90_nth raw row rest r Eraw) by lia. rewrite Hrow.
    rewrite (nth_map_lt _ raw c 0 []) by lia.
    subst raw. rewrite (nth_map_lt _ xx c [] 0) by (subst xx; rewrite length_linspace; lia).
    rewrite (nth_map_lt _ yy (100 - S r) 0 0)
      by (subst yy; rewrite length_linspace; lia).
    replace (100 - S r)%nat with (99 - r)%nat by lia. reflexivity.
Qed.

End DensityMap.

Lemma kernel_density_map_grid_witness :
  exists kdm : list (list Q),
    @kernel_density_map bench [mkPoint 100 0; mkPoint 200 1] 3 = Ok kdm /\
    length kdm = 100%nat /\
    Forall (fun line => length line = 100%nat) kdm.
Proof.
  destruct (@kernel_density_map_grid bench [mkPoint 100 0; mkPoint 200 1] 3
              (fun _ yj => 1 / (1 + yj * yj)))
    as (kdm & xmin & xmax & Hrun & _ & _ & Hlen & Hrows & _).
  - discriminate.
  - reflexivity.
  - exists kdm. split; [exact Hrun | split; [exact Hlen | exact Hrows]].
Defined.

(* ===================================================================== *)
(** * ErrorTable.fit_kernel *)
(* ===================================================================== *)

Lemma ridge_index_band : Forall (fun x => -3 <= x <= 3) (linspace 3 (-3) 100).
Proof.
  apply Forall_forall. intros x Hx. apply list_elem_of_In in Hx.
  assert (forallb (fun x => Qleb (-3) x && Qleb x 3) (linspace 3 (-3) 100) = true) as Hb
    by (vm_compute; reflexivity).
  rewrite forallb_forall in Hb. specialize (Hb x Hx).
  apply andb_true_iff in Hb as [H1 H2].
  apply Qleb_le in H1, H2. split; assumption.
Qed.

(** A ridge value is a mean of ppm positions of the index: it lies between
    -3 and 3. *)
Theorem ridge_within_band (f : list (list Q)) (i : nat) (v : Q) :
  ridge (linspace 3 (-3) 100) f i = Ok v -> -3 <= v <= 3.
Proof.
  unfold ridge, mbind, outcome_bind.
  destruct (quantile 0.95 _) as [max_kernel| |]; cbn [obind]; try discriminate.
  destruct (np_mean _) as [m|] eqn:Hm; cbn [or_nan]; [|discriminate].
  intros [= <-]. eapply (np_mean_bounds (-3) 3); [|exact Hm].
  apply Forall_forall. intros x Hx.
  apply list_elem_of_In, in_map_iff in Hx as ([x' d] & <- & Hin).
  apply filter_In in Hin as [Hin _].
  apply list_elem_of_In, elem_of_zip_l in Hin.
  pose proof ridge_index_band as Hband. rewrite Forall_forall in Hband.
  apply Hband. exact Hin.
Qed.

Lemma ridge_within_band_witness :
  exists v : Q, ridge (linspace 3 (-3) 100) demo_grid 0 = Ok v /\ -3 <= v <= 3.
Proof.
  assert (exists v, ridge (linspace 3 (-3) 100) demo_grid 0 = Ok v) as [v E]
    by (vm_compute; eexists; reflexivity).
  exists v. split; [exact E|]. exact (ridge_within_band demo_grid 0 v E).
Defined.

Lemma ridge_never_raises (index : list Q) (f : list (list Q)) (i : nat) (exc : string) :
  ridge index f i <> Raise exc.
Proof.
  unfold ridge, mbind, outcome_bind, quantile.
  change (Qltb 0.95 0 || Qltb 1 0.95) with false. cbv iota.
  destruct (map _ f); cbn [obind]; [discriminate|].
  destruct (np_mean _); discriminate.
Qed.

(** A column of the density map that is flat (the density is the same at
    every ppm position, zero for instance) has no entry above its
    quantile: its ridge is the mean of nothing. *)
Lemma ridge_flat_column (index : list Q) (f : list (list Q)) (i : nat) (c : Q) :
  Forall (fun row => nth i row 0 == c) f -> ridge index f i = NaN.
Proof.
  intros Hflat. unfold ridge, mbind, outcome_bind.
  set (col := map (fun row => nth i row 0) f).
  assert (Forall (fun x => x == c) col) as Hcol.
  { subst col. apply Forall_forall. intros x Hx.
    apply list_elem_of_In, in_map_iff in Hx as (row & <- & Hrow).
    rewrite Forall_forall in Hflat. apply Hflat, list_elem_of_In, Hrow. }
  destruct (quantile 0.95 col) as [thr| |] eqn:Hq; cbn [obind].
  - pose proof (quantile_flat 0.95 c col thr Hcol Hq) as Hthr.
    rewrite filter_none; [reflexivity|].
    intros [x d] Hin. cbn [snd]. apply Qltb_ge.
    apply elem_of_zip_r in Hin. rewrite Forall_forall in Hcol.
    rewrite (Hcol d Hin), Hthr. apply Qle_refl.
  - unfold quantile in Hq. change (Qltb 0.95 0 || Qltb 1 0.95) with false in Hq.
    destruct col; discriminate.
  - reflexivity.
Qed.

(** The ridge loop of lines 198-202 never raises: it leaves a float, [nan]
    or not, for every column. *)
Lemma ridge_cells_run (index : list Q) (f : list (list Q)) (cols : list nat) :
  traverse (fun i => nan_cell (ridge index f i)) cols = Ok (map (ridge_cell index f) cols).
Proof.
  induction cols as [|i cols IH]; [reflexivity|].
  cbn [traverse map]. unfold mbind, outcome_bind. rewrite IH. unfold ridge_cell.
  destruct (ridge index f i) as [v|exc|] eqn:E.
  - reflexivity.
  - exfalso. exact (ridge_never_raises index f i exc E).
  - reflexivity.
Qed.

Lemma numbers_Some (rows : list (Q * option Q)) (curve : list CurvePoint) :
  numbers rows = Some curve -> rows = map (fun p => (cmass p, Some (cppm p))) curve.
Proof.
  revert curve. induction rows as [|[m [p|]] rows IH]; intros curve; cbn [numbers].
  - intros [= <-]. reflexivity.
  - destruct (numbers rows) as [pts|]; [|discriminate].
    intros [= <-]. cbn [map cmass cppm]. rewrite (IH pts eq_refl). reflexivity.
  - discriminate.
Qed.

Lemma numbers_None (rows : list (Q * option Q)) :
  numbers rows = None <-> exists row, row ∈ rows /\ snd row = None.
Proof.
  induction rows as [|[m [p|]] rows IH]; cbn [numbers].
  - split; [discriminate | intros (row & Hrow & _); inversion Hrow].
  - destruct (numbers rows) as [pts|].
    + split; [discriminate|]. intros (row & Hrow & Hnan).
      apply list_elem_of_In in Hrow. destruct Hrow as [<- | Hrow]; [discriminate|].
      assert (Some pts = None) as E; [|discriminate E].
      apply IH. exists row. split; [apply list_elem_of_In; exact Hrow | exact Hnan].
    + split; [|reflexivity]. intros _.
      destruct (proj1 IH eq_refl) as (row & Hrow & Hnan).
      exists row. split; [right; exact Hrow | exact Hnan].
  - split; [|reflexivity]. intros _. exists (m, None). split; [left | reflexivity].
Qed.

Section FitKernel.
Context `{Collaborators}.

(** What a run of [fit_kernel_frame] that returns went through. *)
Lemma fit_kernel_frame_Ok_inv (f : list (list Q)) (mass : list Q)
    (frame : list (Q * option Q)) :
  fit_kernel_frame f mass = Ok frame ->
  exists (row : list Q) (rest : list (list Q)) (smoothed : list (option Q))
         (first : option Q) (xmin xmax : Q),
    f = row :: rest /\ length f = 100%nat /\ length row = 100%nat /\
    savgol_filter (map (ridge_cell (linspace 3 (-3) 100) f) (seq 0 100)) 31 5 = Ok smoothed /\
    length smoothed = 100%nat /\
    col_min mass = Some xmin /\ col_max mass = Some xmax /\
    smoothed !! 0%nat = Some first /\
    frame = zip_with (fun m p => (m, cell_sub p first)) (linspace xmin xmax 100) smoothed.
Proof.
  unfold fit_kernel_frame. rewrite length_linspace.
  destruct (Nat.eqb_spec (length f) 100) as [Hf|]; cbn [negb]; cbv iota; [|discriminate].
  set (ncols := match f with r :: _ => length r | [] => 0%nat end).
  rewrite ridge_cells_run. unfold mbind, outcome_bind. cbn [obind].
  destruct (savgol_filter _ 31 5) as [smoothed| |] eqn:Hsav; cbn [obind]; try discriminate.
  rewrite length_map, length_seq.
  destruct (Nat.eqb_spec (length smoothed) ncols) as [Hlen1|]; cbn [negb]; cbv iota;
    [|discriminate].
  destruct (py_min mass) as [xmin| |] eqn:Hmin; cbn [obind]; try discriminate.
  destruct (py_max mass) as [xmax| |] eqn:Hmax; cbn [obind]; try discriminate.
  rewrite length_linspace.
  destruct (Nat.eqb_spec 100 ncols) as [Hlen2|]; cbn [negb]; cbv iota; [|discriminate].
  destruct (smoothed !! 0%nat) as [first|] eqn:Hfirst; [|discriminate].
  remember (linspace xmin xmax 100) as masses eqn:Hmasses.
  intros [= <-].
  destruct f as [|row rest]; [simpl in Hf; lia|].
  exists row, rest, smoothed, first, xmin, xmax.
  subst ncols. rewrite <- Hlen2 in Hsav, Hlen1.
  split; [reflexivity | split; [exact Hf | split; [lia | split; [exact Hsav|]]]].
  split; [exact Hlen1 | split; [apply py_min_Ok, Hmin | split; [apply py_max_Ok, Hmax|]]].
  split; [exact Hfirst | rewrite Hmasses; reflexivity].
Qed.

(** When [fit_kernel_frame] returns. *)
Lemma fit_kernel_frame_run (f : list (list Q)) (mass : list Q) (row : list Q)
    (rest : list (list Q)) (smoothed : list (option Q)) :
  f = row :: rest -> length f = 100%nat -> length row = 100%nat -> mass <> [] ->
  savgol_filter (map (ridge_cell (linspace 3 (-3) 100) f) (seq 0 100)) 31 5 = Ok smoothed ->
  length smoothed = 100%nat ->
  exists (first : option Q) (xmin xmax : Q),
    col_min mass = Some xmin /\ col_max mass = Some xmax /\
    smoothed !! 0%nat = Some first /\
    fit_kernel_frame f mass
    = Ok (zip_with (fun m p => (m, cell_sub p first)) (linspace xmin xmax 100) smoothed).
Proof.
  intros Hf Hlen Hrow Hmass Hsav Hls.
  destruct mass as [|x mass]; [congruence|].
  destruct smoothed as [|first smoothed]; [discriminate|].
  eexists first, _, _. split; [reflexivity | split; [reflexivity | split; [reflexivity|]]].
  unfold fit_kernel_frame. rewrite length_linspace, Hlen. cbn [Nat.eqb negb]. cbv iota.
  rewrite ridge_cells_run. unfold mbind, outcome_bind. cbn [obind].
  subst f. rewrite Hrow, Hsav. cbn [obind].
  rewrite Hls, length_map, length_seq. cbn [Nat.eqb negb]. cbv iota.
  cbn [py_min py_max col_min col_max obind].
  rewrite length_linspace. cbn [Nat.eqb negb]. cbv iota. reflexivity.
Qed.

(** The frame behind a curve [fit_kernel] returns. *)
Lemma fit_kernel_Ok_inv (f : list (list Q)) (mass : list Q) (curve : list CurvePoint) :
  fit_kernel f mass = Ok curve ->
  fit_kernel_frame f mass = Ok (map (fun p => (cmass p, Some (cppm p))) curve).
Proof.
  unfold fit_kernel, mbind, outcome_bind.
  destruct (fit_kernel_frame f mass) as [frame| |]; cbn [obind]; try discriminate.
  destruct (numbers frame) as [pts|] eqn:Hn; cbn [or_nan]; [|discriminate].
  intros [= <-]. rewrite (numbers_Some frame pts Hn). reflexivity.
Qed.

(** The masses of the curve [fit_kernel] returns. *)
Lemma fit_kernel_masses (f : list (list Q)) (mass : list Q) (curve : list CurvePoint) :
  fit_kernel f mass = Ok curve ->
  exists xmin xmax : Q,
    col_min mass = Some xmin /\ col_max mass = Some xmax /\
    length curve = 100%nat /\ map cmass curve = linspace xmin xmax 100.
Proof.
  intros Hrun. apply fit_kernel_Ok_inv in Hrun.
  destruct (fit_kernel_frame_Ok_inv _ _ _ Hrun)
    as (row & rest & smoothed & first & xmin & xmax
        & _ & _ & _ & _ & Hls & Hmin & Hmax & _ & Hframe).
  exists xmin, xmax. split; [exact Hmin | split; [exact Hmax|]].
  pose proof (length_linspace xmin xmax 100) as Hl.
  assert (length curve = 100%nat) as Hlen.
  { rewrite <- (length_map (fun p => (cmass p, Some (cppm p))) curve), Hframe.
    rewrite length_zip_with. lia. }
  split; [exact Hlen|].
  assert (map fst (map (fun p => (cmass p, Some (cppm p))) curve) = linspace xmin xmax 100) as E.
  { rewrite Hframe. apply map_zip_with_l; [reflexivity | lia]. }
  rewrite map_map in E. exact E.
Qed.

Lemma fit_kernel_first_zero (f : list (list Q)) (mass : list Q) (curve : list CurvePoint) :
  fit_kernel f mass = Ok curve ->
  exists p0 : CurvePoint, curve !! 0%nat = Some p0 /\ cppm p0 == 0.
Proof.
  intros Hrun. apply fit_kernel_Ok_inv in Hrun.
  destruct (fit_kernel_frame_Ok_inv _ _ _ Hrun)
    as (row & rest & smoothed & first & xmin & xmax
        & _ & _ & _ & _ & Hls & _ & _ & Hfirst & Hframe).
  pose proof (length_linspace xmin xmax 100) as Hl.
  destruct (linspace xmin xmax 100) as [|m0 masses]; [discriminate Hl|].
  destruct smoothed as [|s0 smoothed]; [discriminate|].
  injection Hfirst as ->.
  destruct curve as [|p0 curve]; [discriminate|].
  cbn [map zip_with] in Hframe. injection Hframe as _ Hppm _.
  exists p0. split; [reflexivity|].
  destruct first as [v|]; [|discriminate].
  injection Hppm as ->. ring.
Qed.


End FitKernel.



Section FitKernelShape.
Context `{Collaborators}.

(** [fit_kernel] returns a curve only for a map of 100 rows and 100
    columns and a mass array that is not empty. *)
Theorem fit_kernel_needs_square_map (f : list (list Q)) (mass : list Q)
    (curve : list CurvePoint) :
  fit_kernel f mass = Ok curve ->
  length f = 100%nat /\
  (exists (row : list Q) (rest : list (list Q)), f = row :: rest /\ length row = 100%nat) /\
  mass <> [].
Proof.
  intros Hrun. apply fit_kernel_Ok_inv, fit_kernel_frame_Ok_inv in Hrun
    as (row & rest & smoothed & first & xmin & xmax & Hf & Hlen & Hrow & _ & _ & Hmin & _).
  split; [exact Hlen | split].
  - exists row, rest. split; assumption.
  - intros ->. discriminate.
Qed.

(** On a map of 100 rows and 100 columns one of whose columns is flat,
    the ridge of that column is [nan]; with a mass array that is not
    empty and a filter that returns 100 values and leaves a [nan] where
    it was, [fit_kernel] returns 100 rows whose ppm in that row is
    [nan]. *)
Theorem fit_kernel_flat_column (f : list (list Q)) (mass : list Q)
    (row : list Q) (rest : list (list Q)) (i : nat) (c : Q) :
  f = row :: rest -> length f = 100%nat -> length row = 100%nat -> (i < 100)%nat ->
  Forall (fun line => nth i line 0 == c) f ->
  mass <> [] ->
  (forall out : list (option Q),
     length out = 100%nat -> out !! i = Some None ->
     exists smoothed : list (option Q),
       savgol_filter out 31 5 = Ok smoothed /\ length smoothed = 100%nat /\
       smoothed !! i = Some None) ->
  ridge (linspace 3 (-3) 100) f i = NaN /\
  fit_kernel f mass = NaN /\
  exists (frame : list (Q * option Q)) (r : Q * option Q),
    fit_kernel_frame f mass = Ok frame /\ length frame = 100%nat /\
    frame !! i = Some r /\ snd r = None.
Proof.
  intros Hf Hlen Hrow Hi Hflat Hmass Hfilter.
  pose proof (ridge_flat_column (linspace 3 (-3) 100) f i c Hflat) as Hridge.
  set (out := map (ridge_cell (linspace 3 (-3) 100) f) (seq 0 100)).
  assert (out !! i = Some None) as Hout.
  { subst out. rewrite list_lookup_map, lookup_seq_lt by exact Hi.
    cbn [fmap option_fmap option_map Nat.add]. unfold ridge_cell. rewrite Hridge. reflexivity. }
  destruct (Hfilter out) as (smoothed & Hsav & Hls & Hnan);
    [subst out; rewrite length_map, length_seq; reflexivity | exact Hout |].
  destruct (fit_kernel_frame_run f mass row rest smoothed Hf Hlen Hrow Hmass Hsav Hls)
    as (first & xmin & xmax & _ & _ & _ & Hrun).
  destruct (lookup_lt_is_Some_2 (linspace xmin xmax 100) i) as [m Hm];
    [rewrite length_linspace; exact Hi|].
  assert (zip_with (fun m p => (m, cell_sub p first)) (linspace xmin xmax 100) smoothed !! i
          = Some (m, None)) as Hrow_i.
  { apply lookup_zip_with_Some. exists m, None. split; [reflexivity | split; assumption]. }
  assert (length (zip_with (fun m p => (m, cell_sub p first)) (linspace xmin xmax 100) smoothed)
          = 100%nat) as Hframe_len.
  { rewrite length_zip_with, length_linspace. lia. }
  split; [exact Hridge | split].
  - unfold fit_kernel, mbind, outcome_bind. rewrite Hrun. cbn [obind].
    assert (numbers (zip_with (fun m p => (m, cell_sub p first)) (linspace xmin xmax 100)
                       smoothed) = None) as ->; [|reflexivity].
    apply numbers_None. exists (m, None). split; [|reflexivity].
    eapply list_elem_of_lookup_2; exact Hrow_i.
  - eexists _, (m, None). split; [exact Hrun | split; [exact Hframe_len | split; [exact Hrow_i|]]].
    reflexivity.
Qed.

End FitKernelShape.

Lemma fit_kernel_needs_square_map_witness : length demo_grid = 100%nat.
Proof.
  assert (exists curve, @fit_kernel bench demo_grid [100; 150; 200] = Ok curve) as [curve E]
    by (vm_compute; eexists; reflexivity).
  apply (@fit_kernel_needs_square_map bench demo_grid [100; 150; 200] curve E).
Defined.

Lemma fit_kernel_flat_column_witness :
  @fit_kernel bench (repeat (repeat 0 100) 100) [100; 200] = NaN.
Proof.
  apply (@fit_kernel_flat_column bench (repeat (repeat 0 100) 100) [100; 200]
           (repeat 0 100) (repeat (repeat 0 100) 99) 0 0).
  - reflexivity.
  - reflexivity.
  - reflexivity.
  - lia.
  - apply Forall_forall. intros line Hline.
    apply list_elem_of_In, repeat_spec in Hline. subst line. reflexivity.
  - discriminate.
  - intros out Hlen Hout. exists out. split; [reflexivity | split; assumption].
Defined.

(* ===================================================================== *)
(** * ErrorTable.etalon_error *)
(* ===================================================================== *)

Lemma cal_loop_none et ppm p cal :
  (forall y, y ∈ et -> in_window ppm (mass p) y = false) -> cal_loop et ppm p cal = cal.
Proof.
  unfold cal_loop. revert cal. induction et as [|m et IH]; intros cal Hno; simpl; [reflexivity|].
  rewrite (Hno m) by left. apply IH. intros y Hy. apply Hno. right. assumption.
Qed.

Lemma cal_loop_last et ppm p cal l1 x l2 :
  et = l1 ++ x :: l2 -> in_window ppm (mass p) x = true ->
  (forall y, y ∈ l2 -> in_window ppm (mass p) y = false) ->
  cal_loop et ppm p cal = x.
Proof.
  intros -> Hx Hno. unfold cal_loop. rewrite fold_left_app. simpl. rewrite Hx.
  apply (cal_loop_none l2 ppm p x Hno).
Qed.

Lemma cal_loop_cases et ppm p cal :
  cal_loop et ppm p cal = cal \/
  exists x, x ∈ et /\ in_window ppm (mass p) x = true /\ cal_loop et ppm p cal = x.
Proof.
  unfold cal_loop. revert cal. induction et as [|m et IH]; intros cal; simpl; [left; reflexivity|].
  destruct (in_window ppm (mass p) m) eqn:Hm.
  - right. destruct (IH m) as [E|(x & Hx & Hw & E)].
    + exists m. split; [left | split; assumption].
    + exists x. split; [right; assumption | split; assumption].
  - destruct (IH cal) as [E|(x & Hx & Hw & E)]; [left; assumption|].
    right. exists x. split; [right; assumption | split; assumption].
Qed.

Lemma in_window_nonzero ppm m x : in_window ppm m x = true -> ~ m == 0.
Proof.
  unfold in_window. rewrite andb_true_iff, !Qltb_lt. intros [Hlo Hhi] Hm.
  rewrite Hm in Hlo, Hhi. lra.
Qed.

(** Lines 404-411 for row [i]: only the [cal] of row [i] changes, to
    what the inner loop leaves. *)
Lemma etalon_row_alter et ppm (df : list (Peak * Q)) (i : nat) :
  etalon_row et ppm df i
  = alter (fun r => (fst r, cal_loop et ppm (fst r) (snd r))) i df.
Proof.
  unfold etalon_row. destruct (df !! i) as [[p c]|] eqn:Hi.
  - change (fun df0 m => if Qltb (mass p * (1 - ppm / 1000000)) m
                            && Qltb m (mass p * (1 + ppm / 1000000))
                         then set_cal i m df0 else df0)
      with (fun df0 m => if in_window ppm (mass p) m then set_cal i m df0 else df0).
    assert (forall (df0 : list (Peak * Q)) c0, df0 !! i = Some (p, c0) ->
              fold_left (fun df0 m => if in_window ppm (mass p) m then set_cal i m df0 else df0)
                        et df0
              = <[i := (p, cal_loop et ppm p c0)]> df0) as Hfold.
    { unfold cal_loop. induction et as [|m et IH]; intros df0 c0 H0; simpl.
      - symmetry. apply list_insert_id. assumption.
      - destruct (in_window ppm (mass p) m).
        + unfold set_cal at 2. rewrite H0.
          rewrite (IH _ m).
          * apply list_insert_insert_eq.
          * apply list_lookup_insert_eq. eauto using lookup_lt_Some.
        + apply IH. assumption. }
    rewrite (Hfold df c Hi).
    apply list_eq. intros k. destruct (decide (k = i)) as [->|Hne].
    + rewrite list_lookup_alter_eq, Hi. simpl.
      apply list_lookup_insert_eq. eauto using lookup_lt_Some.
    + rewrite list_lookup_alter_ne, list_lookup_insert_ne by congruence. reflexivity.
  - apply list_eq. intros k. destruct (decide (k = i)) as [->|Hne].
    + rewrite list_lookup_alter_eq, Hi. reflexivity.
    + rewrite list_lookup_alter_ne by congruence. reflexivity.
Qed.

Lemma etalon_fill_map et ppm (df : list (Peak * Q)) :
  etalon_fill et ppm df = map (fun r => (fst r, cal_loop et ppm (fst r) (snd r))) df.
Proof.
  unfold etalon_fill. rewrite <- fold_alter_all.
  generalize (seq 0 (length df)). intros idxs. revert df.
  induction idxs as [|i idxs IH]; intros df; simpl; [reflexivity|].
  rewrite etalon_row_alter. apply IH.
Qed.

Lemma dropna_cons_Some (m q : Q) (rows : list (Q * option Q)) :
  dropna ((m, Some q) :: rows) = mkPoint m q :: dropna rows.
Proof. reflexivity. Qed.

Lemma cell_div_nonzero (a b : Q) : ~ b == 0 -> cell_div a b = Some (a / b).
Proof.
  intros Hb. unfold cell_div. destruct (Qeq_bool b 0) eqn:E; [|reflexivity].
  apply Qeq_bool_iff in E. contradiction.
Qed.

Lemma etalon_rows_emit (df : list (Peak * Q)) :
  (forall r, r ∈ df -> Qltb 0 (snd r) = true -> ~ mass (fst r) == 0) ->
  dropna
    (map (fun r => (mass (fst r),
                    (fun q => q * 1000000) <$> cell_div (snd r - mass (fst r)) (mass (fst r))))
         (List.filter (fun r => Qltb 0 (snd r)) df))
  = flat_map (fun r => if Qltb 0 (snd r)
                       then [mkPoint (mass (fst r))
                               ((snd r - mass (fst r)) / mass (fst r) * 1000000)]
                       else []) df.
Proof.
  induction df as [|r df IH]; intros Hnz; [reflexivity|].
  cbn [List.filter flat_map].
  assert (forall r0, r0 ∈ df -> Qltb 0 (snd r0) = true -> ~ mass (fst r0) == 0) as Hnz'
    by (intros r0 Hr0; apply Hnz; right; assumption).
  destruct (Qltb 0 (snd r)) eqn:Hpos.
  - cbn [map]. rewrite cell_div_nonzero by (apply (Hnz r); [left | exact Hpos]).
    cbn [fmap option_fmap option_map]. rewrite dropna_cons_Some, (IH Hnz'). reflexivity.
  - apply IH, Hnz'.
Qed.

Lemma etalon_survivors_returns (spec : Spectrum) (quart : Q) :
  0 <= quart <= 1 -> exists survivors, etalon_survivors spec quart = Ok survivors.
Proof.
  intros [H0 H1]. unfold etalon_survivors, quantile.
  assert (Qltb quart 0 = false) as -> by (apply Qltb_ge; exact H0).
  assert (Qltb 1 quart = false) as -> by (apply Qltb_ge; exact H1).
  cbn [orb]. destruct (map intensity (table spec)); eexists; reflexivity.
Qed.

(** C10. In [etalon_error] the calibration mass recorded for a surviving
    peak is the last etalon mass, in the order of the etalon list, that
    lies strictly inside the peak's window (0 when none does), and the
    observation emitted for the peak is computed from that mass alone. *)
Theorem etalon_error_takes_last_match (spec etalon : Spectrum) (quart ppm : Q) :
  0 <= quart <= 1 ->
  let et := map mass (table etalon) in
  exists survivors : list Peak,
    etalon_survivors spec quart = Ok survivors /\
    let df := etalon_fill et ppm (map (fun p => (p, 0)) survivors) in
    (forall (i : nat) (p : Peak), survivors !! i = Some p ->
       exists cal : Q,
         df !! i = Some (p, cal) /\
         (forall (l1 : list Q) (x : Q) (l2 : list Q),
            et = l1 ++ x :: l2 -> in_window ppm (mass p) x = true ->
            (forall y, y ∈ l2 -> in_window ppm (mass p) y = false) -> cal = x) /\
         ((forall y, y ∈ et -> in_window ppm (mass p) y = false) -> cal = 0)) /\
    etalon_scatter spec etalon quart ppm
    = Ok (flat_map (fun r => if Qltb 0 (snd r)
                             then [mkPoint (mass (fst r))
                                     ((snd r - mass (fst r)) / mass (fst r) * 1000000)]
                             else []) df).
Proof.
  intros Hq et. destruct (etalon_survivors_returns spec quart Hq) as (survivors & Hsurv).
  exists survivors. split; [exact Hsurv|]. cbv zeta. rewrite etalon_fill_map. split.
  - intros i p Hi. exists (cal_loop et ppm p 0). split; [|split].
    + rewrite !list_lookup_map, Hi. reflexivity.
    + intros l1 x l2 Het Hx Hno. exact (cal_loop_last et ppm p 0 l1 x l2 Het Hx Hno).
    + apply cal_loop_none.
  - unfold etalon_scatter, mbind, outcome_bind. rewrite Hsurv. cbn [obind]. cbv zeta.
    fold et. rewrite etalon_fill_map. f_equal.
    apply etalon_rows_emit.
    intros r Hr Hpos. apply list_elem_of_In, in_map_iff in Hr as (q & <- & Hq').
    apply in_map_iff in Hq' as (p & <- & Hp). cbn [fst snd] in *.
    destruct (cal_loop_cases et ppm p 0) as [E|(x & _ & Hw & _)].
    + rewrite E in Hpos. discriminate.
    + exact (in_window_nonzero _ _ _ Hw).
Qed.

(** Two etalon masses inside the window of the peak at 200: the one that
    comes last in the etalon list, 200.0002, is recorded. *)
Lemma etalon_error_takes_last_match_witness :
  etalon_scatter
    {| table := [mkPeak 100 1 false None; mkPeak 200 9 false None]; metadata := ∅ |}
    {| table := [mkPeak 200.0004 1 false None; mkPeak 200.0002 1 false None]; metadata := ∅ |}
    0.5 3
  = Ok [mkPoint 200 ((200.0002 - 200) / 200 * 1000000)].
Proof.
  destruct (etalon_error_takes_last_match
              {| table := [mkPeak 100 1 false None; mkPeak 200 9 false None]; metadata := ∅ |}
              {| table := [mkPeak 200.0004 1 false None; mkPeak 200.0002 1 false None];
                 metadata := ∅ |}
              0.5 3) as (survivors & Hsurv & _ & Hscatter).
  - split; discriminate.
  - vm_compute in Hsurv. injection Hsurv as <-.
    rewrite Hscatter. vm_compute. reflexivity.
Defined.

Lemma etalon_survivors_sub (spec : Spectrum) (quart : Q) (survivors : list Peak) (p : Peak) :
  etalon_survivors spec quart = Ok survivors -> p ∈ survivors -> p ∈ table spec.
Proof.
  unfold etalon_survivors.
  destruct (quantile quart _) as [treshold| |]; intros [= <-] Hp.
  - apply list_elem_of_In, filter_In in Hp as [Hp _]. apply list_elem_of_In. exact Hp.
  - inversion Hp.
Qed.

(** The scatter of [etalon_error], read off the surviving rows. *)
Lemma etalon_scatter_Ok_inv (spec etalon : Spectrum) (quart ppm : Q)
    (scatter : list CurvePoint) :
  etalon_scatter spec etalon quart ppm = Ok scatter ->
  exists survivors : list Peak,
    etalon_survivors spec quart = Ok survivors /\
    scatter
    = flat_map (fun r => if Qltb 0 (snd r)
                         then [mkPoint (mass (fst r))
                                 ((snd r - mass (fst r)) / mass (fst r) * 1000000)]
                         else [])
        (map (fun r => (fst r, cal_loop (map mass (table etalon)) ppm (fst r) (snd r)))
             (map (fun p => (p, 0)) survivors)).
Proof.
  unfold etalon_scatter, mbind, outcome_bind.
  destruct (etalon_survivors spec quart) as [survivors| |]; cbn [obind]; try discriminate.
  cbv zeta. rewrite etalon_fill_map. intros [= <-].
  exists survivors. split; [reflexivity|].
  apply etalon_rows_emit.
  intros r Hr Hpos. apply list_elem_of_In, in_map_iff in Hr as (q & <- & Hq').
  apply in_map_iff in Hq' as (p & <- & Hp). cbn [fst snd] in *.
  destruct (cal_loop_cases (map mass (table etalon)) ppm p 0) as [E|(x & _ & Hw & _)].
  - rewrite E in Hpos. discriminate.
  - exact (in_window_nonzero _ _ _ Hw).
Qed.

Lemma in_window_ppm (ppm m x : Q) :
  0 < m -> in_window ppm m x = true -> Qabs ((x - m) / m * 1000000) < ppm.
Proof.
  intros Hm Hw. unfold in_window in Hw. apply andb_true_iff in Hw as [H1 H2].
  apply Qltb_lt in H1, H2.
  apply Qabs_Qlt_condition. split.
  - apply (Qmult_lt_r _ _ m Hm).
    assert ((x - m) / m * 1000000 * m == (x - m) * 1000000) as -> by (field; lra).
    assert (m * (1 - ppm / 1000000) == m - m * ppm * (1 # 1000000)) as E by field.
    rewrite E in H1. lra.
  - apply (Qmult_lt_r _ _ m Hm).
    assert ((x - m) / m * 1000000 * m == (x - m) * 1000000) as -> by (field; lra).
    assert (m * (1 + ppm / 1000000) == m + m * ppm * (1 # 1000000)) as E by field.
    rewrite E in H2. lra.
Qed.

(** Every observation of the etalon scatter carries the mass of a peak of
    the spectrum and an error strictly inside the window of [ppm]. *)
Theorem etalon_scatter_observations (spec etalon : Spectrum) (quart ppm : Q)
    (scatter : list CurvePoint) (pt : CurvePoint) :
  (forall p, p ∈ table spec -> 0 < mass p) ->
  etalon_scatter spec etalon quart ppm = Ok scatter -> pt ∈ scatter ->
  (exists p, p ∈ table spec /\ cmass pt = mass p) /\ Qabs (cppm pt) < ppm.
Proof.
  intros Hpos Hrun Hpt.
  apply etalon_scatter_Ok_inv in Hrun as (survivors & Hsurv & ->).
  apply list_elem_of_In, in_flat_map in Hpt as (r & Hr & Hpt).
  apply in_map_iff in Hr as (q & <- & Hq).
  apply in_map_iff in Hq as (p & <- & Hp). cbn [fst snd] in Hpt.
  apply list_elem_of_In, (etalon_survivors_sub spec quart survivors p Hsurv) in Hp.
  destruct (Qltb 0 (cal_loop _ ppm p 0)) eqn:Hcal; [|destruct Hpt].
  destruct Hpt as [<-|[]]. cbn [cmass cppm].
  split; [exists p; split; [exact Hp | reflexivity]|].
  destruct (cal_loop_cases (map mass (table etalon)) ppm p 0) as [E|(x & _ & Hw & ->)].
  - rewrite E in Hcal. discriminate.
  - apply in_window_ppm; [apply Hpos, Hp | exact Hw].
Qed.

Lemma etalon_scatter_observations_witness :
  exists (scatter : list CurvePoint) (pt : CurvePoint),
    etalon_scatter
      {| table := [mkPeak 100 1 false None; mkPeak 200 9 false None]; metadata := ∅ |}
      {| table := [mkPeak 200.0004 1 false None; mkPeak 200.0002 1 false None]; metadata := ∅ |}
      0.5 3 = Ok scatter /\
    pt ∈ scatter /\ Qabs (cppm pt) < 3.
Proof.
  assert (forall p, p ∈ [mkPeak 100 1 false None; mkPeak 200 9 false None] -> 0 < mass p)
    as Hpos.
  { intros p Hp. apply list_elem_of_In in Hp. simpl in Hp.
    destruct Hp as [<-|[<-|[]]]; reflexivity. }
  destruct (etalon_scatter
      {| table := [mkPeak 100 1 false None; mkPeak 200 9 false None]; metadata := ∅ |}
      {| table := [mkPeak 200.0004 1 false None; mkPeak 200.0002 1 false None]; metadata := ∅ |}
      0.5 3) as [[|pt rest]| |] eqn:E; try (vm_compute in E; discriminate).
  exists (pt :: rest), pt. split; [reflexivity | split; [left|]].
  refine (proj2 (etalon_scatter_observations
            {| table := [mkPeak 100 1 false None; mkPeak 200 9 false None]; metadata := ∅ |}
            {| table := [mkPeak 200.0004 1 false None; mkPeak 200.0002 1 false None];
               metadata := ∅ |}
            0.5 3 (pt :: rest) pt Hpos E _)).
  left.
Defined.

Section EtalonErrors.
Context `{Collaborators}.

(** [etalon_error] raises [ValueError] when no etalon mass lies in the
    window of any peak of the spectrum (an empty etalon, say): the
    scatter is empty and [min] of nothing is asked for. *)
Theorem etalon_error_without_match (spec etalon : Spectrum) (quart ppm : Q) :
  0 <= quart <= 1 ->
  (forall p x, p ∈ table spec -> x ∈ map mass (table etalon) ->
               in_window ppm (mass p) x = false) ->
  etalon_error spec etalon quart ppm = Raise "ValueError".
Proof.
  intros Hq Hno.
  destruct (etalon_survivors_returns spec quart Hq) as (survivors & Hsurv).
  assert (etalon_scatter spec etalon quart ppm = Ok []) as Hscatter.
  { destruct (etalon_scatter spec etalon quart ppm) as [scatter| |] eqn:E.
    - f_equal. destruct (etalon_scatter_Ok_inv _ _ _ _ _ E) as (sv & Hsv & ->).
      assert (sv = survivors) as -> by congruence.
      clear E Hsv.
      assert (forall p, p ∈ survivors -> p ∈ table spec) as Hsub
        by (intros p; apply (etalon_survivors_sub spec quart survivors p Hsurv)).
      clear Hsurv. induction survivors as [|p survivors IH]; [reflexivity|].
      cbn [map flat_map fst snd].
      rewrite cal_loop_none by (intros y Hy; apply Hno; [apply Hsub; left | exact Hy]).
      cbn [app]. apply IH. intros q Hq'. apply Hsub. right. exact Hq'.
    - unfold etalon_scatter, mbind, outcome_bind in E. rewrite Hsurv in E. discriminate.
    - unfold etalon_scatter, mbind, outcome_bind in E. rewrite Hsurv in E. discriminate. }
  unfold etalon_error, mbind, outcome_bind. rewrite Hscatter. reflexivity.
Qed.

(** [etalon_error] raises [ValueError] when [quart] is not a fraction
    between 0 and 1. *)
Theorem etalon_error_quart_out_of_range (spec etalon : Spectrum) (quart ppm : Q) :
  quart < 0 \/ 1 < quart ->
  etalon_error spec etalon quart ppm = Raise "ValueError".
Proof.
  intros Hq. unfold etalon_error, etalon_scatter, etalon_survivors, quantile, mbind, outcome_bind.
  assert (Qltb quart 0 || Qltb 1 quart = true) as ->.
  { apply orb_true_iff. destruct Hq; [left | right]; apply Qltb_lt; assumption. }
  reflexivity.
Qed.

(** With [quart = 1] no peak is strictly above the threshold, the scatter
    is empty, and [etalon_error] raises [ValueError]. *)
Theorem etalon_error_quart_one (spec etalon : Spectrum) (ppm : Q) :
  etalon_survivors spec 1 = Ok [] /\
  etalon_error spec etalon 1 ppm = Raise "ValueError".
Proof.
  assert (etalon_survivors spec 1 = Ok []) as Hsurv.
  { unfold etalon_survivors.
    destruct (quantile 1 (map intensity (table spec))) as [thr| |] eqn:Hq.
    - f_equal. apply filter_none. intros p Hp. apply Qltb_ge.
      apply (quantile_one_max _ thr _ Hq), list_elem_of_In, in_map, list_elem_of_In, Hp.
    - unfold quantile in Hq. change (Qltb 1 0 || Qltb 1 1) with false in Hq.
      destruct (map intensity (table spec)); discriminate.
    - reflexivity. }
  split; [exact Hsurv|].
  unfold etalon_error, etalon_scatter, mbind, outcome_bind. rewrite Hsurv. reflexivity.
Qed.

End EtalonErrors.

Lemma etalon_error_without_match_witness :
  @etalon_error bench
    {| table := [mkPeak 100 1 false None; mkPeak 200 9 false None]; metadata := ∅ |}
    {| table := [mkPeak 150 1 false None]; metadata := ∅ |} 0.9 3
  = Raise "ValueError".
Proof.
  apply (@etalon_error_without_match bench).
  - split; discriminate.
  - intros p x Hp Hx. apply list_elem_of_In in Hp, Hx. simpl in Hp, Hx.
    destruct Hx as [<-|[]]. destruct Hp as [<-|[<-|[]]]; reflexivity.
Defined.

Lemma etalon_error_quart_out_of_range_witness :
  @etalon_error bench
    {| table := [mkPeak 100 1 false None; mkPeak 200 9 false None]; metadata := ∅ |}
    {| table := [mkPeak 200.0002 1 false None]; metadata := ∅ |} 90 3
  = Raise "ValueError".
Proof.
  apply (@etalon_error_quart_out_of_range bench). right. reflexivity.
Defined.

(* ===================================================================== *)
(** * Interpolation and ErrorTable.extrapolate on table values *)
(* ===================================================================== *)

Lemma increasing_ascending (tbl : list CurvePoint) :
  increasing tbl -> ascending (map cmass tbl).
Proof.
  induction 1 as [|p tbl Hs IH Hall]; simpl; constructor; [assumption|].
  rewrite Forall_forall in Hall. apply Forall_forall. intros x Hx.
  apply list_elem_of_In, in_map_iff in Hx as (q & <- & Hq).
  apply list_elem_of_In, Hall in Hq. lra.
Qed.

Lemma increasing_lookup (tbl : list CurvePoint) (i j : nat) (p q : CurvePoint) :
  increasing tbl -> (i < j)%nat -> tbl !! i = Some p -> tbl !! j = Some q ->
  cmass p < cmass q.
Proof.
  intros Hinc. revert i j. induction Hinc as [|a tbl Hs IH Hall]; intros i j Hij Hi Hj.
  - discriminate.
  - destruct j as [|j]; [lia|]. destruct i as [|i]; simpl in *.
    + injection Hi as ->. rewrite Forall_forall in Hall.
      apply Hall. eapply list_elem_of_lookup_2. exact Hj.
    + apply (IH i j); [lia | assumption | assumption].
Qed.

Lemma increasing_sorted_id (tbl : list CurvePoint) :
  increasing tbl -> sort_values cmass tbl = tbl.
Proof.
  intros Hinc. apply (StronglySorted_unique_strong (key_le cmass)).
  - intros x1 x2 H1 H2 H12 H21. rewrite sort_values_perm in H1.
    unfold key_le in *. apply Qle_bool_iff in H12, H21.
    apply list_elem_of_lookup in H1 as (i & Hi), H2 as (j & Hj).
    destruct (Nat.lt_trichotomy i j) as [Hlt|[->|Hlt]].
    + pose proof (increasing_lookup _ _ _ _ _ Hinc Hlt Hi Hj). lra.
    + congruence.
    + pose proof (increasing_lookup _ _ _ _ _ Hinc Hlt Hj Hi). lra.
  - apply StronglySorted_merge_sort; apply _.
  - induction Hinc as [|a tbl Hs IH Hall]; constructor; [assumption|].
    eapply Forall_impl; [exact Hall|]. intros y Hy. apply Qle_bool_iff. simpl in Hy. lra.
  - apply sort_values_perm.
Qed.

(** scipy's [_call_linear] on an increasing curve of two points or more
    evaluates the piecewise-linear function through the curve. *)
Lemma interp_at_spec (pts : list CurvePoint) (x : Q) :
  increasing pts -> (2 <= length pts)%nat ->
  exists y, interp_at pts x = Ok y /\ piecewise_linear pts x y.
Proof.
  intros Hinc Hlen.
  pose proof (increasing_ascending pts Hinc) as Hasc.
  destruct (searchsorted_spec (map cmass pts) x Hasc) as (Hr & Hbelow & Habove).
  rewrite length_map in Hr, Habove.
  unfold interp_at. cbv zeta. rewrite length_map.
  set (r := searchsorted (map cmass pts) x) in *.
  set (idx := clip 1 (length pts - 1) r).
  assert (1 <= idx <= length pts - 1)%nat as Hidx by (subst idx; unfold clip; lia).
  destruct (lookup_lt_is_Some_2 pts (idx - 1)) as [p Hp]; [lia|].
  destruct (lookup_lt_is_Some_2 pts idx) as [q Hq]; [lia|].
  rewrite (nth_map_lookup cmass pts (idx - 1) p Hp), (nth_map_lookup cmass pts idx q Hq).
  rewrite (nth_map_lookup cppm pts (idx - 1) p Hp), (nth_map_lookup cppm pts idx q Hq).
  assert (cmass p < cmass q) as Hpq
    by (apply (increasing_lookup pts (idx - 1) idx); [exact Hinc | lia | exact Hp | exact Hq]).
  destruct (Qeq_bool (cmass q - cmass p) 0) eqn:E.
  { apply Qeq_bool_iff in E. lra. }
  eexists. split; [reflexivity|].
  exists (idx - 1)%nat, p, q. split; [exact Hp|].
  replace (S (idx - 1)) with idx by lia. split; [exact Hq|].
  split; [unfold line_through; reflexivity|].
  destruct (decide (r = 0)%nat) as [Hr0|Hr0].
  - right. left. assert (idx = 1%nat) as Hi1 by (subst idx; unfold clip; lia).
    split; [lia|].
    assert (x <= nth 0 (map cmass pts) 0) as H0 by (apply Habove; lia).
    rewrite Hi1 in Hp. simpl in Hp.
    rewrite (nth_map_lookup cmass pts 0 p Hp) in H0. exact H0.
  - destruct (decide (r = length pts)) as [Hrn|Hrn].
    + right. right. assert (idx = (length pts - 1)%nat) as Hin by (subst idx; unfold clip; lia).
      split; [lia|].
      assert (nth idx (map cmass pts) 0 < x) as Hn by (apply Hbelow; lia).
      rewrite (nth_map_lookup cmass pts idx q Hq) in Hn. lra.
    + left. assert (idx = r) as Hir by (subst idx; unfold clip; lia).
      assert (nth (idx - 1) (map cmass pts) 0 < x) as Hlo by (apply Hbelow; lia).
      assert (x <= nth idx (map cmass pts) 0) as Hhi by (apply Habove; lia).
      rewrite (nth_map_lookup cmass pts (idx - 1) p Hp) in Hlo.
      rewrite (nth_map_lookup cmass pts idx q Hq) in Hhi. lra.
Qed.

(** Lines 442-452 on an increasing curve of two points or more. *)
Lemma extrapolate_rows_spec (tbl : list CurvePoint) (ranges : option (Q * Q)) :
  increasing tbl -> (2 <= length tbl)%nat ->
  exists (new : list CurvePoint) (lo hi : Q),
    extrapolate_rows tbl ranges = Ok new /\
    match ranges with
    | Some r => lo = fst r /\ hi = snd r
    | None => col_min (map cmass tbl) = Some lo /\ col_max (map cmass tbl) = Some hi
    end /\
    length new = 100%nat /\
    map cmass new = linspace lo hi 100 /\
    Forall (fun pt => piecewise_linear tbl (cmass pt) (cppm pt)) new.
Proof.
  intros Hinc Hlen.
  assert (exists lo hi,
            match ranges with
            | Some r => Some r
            | None => match col_min (map cmass tbl), col_max (map cmass tbl) with
                      | Some lo, Some hi => Some (lo, hi)
                      | _, _ => None
                      end
            end = Some (lo, hi) /\
            match ranges with
            | Some r => lo = fst r /\ hi = snd r
            | None => col_min (map cmass tbl) = Some lo /\ col_max (map cmass tbl) = Some hi
            end) as (lo & hi & Hrange & Hlohi).
  { destruct ranges as [[a b]|].
    - exists a, b. split; [reflexivity | split; reflexivity].
    - destruct tbl as [|p tbl]; [simpl in Hlen; lia|]. simpl.
      eexists _, _. split; [reflexivity | split; reflexivity]. }
  destruct (traverse_Ok (interp_at tbl) (fun x y => piecewise_linear tbl x y)
              (linspace lo hi 100)) as (ys & Hys & Hall).
  { intros x. apply interp_at_spec; assumption. }
  exists (zip_with mkPoint (linspace lo hi 100) ys), lo, hi.
  assert (length (linspace lo hi 100) = length ys) as Hl by (eapply Forall2_length; exact Hall).
  split; [|split; [exact Hlohi | split; [|split]]].
  - unfold extrapolate_rows. rewrite Hrange.
    unfold interp1d. destruct tbl as [|p [|q tbl]]; [simpl in Hlen; lia | simpl in Hlen; lia |].
    rewrite (increasing_sorted_id _ Hinc).
    unfold mbind, outcome_bind. cbn [obind or_nan fst snd]. rewrite Hys. reflexivity.
  - rewrite length_zip_with, <- Hl, length_linspace. lia.
  - apply map_zip_with_l; [reflexivity | exact Hl].
  - clear Hys Hl. revert Hall. generalize (linspace lo hi 100). intros xs Hall.
    induction Hall as [|x y xs ys Hxy Hall IH]; simpl; constructor; [exact Hxy | exact IH].
Qed.

(** Whatever the curve, what [extrapolate] returns has 100 rows on the
    [linspace] of the range asked for. *)
Lemma extrapolate_rows_masses (tbl new : list CurvePoint) (lo hi : Q) :
  extrapolate_rows tbl (Some (lo, hi)) = Ok new ->
  length new = 100%nat /\ map cmass new = linspace lo hi 100.
Proof.
  unfold extrapolate_rows, mbind, outcome_bind.
  destruct (interp1d tbl) as [g| |]; cbn [obind or_nan fst snd]; try discriminate.
  pose proof (length_linspace lo hi 100) as Hl.
  remember (linspace lo hi 100) as xs eqn:Hxs.
  destruct (traverse g xs) as [ys| |] eqn:Hys; cbn [obind]; try discriminate.
  apply traverse_length in Hys.
  intros [= Hnew]. subst new. split.
  - rewrite length_zip_with. lia.
  - apply map_zip_with_l; [reflexivity | lia].
Qed.

Lemma piecewise_linear_Qeq (pts : list CurvePoint) (x y y' : Q) :
  y == y' -> piecewise_linear pts x y -> piecewise_linear pts x y'.
Proof.
  intros Hy (j & p & q & Hp & Hq & Hline & Hcase).
  exists j, p, q. split; [exact Hp | split; [exact Hq | split; [|exact Hcase]]].
  rewrite <- Hy. exact Hline.
Qed.

Lemma increasing_of_lookup (tbl : list CurvePoint) :
  (forall (i j : nat) (p q : CurvePoint),
     (i < j)%nat -> tbl !! i = Some p -> tbl !! j = Some q -> cmass p < cmass q) ->
  increasing tbl.
Proof.
  unfold increasing. induction tbl as [|a tbl IH]; intros Hlt; constructor.
  - apply IH. intros i j p q Hij Hp Hq. apply (Hlt (S i) (S j) p q); [lia | exact Hp | exact Hq].
  - apply Forall_forall. intros y Hy. apply list_elem_of_lookup in Hy as (k & Hk).
    apply (Hlt 0%nat (S k) a y); [lia | reflexivity | exact Hk].
Qed.

(** A curve whose masses are all the same divides zero by zero. *)
Lemma interp_at_flat (pts : list CurvePoint) (c x : Q) :
  (2 <= length pts)%nat -> Forall (fun p => cmass p == c) pts -> interp_at pts x = NaN.
Proof.
  intros Hlen Hall. unfold interp_at. cbv zeta. rewrite length_map.
  set (idx := clip 1 (length pts - 1) (searchsorted (map cmass pts) x)).
  assert (1 <= idx <= length pts - 1)%nat as Hidx by (subst idx; unfold clip; lia).
  destruct (lookup_lt_is_Some_2 pts (idx - 1)) as [p Hp]; [lia|].
  destruct (lookup_lt_is_Some_2 pts idx) as [q Hq]; [lia|].
  rewrite (nth_map_lookup cmass pts (idx - 1) p Hp), (nth_map_lookup cmass pts idx q Hq).
  rewrite Forall_forall in Hall.
  assert (cmass p == c) as Ep by (apply Hall; eapply list_elem_of_lookup_2; exact Hp).
  assert (cmass q == c) as Eq by (apply Hall; eapply list_elem_of_lookup_2; exact Hq).
  destruct (Qeq_bool (cmass q - cmass p) 0) eqn:E; [reflexivity|].
  apply Qeq_bool_neq in E. exfalso. apply E. rewrite Ep, Eq. ring.
Qed.

Lemma extrapolate_rows_flat (tbl new : list CurvePoint) (ranges : option (Q * Q)) (c : Q) :
  (2 <= length tbl)%nat -> Forall (fun p => cmass p == c) tbl ->
  extrapolate_rows tbl ranges <> Ok new.
Proof.
  intros Hlen Hall. unfold extrapolate_rows, mbind, outcome_bind.
  destruct tbl as [|a [|b t]]; [simpl in Hlen; lia | simpl in Hlen; lia|].
  remember (a :: b :: t) as pts eqn:Hpts.
  assert (interp1d pts = Ok (interp_at (sort_values cmass pts))) as -> by (subst pts; reflexivity).
  cbn [obind].
  destruct (or_nan _) as [r| |]; cbn [obind]; try discriminate.
  pose proof (length_linspace r.1 r.2 100) as Hl.
  destruct (linspace r.1 r.2 100) as [|x xs]; [discriminate Hl|].
  cbn [traverse]. unfold mbind, outcome_bind.
  rewrite (interp_at_flat (sort_values cmass pts) c x).
  - discriminate.
  - rewrite (Permutation_length (sort_values_perm cmass pts)). exact Hlen.
  - rewrite sort_values_perm. exact Hall.
Qed.

(** Beyond the ends of the curve the value continues the boundary
    segment: at mass 50 the curve through (100, 5) and (200, -5) gives
    10, not the boundary value 5. *)
Example extrapolate_not_clamped :
  exists (new : list CurvePoint) (p : CurvePoint),
    extrapolate_rows scenario_curve (Some (50, 250)) = Ok new /\
    new !! 0%nat = Some p /\ cmass p == 50 /\ cppm p == 10.
Proof.
  eexists _, _. split; [vm_compute; reflexivity|].
  split; [reflexivity|]. split; reflexivity.
Qed.

(** At the mass of one of its rows, the piecewise-linear function through
    a curve takes the ppm value of that row. *)
Lemma piecewise_linear_at_node (tbl : list CurvePoint) (i : nat) (r : CurvePoint) (x y : Q) :
  increasing tbl -> tbl !! i = Some r -> x == cmass r ->
  piecewise_linear tbl x y -> y == cppm r.
Proof.
  intros Hinc Hi Hx (j & p & q & Hp & Hq & Hy & Hcase).
  pose proof (increasing_lookup tbl j (S j) p q Hinc ltac:(lia) Hp Hq) as Hpq.
  unfold line_through in Hy. rewrite Hx in Hy. rewrite Hx in Hcase.
  assert (i < length tbl)%nat as Hlen by (eapply lookup_lt_Some; exact Hi).
  destruct (Nat.lt_trichotomy i j) as [Hlt | [-> | Hgt]].
  - pose proof (increasing_lookup tbl i j r p Hinc Hlt Hi Hp).
    destruct Hcase as [? | [[? ?] | [? ?]]]; [lra | lia | lra].
  - assert (r = p) as -> by congruence. rewrite Hy. field. lra.
  - destruct (decide (i = S j)) as [-> | Hne].
    + assert (r = q) as -> by congruence. rewrite Hy. field. lra.
    + pose proof (increasing_lookup tbl (S j) i q r Hinc ltac:(lia) Hq Hi).
      destruct Hcase as [? | [[? ?] | [? ?]]]; [lra | lra | lia].
Qed.

Lemma increasing_least (tbl : list CurvePoint) (first : CurvePoint) (lo : Q) :
  increasing tbl -> tbl !! 0%nat = Some first ->
  col_min (map cmass tbl) = Some lo -> lo = cmass first.
Proof.
  intros Hinc H0 Hmin. apply col_min_spec in Hmin as [Hin Hle].
  apply list_elem_of_In, in_map_iff in Hin as (r & <- & Hr).
  apply list_elem_of_In, list_elem_of_lookup in Hr as (i & Hi).
  destruct i as [|i]; [congruence|].
  pose proof (increasing_lookup tbl 0 (S i) first r Hinc ltac:(lia) H0 Hi).
  assert (cmass r <= cmass first).
  { apply Hle, list_elem_of_In, in_map, list_elem_of_In.
    eapply list_elem_of_lookup_2; exact H0. }
  lra.
Qed.

Lemma increasing_greatest (tbl : list CurvePoint) (last : CurvePoint) (hi : Q) :
  increasing tbl -> tbl !! (length tbl - 1)%nat = Some last ->
  col_max (map cmass tbl) = Some hi -> hi = cmass last.
Proof.
  intros Hinc Hn Hmax. apply col_max_spec in Hmax as [Hin Hge].
  apply list_elem_of_In, in_map_iff in Hin as (r & <- & Hr).
  apply list_elem_of_In, list_elem_of_lookup in Hr as (i & Hi).
  assert (i < length tbl)%nat as Hlen by (eapply lookup_lt_Some; exact Hi).
  destruct (decide (i = length tbl - 1)%nat) as [-> | Hne]; [congruence|].
  pose proof (increasing_lookup tbl i (length tbl - 1) r last Hinc ltac:(lia) Hi Hn).
  assert (cmass last <= cmass r).
  { apply Hge, list_elem_of_In, in_map, list_elem_of_In.
    eapply list_elem_of_lookup_2; exact Hn. }
  lra.
Qed.

(** [extrapolate] over the curve's own range keeps its two end points. *)
Theorem extrapolate_own_range_keeps_ends (tbl new : list CurvePoint)
    (first last : CurvePoint) :
  increasing tbl -> (2 <= length tbl)%nat ->
  tbl !! 0%nat = Some first -> tbl !! (length tbl - 1)%nat = Some last ->
  extrapolate_rows tbl None = Ok new ->
  exists a b : CurvePoint,
    new !! 0%nat = Some a /\ new !! 99%nat = Some b /\
    cmass a == cmass first /\ cppm a == cppm first /\
    cmass b = cmass last /\ cppm b == cppm last.
Proof.
  intros Hinc Hlen Hfirst Hlast Hrun.
  destruct (extrapolate_rows_spec tbl None Hinc Hlen)
    as (new0 & lo & hi & Hrun0 & [Hlo Hhi] & Hlen0 & Hmass & Hppm).
  assert (new0 = new) as -> by congruence.
  apply (increasing_least tbl first lo Hinc Hfirst) in Hlo.
  apply (increasing_greatest tbl last hi Hinc Hlast) in Hhi. subst lo hi.
  destruct (lookup_lt_is_Some_2 new 0) as [a Ha]; [lia|].
  destruct (lookup_lt_is_Some_2 new 99) as [b Hb]; [lia|].
  rewrite Forall_forall in Hppm.
  assert (cmass a == cmass first) as Hma.
  { rewrite <- (nth_map_lookup cmass new 0 a Ha), Hmass.
    rewrite (linspace_nth _ _ 99 0) by lia. change (Qnat 0) with 0. simpl. ring. }
  assert (cmass b = cmass last) as Hmb.
  { rewrite <- (nth_map_lookup cmass new 99 b Hb), Hmass.
    rewrite (linspace_nth _ _ 99 99) by lia. reflexivity. }
  exists a, b. split; [exact Ha | split; [exact Hb | split; [exact Hma | split; [|split]]]].
  - apply (piecewise_linear_at_node tbl 0 first (cmass a) _ Hinc Hfirst Hma).
    apply Hppm. eapply list_elem_of_lookup_2; exact Ha.
  - exact Hmb.
  - apply (piecewise_linear_at_node tbl (length tbl - 1) last (cmass b) _ Hinc Hlast).
    + rewrite Hmb. reflexivity.
    + apply Hppm. eapply list_elem_of_lookup_2; exact Hb.
Qed.

Lemma extrapolate_own_range_keeps_ends_witness :
  exists (new : list CurvePoint) (a b : CurvePoint),
    extrapolate_rows scenario_curve None = Ok new /\
    new !! 0%nat = Some a /\ new !! 99%nat = Some b /\
    cmass a == 100 /\ cppm a == 5 /\ cmass b = 200 /\ cppm b == -5.
Proof.
  destruct (extrapolate_rows scenario_curve None) as [new| |] eqn:E.
  - destruct (extrapolate_own_range_keeps_ends scenario_curve new (mkPoint 100 5)
                (mkPoint 200 (-5))) as (a & b & H).
    + repeat constructor.
    + simpl. lia.
    + reflexivity.
    + reflexivity.
    + exact E.
    + exists new, a, b. split; [reflexivity | exact H].
  - vm_compute in E. discriminate.
  - vm_compute in E. discriminate.
Defined.

Lemma increasing_zeroshift (c : Q) (tbl : list CurvePoint) :
  increasing tbl -> increasing (zeroshift_rows c tbl).
Proof.
  unfold increasing, zeroshift_rows.
  induction 1 as [|a tbl Hs IH Hall]; simpl; constructor; [exact IH|].
  apply Forall_forall. intros y Hy.
  apply list_elem_of_In, in_map_iff in Hy as (r & <- & Hr). simpl.
  rewrite Forall_forall in Hall. apply Hall, list_elem_of_In, Hr.
Qed.

Lemma cmass_zeroshift (c : Q) (tbl : list CurvePoint) :
  map cmass (zeroshift_rows c tbl) = map cmass tbl.
Proof. unfold zeroshift_rows. rewrite map_map. reflexivity. Qed.

(** The interpolant of the shifted curve is the shifted interpolant. *)
Lemma interp_at_zeroshift (pts : list CurvePoint) (c x y : Q) :
  (2 <= length pts)%nat -> interp_at pts x = Ok y ->
  exists y', interp_at (zeroshift_rows c pts) x = Ok y' /\ y' == y - c.
Proof.
  intros Hlen. unfold interp_at. cbv zeta.
  rewrite cmass_zeroshift, !length_map.
  set (idx := clip 1 (length pts - 1) (searchsorted (map cmass pts) x)).
  assert (1 <= idx <= length pts - 1)%nat as Hidx by (subst idx; unfold clip; lia).
  destruct (lookup_lt_is_Some_2 pts (idx - 1)) as [p Hp]; [lia|].
  destruct (lookup_lt_is_Some_2 pts idx) as [q Hq]; [lia|].
  unfold zeroshift_rows. rewrite map_map. cbn [cppm].
  rewrite (nth_map_lookup cmass pts (idx - 1) p Hp), (nth_map_lookup cmass pts idx q Hq).
  rewrite (nth_map_lookup cppm pts (idx - 1) p Hp), (nth_map_lookup cppm pts idx q Hq).
  rewrite (nth_map_lookup (fun r => cppm r - c) pts (idx - 1) p Hp).
  rewrite (nth_map_lookup (fun r => cppm r - c) pts idx q Hq).
  destruct (Qeq_bool (cmass q - cmass p) 0) eqn:E; [discriminate|].
  intros [= <-]. eexists. split; [reflexivity|].
  apply Qeq_bool_neq in E. field. exact E.
Qed.

(** [extrapolate] and the shift of [zeroshift] can be applied in either
    order: the curve extrapolated from the shifted rows is the shifted
    extrapolation. *)
Theorem extrapolate_zeroshift_commute (tbl new : list CurvePoint)
    (ranges : option (Q * Q)) (c : Q) :
  increasing tbl ->
  extrapolate_rows tbl ranges = Ok new ->
  exists new' : list CurvePoint,
    extrapolate_rows (zeroshift_rows c tbl) ranges = Ok new' /\
    Forall2 (fun a b => cmass a = cmass b /\ cppm a == cppm b)
            new' (zeroshift_rows c new).
Proof.
  intros Hinc. unfold extrapolate_rows. rewrite cmass_zeroshift.
  set (rg := match ranges with
             | Some r => Some r
             | None => match col_min (map cmass tbl), col_max (map cmass tbl) with
                       | Some lo, Some hi => Some (lo, hi)
                       | _, _ => None
                       end
             end).
  unfold mbind, outcome_bind.
  destruct tbl as [|p [|q tbl]].
  - discriminate.
  - cbn [interp1d obind]. destruct rg as [r|]; cbn [or_nan obind]; [|discriminate].
    rewrite traverse_nan; [discriminate|].
    intros E. pose proof (length_linspace r.1 r.2 100) as Hl. rewrite E in Hl. discriminate.
  - remember (p :: q :: tbl) as pts eqn:Hpts.
    assert (2 <= length pts)%nat as Hlen by (subst pts; simpl; lia).
    assert (interp1d pts = Ok (interp_at (sort_values cmass pts))) as -> by (subst pts; reflexivity).
    assert (interp1d (zeroshift_rows c pts)
            = Ok (interp_at (sort_values cmass (zeroshift_rows c pts)))) as ->
      by (subst pts; reflexivity).
    rewrite (increasing_sorted_id _ Hinc).
    rewrite (increasing_sorted_id _ (increasing_zeroshift c _ Hinc)).
    cbn [obind]. destruct rg as [r|]; cbn [or_nan obind]; [|discriminate].
    remember (linspace r.1 r.2 100) as xs eqn:Hxs. clear Hxs.
    destruct (traverse (interp_at pts) xs) as [ys| |] eqn:Hys; cbn [obind]; try discriminate.
    intros [= <-].
    destruct (traverse_rel (interp_at pts) (interp_at (zeroshift_rows c pts))
                (fun y' y => y' == y - c) _
                (fun x y => interp_at_zeroshift pts c x y Hlen) ys Hys) as (ys' & -> & Hrel).
    cbn [obind]. eexists. split; [reflexivity|].
    clear Hys. revert xs.
    induction Hrel as [|y' y ys' ys Hy Hrel IH]; intros [|x xs]; simpl;
      try (constructor; fail).
    constructor; [|apply IH]. cbn beta. split; [reflexivity | exact Hy].
Qed.

Lemma extrapolate_zeroshift_commute_witness :
  exists new new' : list CurvePoint,
    extrapolate_rows scenario_curve (Some (50, 250)) = Ok new /\
    extrapolate_rows (zeroshift_rows 1 scenario_curve) (Some (50, 250)) = Ok new' /\
    Forall2 (fun a b => cmass a = cmass b /\ cppm a == cppm b) new' (zeroshift_rows 1 new).
Proof.
  destruct (extrapolate_rows scenario_curve (Some (50, 250))) as [new| |] eqn:E.
  - destruct (extrapolate_zeroshift_commute scenario_curve new (Some (50, 250)) 1)
      as (new' & Hrun & Hrel).
    + repeat constructor.
    + exact E.
    + exists new, new'. split; [reflexivity | split; [exact Hrun | exact Hrel]].
  - vm_compute in E. discriminate.
  - vm_compute in E. discriminate.
Defined.

(* ===================================================================== *)
(** * Running computations on the store *)
(* ===================================================================== *)

Lemma st_bind_Ok {A B : Type} (m : St A) (f : A -> St B) (σ σ1 : store) (a : A) :
  m σ = Ok (a, σ1) -> st_bind m f σ = f a σ1.
Proof. unfold st_bind. intros ->. reflexivity. Qed.

Ltac st_step H := rewrite (st_bind_Ok _ _ _ _ _ H); cbn beta iota.

Lemma lift_Ok {A : Type} (m : outcome A) (a : A) (σ : store) :
  m = Ok a -> lift m σ = Ok (a, σ).
Proof. intros ->. reflexivity. Qed.

Lemma load_run (σ : store) (l : loc) (o : obj) :
  σ !! l = Some o -> load l σ = Ok (o, σ).
Proof. unfold load. intros ->. reflexivity. Qed.

Lemma alloc_run (σ : store) (o : obj) :
  alloc o σ = Ok (fresh (dom σ), <[fresh (dom σ) := o]> σ).
Proof. reflexivity. Qed.

Lemma write_run (σ : store) (l : loc) (o : obj) : write l o σ = Ok (tt, <[l := o]> σ).
Proof. reflexivity. Qed.

Lemma fresh_lookup (σ : store) : σ !! fresh (dom σ) = None.
Proof. apply not_elem_of_dom, is_fresh. Qed.

Lemma spec_fields_run (σ : store) (s t m : loc) :
  σ !! s = Some (SpectrumObj t m) -> spec_fields s σ = Ok ((t, m), σ).
Proof. intros Hs. unfold spec_fields. rewrite (st_bind_Ok _ _ _ _ _ (load_run _ _ _ Hs)). reflexivity. Qed.

Lemma etable_field_run (σ : store) (e t : loc) :
  σ !! e = Some (ErrorTableObj t) -> etable_field e σ = Ok (t, σ).
Proof. intros Hs. unfold etable_field. rewrite (st_bind_Ok _ _ _ _ _ (load_run _ _ _ Hs)). reflexivity. Qed.

Lemma get_frame_run (σ : store) (t : loc) (rows : list Peak) :
  σ !! t = Some (DataFrame rows) -> get_frame t σ = Ok (rows, σ).
Proof. intros Hs. unfold get_frame. rewrite (st_bind_Ok _ _ _ _ _ (load_run _ _ _ Hs)). reflexivity. Qed.

Lemma get_curve_run (σ : store) (t : loc) (rows : list CurvePoint) :
  σ !! t = Some (CurveFrame rows) -> get_curve t σ = Ok (rows, σ).
Proof. intros Hs. unfold get_curve. rewrite (st_bind_Ok _ _ _ _ _ (load_run _ _ _ Hs)). reflexivity. Qed.

Lemma get_meta_run (σ : store) (m : loc) (kv : gmap string string) :
  σ !! m = Some (MetaData kv) -> get_meta m σ = Ok (kv, σ).
Proof. intros Hs. unfold get_meta. rewrite (st_bind_Ok _ _ _ _ _ (load_run _ _ _ Hs)). reflexivity. Qed.

Lemma read_spectrum_run (σ : store) (s t m : loc) rows kv :
  σ !! s = Some (SpectrumObj t m) -> σ !! t = Some (DataFrame rows) ->
  σ !! m = Some (MetaData kv) ->
  read_spectrum s σ = Ok ({| table := rows; metadata := kv |}, σ).
Proof.
  intros Hs Ht Hm. unfold read_spectrum.
  rewrite (st_bind_Ok _ _ _ _ _ (spec_fields_run _ _ _ _ Hs)). simpl.
  rewrite (st_bind_Ok _ _ _ _ _ (get_frame_run _ _ _ Ht)).
  rewrite (st_bind_Ok _ _ _ _ _ (get_meta_run _ _ _ Hm)). reflexivity.
Qed.

Lemma read_spectrum_inv (σ σ0 : store) (s : loc) (v : Spectrum) :
  read_spectrum s σ = Ok (v, σ0) ->
  σ0 = σ /\ exists t m, σ !! s = Some (SpectrumObj t m)
                     /\ σ !! t = Some (DataFrame (table v))
                     /\ σ !! m = Some (MetaData (metadata v)).
Proof.
  unfold read_spectrum, spec_fields, get_frame, get_meta, st_bind, load, st_ret, lift.
  destruct (σ !! s) as [[| | |t m|]|] eqn:Hs; try discriminate.
  simpl.
  destruct (σ !! t) as [[rows| | | |]|] eqn:Ht; try discriminate.
  destruct (σ !! m) as [[| |kv| |]|] eqn:Hm; try discriminate.
  intros [= <- <-]. split; [reflexivity|]. exists t, m. auto.
Qed.

Lemma new_error_table_run (σ : store) (rows : list CurvePoint) :
  exists t e : loc,
    σ !! t = None /\ σ !! e = None /\ t ≠ e /\
    new_error_table rows σ
    = Ok (e, <[e := ErrorTableObj t]> (<[t := CurveFrame rows]> σ)).
Proof.
  set (t := fresh (dom σ)).
  set (σ1 := <[t := CurveFrame rows]> σ).
  set (e := fresh (dom σ1)).
  assert (σ !! t = None) as Ht by apply fresh_lookup.
  assert (σ1 !! e = None) as He by apply fresh_lookup.
  assert (t ≠ e) as Hte.
  { intros E. subst σ1. rewrite <- E, lookup_insert_eq in He. discriminate. }
  exists t, e. split; [exact Ht|]. split; [|split; [exact Hte|]].
  - subst σ1. rewrite lookup_insert_ne in He by congruence. assumption.
  - unfold new_error_table. st_step (alloc_run σ (CurveFrame rows)). reflexivity.
Qed.

Lemma spectrum_copy_run (σ : store) (s t m : loc) rows kv :
  σ !! s = Some (SpectrumObj t m) -> σ !! t = Some (DataFrame rows) ->
  σ !! m = Some (MetaData kv) ->
  exists t' m' s' : loc,
    σ !! t' = None /\ σ !! m' = None /\ σ !! s' = None /\
    t' ≠ m' /\ t' ≠ s' /\ m' ≠ s' /\
    spectrum_copy s σ
    = Ok (s', <[s' := SpectrumObj t' m']> (<[m' := MetaData kv]> (<[t' := DataFrame rows]> σ))).
Proof.
  intros Hs Ht Hm.
  set (t' := fresh (dom σ)).
  set (σ1 := <[t' := DataFrame rows]> σ).
  set (m' := fresh (dom σ1)).
  set (σ2 := <[m' := MetaData kv]> σ1).
  set (s' := fresh (dom σ2)).
  assert (σ !! t' = None) as Ht' by apply fresh_lookup.
  assert (σ1 !! m' = None) as Hm' by apply fresh_lookup.
  assert (σ2 !! s' = None) as Hs' by apply fresh_lookup.
  assert (t' ≠ m') as Htm.
  { intros E. subst σ1. rewrite <- E, lookup_insert_eq in Hm'. discriminate. }
  assert (m' ≠ s') as Hms.
  { intros E. subst σ2. rewrite <- E, lookup_insert_eq in Hs'. discriminate. }
  assert (t' ≠ s') as Hts.
  { intros E. subst σ2 σ1. rewrite <- E, lookup_insert_ne, lookup_insert_eq in Hs' by congruence.
    discriminate. }
  exists t', m', s'. repeat split; try assumption.
  - subst σ1. rewrite lookup_insert_ne in Hm' by congruence. assumption.
  - subst σ2 σ1. rewrite !lookup_insert_ne in Hs' by congruence. assumption.
  - unfold spectrum_copy.
    st_step (read_spectrum_run _ _ _ _ _ _ Hs Ht Hm).
    st_step (alloc_run σ (DataFrame rows)).
    st_step (alloc_run σ1 (MetaData kv)).
    reflexivity.
Qed.

Lemma lookup_insert2_other (σ : store) (l1 l2 l : loc) (o1 o2 o : obj) :
  <[l1 := o1]> (<[l2 := o2]> σ) !! l = Some o -> o <> o1 -> o <> o2 -> σ !! l = Some o.
Proof.
  intros Hl H1 H2.
  destruct (decide (l = l1)) as [->|Hn1]; [rewrite lookup_insert_eq in Hl; congruence|].
  rewrite lookup_insert_ne in Hl by congruence.
  destruct (decide (l = l2)) as [->|Hn2]; [rewrite lookup_insert_eq in Hl; congruence|].
  rewrite lookup_insert_ne in Hl by congruence. exact Hl.
Qed.

Lemma untouched_refl (σ : store) : untouched σ σ.
Proof. intros l o Hl. assumption. Qed.

Lemma untouched_trans (σ1 σ2 σ3 : store) :
  untouched σ1 σ2 -> untouched σ2 σ3 -> untouched σ1 σ3.
Proof. intros H12 H23 l o Hl. auto. Qed.

Lemma untouched_insert (σ σ' : store) (l : loc) (o : obj) :
  untouched σ σ' -> σ !! l = None -> untouched σ (<[l := o]> σ').
Proof.
  intros Hu Hl k o' Hk. rewrite lookup_insert_ne by congruence. auto.
Qed.

Lemma untouched_None (σ σ' : store) (l : loc) :
  untouched σ σ' -> σ' !! l = None -> σ !! l = None.
Proof.
  intros Hu Hl. destruct (σ !! l) as [o|] eqn:E; [|reflexivity].
  apply Hu in E. congruence.
Qed.

(* ===================================================================== *)
(** * recallibrate on the store *)
(* ===================================================================== *)

(** Lines 78-80 on the store are [correct_row] on the table. *)
Lemma st_correct_row_run (σ : store) (s t m : loc) (tbl : list Peak) (ppm : Q) (ind : nat) :
  σ !! s = Some (SpectrumObj t m) -> σ !! t = Some (DataFrame tbl) ->
  st_correct_row s ppm ind σ = Ok (tt, <[t := DataFrame (correct_row ppm tbl ind)]> σ).
Proof.
  intros Hs Ht. unfold st_correct_row.
  rewrite (st_bind_Ok _ _ _ _ _ (spec_fields_run _ _ _ _ Hs)). simpl.
  rewrite (st_bind_Ok _ _ _ _ _ (get_frame_run _ _ _ Ht)). reflexivity.
Qed.

Lemma st_correct_rows_run (s t m : loc) (ppm : Q) (idxs : list nat) :
  forall (σ : store) (tbl : list Peak),
  σ !! s = Some (SpectrumObj t m) -> σ !! t = Some (DataFrame tbl) ->
  st_for idxs (st_correct_row s ppm) σ
  = Ok (tt, <[t := DataFrame (fold_left (correct_row ppm) idxs tbl)]> σ).
Proof.
  induction idxs as [|ind idxs IH]; intros σ tbl Hs Ht; simpl.
  - unfold st_ret. rewrite insert_id by assumption. reflexivity.
  - assert (s ≠ t) as Hne by congruence.
    rewrite (st_bind_Ok _ _ _ _ _ (st_correct_row_run _ _ _ _ _ ppm ind Hs Ht)).
    rewrite (IH _ (correct_row ppm tbl ind)).
    + rewrite insert_insert_eq. reflexivity.
    + rewrite lookup_insert_ne by congruence. assumption.
    + apply lookup_insert_eq.
Qed.

Lemma st_correct_bin_run (σ : store) (s t m : loc) (tbl : list Peak) a err (i : nat) :
  σ !! s = Some (SpectrumObj t m) -> σ !! t = Some (DataFrame tbl) ->
  st_correct_bin s a err i σ = Ok (tt, <[t := DataFrame (correct_bin a err tbl i)]> σ).
Proof.
  intros Hs Ht. unfold st_correct_bin.
  rewrite (st_bind_Ok _ _ _ _ _ (spec_fields_run _ _ _ _ Hs)). simpl.
  rewrite (st_bind_Ok _ _ _ _ _ (get_frame_run _ _ _ Ht)).
  apply (st_correct_rows_run s t m); assumption.
Qed.

Lemma st_correct_bins_run (s t m : loc) a err (bins : list nat) :
  forall (σ : store) (tbl : list Peak),
  σ !! s = Some (SpectrumObj t m) -> σ !! t = Some (DataFrame tbl) ->
  st_for bins (st_correct_bin s a err) σ
  = Ok (tt, <[t := DataFrame (fold_left (correct_bin a err) bins tbl)]> σ).
Proof.
  induction bins as [|i bins IH]; intros σ tbl Hs Ht; simpl.
  - unfold st_ret. rewrite insert_id by assumption. reflexivity.
  - assert (s ≠ t) as Hne by congruence.
    rewrite (st_bind_Ok _ _ _ _ _ (st_correct_bin_run _ _ _ _ _ a err i Hs Ht)).
    rewrite (IH _ (correct_bin a err tbl i)).
    + rewrite insert_insert_eq. reflexivity.
    + rewrite lookup_insert_ne by congruence. assumption.
    + apply lookup_insert_eq.
Qed.

(** Lines 68-84 on a store in which [s] is a spectrum and [e] an error
    table: two new objects (the copy [err] and the re-indexed table), the
    spectrum object [s] and its metadata written, nothing else. *)
Lemma apply_error_table_run (σ : store) (s t m e te : loc) rows kv curve how :
  σ !! s = Some (SpectrumObj t m) -> σ !! t = Some (DataFrame rows) ->
  σ !! m = Some (MetaData kv) ->
  σ !! e = Some (ErrorTableObj te) -> σ !! te = Some (CurveFrame curve) ->
  exists c t' : loc,
    σ !! c = None /\ σ !! t' = None /\ c ≠ t' /\
    apply_error_table s e how σ
    = Ok (s, <[m := MetaData (<["recallibrate" := how]> kv)]>
               (<[t' := DataFrame (recal_loop curve rows)]>
                  (<[s := SpectrumObj t' m]>
                     (<[t' := DataFrame rows]> (<[c := CurveFrame curve]> σ))))).
Proof.
  intros Hs Ht Hm He Hte.
  set (c := fresh (dom σ)).
  set (σ1 := <[c := CurveFrame curve]> σ).
  set (t' := fresh (dom σ1)).
  set (σ2 := <[t' := DataFrame rows]> σ1).
  set (σ3 := <[s := SpectrumObj t' m]> σ2).
  assert (σ !! c = None) as Hc by apply fresh_lookup.
  assert (σ1 !! t' = None) as Ht' by apply fresh_lookup.
  assert (c ≠ t') as Hct.
  { intros E. subst σ1. rewrite <- E, lookup_insert_eq in Ht'. discriminate. }
  assert (σ !! t' = None) as Ht'0.
  { subst σ1. rewrite lookup_insert_ne in Ht' by congruence. assumption. }
  assert (s ≠ c /\ t ≠ c /\ m ≠ c /\ s ≠ t' /\ m ≠ t' /\ s ≠ m /\ s ≠ t)
    as (Hsc & Htc & Hmc & Hst' & Hmt' & Hsm & Hst) by (repeat split; congruence).
  exists c, t'. repeat split; try assumption.
  unfold apply_error_table.
  st_step (etable_field_run _ _ _ He).
  st_step (get_curve_run _ _ _ Hte).
  st_step (alloc_run σ (CurveFrame curve)). fold c σ1.
  assert (σ1 !! s = Some (SpectrumObj t m)) as Hs1
    by (subst σ1; rewrite lookup_insert_ne by congruence; assumption).
  assert (σ1 !! t = Some (DataFrame rows)) as Ht1
    by (subst σ1; rewrite lookup_insert_ne by congruence; assumption).
  st_step (spec_fields_run _ _ _ _ Hs1). cbn [fst snd].
  st_step (get_frame_run _ _ _ Ht1).
  st_step (alloc_run σ1 (DataFrame rows)). fold t' σ2.
  st_step (write_run σ2 s (SpectrumObj t' m)). fold σ3.
  assert (σ3 !! c = Some (CurveFrame curve)) as Hc3.
  { subst σ3 σ2 σ1. rewrite !lookup_insert_ne by congruence. apply lookup_insert_eq. }
  st_step (get_curve_run _ _ _ Hc3).
  assert (σ3 !! s = Some (SpectrumObj t' m)) as Hs3 by apply lookup_insert_eq.
  assert (σ3 !! t' = Some (DataFrame rows)) as Ht3.
  { subst σ3 σ2. rewrite lookup_insert_ne by congruence. apply lookup_insert_eq. }
  st_step (st_correct_bins_run s t' m (bin_edges curve) curve (seq 0 (length curve))
             σ3 rows Hs3 Ht3).
  rewrite <- recal_loop_unfold.
  set (σ4 := <[t' := DataFrame (recal_loop curve rows)]> σ3).
  assert (σ4 !! s = Some (SpectrumObj t' m)) as Hs4.
  { subst σ4. rewrite lookup_insert_ne by congruence. assumption. }
  assert (σ4 !! m = Some (MetaData kv)) as Hm4.
  { subst σ4 σ3 σ2 σ1. rewrite !lookup_insert_ne by congruence. assumption. }
  st_step (spec_fields_run _ _ _ _ Hs4). cbn [fst snd].
  unfold metadata_add.
  rewrite (st_bind_Ok _ _ _ _ _ (st_bind_Ok _ _ _ _ _ (get_meta_run _ _ _ Hm4))).
  reflexivity.
Qed.

Lemma apply_error_table_Ok_inv (σ σ' : store) (s e r : loc) how :
  apply_error_table s e how σ = Ok (r, σ') ->
  exists te curve, σ !! e = Some (ErrorTableObj te) /\ σ !! te = Some (CurveFrame curve).
Proof.
  unfold apply_error_table, st_bind at 1 2, etable_field, get_curve, st_bind at 1 2, load.
  destruct (σ !! e) as [[]|] eqn:He; simpl; try discriminate.
  destruct (σ !! tbl) as [[]|] eqn:Hte; simpl; try discriminate.
  eauto.
Qed.

Section Recallibrate.
Context `{Collaborators}.

Lemma choose_error_table_untouched (σ σ1 : store) (s e : loc) error_table how :
  choose_error_table s error_table how σ = Ok (e, σ1) -> untouched σ σ1.
Proof.
  destruct error_table as [e0|]; simpl.
  - intros [= _ <-]. apply untouched_refl.
  - unfold st_bind at 1.
    destruct (read_spectrum s σ) as [[v σ0]| |] eqn:Hread; try discriminate.
    apply read_spectrum_inv in Hread as [-> _].
    unfold st_bind at 1, lift.
    destruct (compute_error_table v how) as [rows| |]; try discriminate.
    unfold new_error_table. rewrite (st_bind_Ok _ _ _ _ _ (alloc_run σ (CurveFrame rows))).
    rewrite alloc_run. intros [= _ <-].
    apply untouched_insert.
    + apply untouched_insert; [apply untouched_refl | apply fresh_lookup].
    + eapply untouched_None; [|apply fresh_lookup].
      apply untouched_insert; [apply untouched_refl | apply fresh_lookup].
Qed.

(** The run of [recallibrate] on a store in which [s] is a spectrum. *)
Lemma recallibrate_Ok_inv (σ σ' : store) (s t m s' : loc) rows kv error_table how draw :
  σ !! s = Some (SpectrumObj t m) -> σ !! t = Some (DataFrame rows) ->
  σ !! m = Some (MetaData kv) ->
  recallibrate s error_table how draw σ = Ok (s', σ') ->
  untouched σ σ' /\ σ !! s' = None /\
  exists (t' m' e te : loc) (curve : list CurvePoint),
    σ !! t' = None /\ σ !! m' = None /\
    σ' !! s' = Some (SpectrumObj t' m') /\
    σ' !! t' = Some (DataFrame (recal_loop curve rows)) /\
    σ' !! m' = Some (MetaData (<["recallibrate" := how]> kv)) /\
    σ' !! e = Some (ErrorTableObj te) /\ σ' !! te = Some (CurveFrame curve) /\
    (forall e0, error_table = Some e0 ->
                e = e0 /\ σ !! e = Some (ErrorTableObj te)
                /\ σ !! te = Some (CurveFrame curve)).
Proof.
  intros Hs Ht Hm Hrun.
  destruct (spectrum_copy_run σ s t m rows kv Hs Ht Hm)
    as (t1 & m1 & s1 & Ht1 & Hm1 & Hs1 & Htm & Hts & Hms & Hcopy).
  unfold recallibrate in Hrun. rewrite (st_bind_Ok _ _ _ _ _ Hcopy) in Hrun.
  set (σc := <[s1 := SpectrumObj t1 m1]> (<[m1 := MetaData kv]> (<[t1 := DataFrame rows]> σ))) in *.
  assert (untouched σ σc) as Hc.
  { subst σc. repeat (apply untouched_insert; [|assumption]). apply untouched_refl. }
  unfold st_bind at 1 in Hrun.
  destruct (choose_error_table s1 error_table how σc) as [[e σ1]| |] eqn:Hch; try discriminate.
  pose proof (choose_error_table_untouched _ _ _ _ _ _ Hch) as H1.
  destruct (apply_error_table_Ok_inv _ _ _ _ _ _ Hrun) as (te & curve & He & Hte).
  assert (σ1 !! s1 = Some (SpectrumObj t1 m1)) as Hs1' by (apply H1, lookup_insert_eq).
  assert (σ1 !! t1 = Some (DataFrame rows)) as Ht1'.
  { apply H1. subst σc. rewrite !lookup_insert_ne by congruence. apply lookup_insert_eq. }
  assert (σ1 !! m1 = Some (MetaData kv)) as Hm1'.
  { apply H1. subst σc. rewrite lookup_insert_ne by congruence. apply lookup_insert_eq. }
  destruct (apply_error_table_run σ1 s1 t1 m1 e te rows kv curve how Hs1' Ht1' Hm1' He Hte)
    as (c & t' & Hc1 & Ht'1 & Hct & Happ).
  rewrite Happ in Hrun. injection Hrun as <- <-.
  assert (untouched σ σ1) as H01 by (eapply untouched_trans; eassumption).
  assert (σ !! c = None) as Hc0 by (eapply untouched_None; eassumption).
  assert (σ !! t' = None) as Ht'0 by (eapply untouched_None; eassumption).
  assert (s1 ≠ t' /\ m1 ≠ t' /\ s1 ≠ c /\ m1 ≠ c /\ e ≠ t' /\ e ≠ c /\ te ≠ t' /\ te ≠ c
          /\ e ≠ s1 /\ e ≠ m1 /\ te ≠ s1 /\ te ≠ m1 /\ e ≠ t1 /\ te ≠ t1)
    as (? & ? & ? & ? & ? & ? & ? & ? & ? & ? & ? & ? & ? & ?) by (repeat split; congruence).
  split; [|split; [assumption|]].
  - repeat (apply untouched_insert; [|assumption]). assumption.
  - exists t', m1, e, te, curve. repeat split; try assumption.
    + rewrite !lookup_insert_ne by congruence. apply lookup_insert_eq.
    + rewrite lookup_insert_ne by congruence. apply lookup_insert_eq.
    + apply lookup_insert_eq.
    + rewrite !lookup_insert_ne by congruence. assumption.
    + rewrite !lookup_insert_ne by congruence. assumption.
    + subst error_table. simpl in Hch. injection Hch as E1 E2. congruence.
    + subst error_table. simpl in Hch. injection Hch as E1 E2.
      rewrite <- E2 in He. unfold σc in He.
      rewrite !lookup_insert_ne in He by congruence. assumption.
    + subst error_table. simpl in Hch. injection Hch as E1 E2.
      rewrite <- E2 in Hte. unfold σc in Hte.
      rewrite !lookup_insert_ne in Hte by congruence. assumption.
Qed.

(** With an error table given, [recallibrate] returns on every store in
    which its arguments are a spectrum and an error table. *)
Lemma recallibrate_returns (σ : store) (s t m e te : loc) rows kv curve how draw :
  σ !! s = Some (SpectrumObj t m) -> σ !! t = Some (DataFrame rows) ->
  σ !! m = Some (MetaData kv) ->
  σ !! e = Some (ErrorTableObj te) -> σ !! te = Some (CurveFrame curve) ->
  exists (s' : loc) (σ' : store), recallibrate s (Some e) how draw σ = Ok (s', σ').
Proof.
  intros Hs Ht Hm He Hte.
  destruct (spectrum_copy_run σ s t m rows kv Hs Ht Hm)
    as (t1 & m1 & s1 & Ht1 & Hm1 & Hs1 & Htm & Hts & Hms & Hcopy).
  set (σc := <[s1 := SpectrumObj t1 m1]> (<[m1 := MetaData kv]> (<[t1 := DataFrame rows]> σ))) in *.
  assert (untouched σ σc) as Hc.
  { subst σc. repeat (apply untouched_insert; [|assumption]). apply untouched_refl. }
  assert (σc !! s1 = Some (SpectrumObj t1 m1)) as Hs1' by apply lookup_insert_eq.
  assert (σc !! t1 = Some (DataFrame rows)) as Ht1'.
  { subst σc. rewrite !lookup_insert_ne by congruence. apply lookup_insert_eq. }
  assert (σc !! m1 = Some (MetaData kv)) as Hm1'.
  { subst σc. rewrite lookup_insert_ne by congruence. apply lookup_insert_eq. }
  destruct (apply_error_table_run σc s1 t1 m1 e te rows kv curve how Hs1' Ht1' Hm1'
              (Hc _ _ He) (Hc _ _ Hte)) as (c & t' & _ & _ & _ & Happ).
  eexists _, _. unfold recallibrate.
  st_step Hcopy. unfold choose_error_table. unfold st_bind at 1, st_ret. exact Happ.
Qed.

(** C8. [recallibrate] leaves every object of the store it is called on
    as it was, the spectrum it is given, its rows and its metadata among
    them. It returns a new spectrum object with a table and a metadata
    dictionary of its own; the rows of that table are the rows of the
    given spectrum with only [mass] changed, and its metadata is the
    given metadata with the entry ['recallibrate'] set to [how]. With an
    error table given it always returns. *)
Theorem recallibrate_keeps_its_argument (σ : store) (s t m : loc)
    (rows : list Peak) (kv : gmap string string) :
  σ !! s = Some (SpectrumObj t m) -> σ !! t = Some (DataFrame rows) ->
  σ !! m = Some (MetaData kv) ->
  (forall (e te : loc) (curve : list CurvePoint) (how : string) (draw : bool),
     σ !! e = Some (ErrorTableObj te) -> σ !! te = Some (CurveFrame curve) ->
     exists (s' : loc) (σ' : store), recallibrate s (Some e) how draw σ = Ok (s', σ')) /\
  (forall (error_table : option loc) (how : string) (draw : bool) (s' : loc) (σ' : store),
     recallibrate s error_table how draw σ = Ok (s', σ') ->
     untouched σ σ' /\
     σ !! s' = None /\
     exists (t' m' : loc) (rows' : list Peak),
       σ !! t' = None /\ σ !! m' = None /\
       σ' !! s' = Some (SpectrumObj t' m') /\
       σ' !! t' = Some (DataFrame rows') /\
       Forall2 same_but_mass rows rows' /\
       σ' !! m' = Some (MetaData (<["recallibrate" := how]> kv))).
Proof.
  intros Hs Ht Hm. split.
  - intros e te curve how draw He Hte.
    exact (recallibrate_returns σ s t m e te rows kv curve how draw Hs Ht Hm He Hte).
  - intros error_table how draw s' σ' Hrun.
    destruct (recallibrate_Ok_inv σ σ' s t m s' rows kv error_table how draw Hs Ht Hm Hrun)
      as (Hun & Hnew & t' & m' & e & te & curve & Ht' & Hm' & Hs' & Htbl & Hmeta & _).
    split; [exact Hun | split; [exact Hnew|]].
    exists t', m', (recal_loop curve rows).
    repeat split; try assumption. apply recal_loop_frame.
Qed.

(** C3, as the code has it. On the spectrum of masses
    [100.0000, 100.0100, 200.0050] and the curve
    [(100, 5 ppm), (200, -5 ppm)], [recallibrate] returns the masses
    [100.0000, 100.01050005, 200.0050]: the peak at 200.0050 lies above
    the last bin edge 200 and keeps its mass. *)
Theorem recallibrate_scenario (σ : store) (s t m e te : loc) (rows : list Peak)
    (kv : gmap string string) (how : string) (draw : bool) :
  σ !! s = Some (SpectrumObj t m) -> σ !! t = Some (DataFrame rows) ->
  σ !! m = Some (MetaData kv) ->
  σ !! e = Some (ErrorTableObj te) -> σ !! te = Some (CurveFrame scenario_curve) ->
  map mass rows = [100; 100.01; 200.005] -> map intensity rows = [10; 5; 8] ->
  exists (s' : loc) (σ' : store) (masses : list Q),
    recallibrate s (Some e) how draw σ = Ok (s', σ') /\
    masses_at s' σ' = Some masses /\
    Forall2 Qeq masses [100; 100.01050005; 200.005].
Proof.
  intros Hs Ht Hm He Hte Hmass _.
  destruct (recallibrate_returns σ s t m e te rows kv scenario_curve how draw Hs Ht Hm He Hte)
    as (s' & σ' & Hrun).
  destruct (recallibrate_Ok_inv σ σ' s t m s' rows kv (Some e) how draw Hs Ht Hm Hrun)
    as (_ & _ & t' & m' & e' & te' & curve & _ & _ & Hs' & Htbl & Hmeta & _ & _ & Hcurve).
  destruct (Hcurve e eq_refl) as (-> & He' & Hte').
  assert (curve = scenario_curve) as -> by congruence.
  exists s', σ', (map mass (recal_loop scenario_curve rows)).
  split; [exact Hrun | split].
  - unfold masses_at. rewrite (read_spectrum_run _ _ _ _ _ _ Hs' Htbl Hmeta). reflexivity.
  - destruct rows as [|[m1 i1 a1 r1] [|[m2 i2 a2 r2] [|[m3 i3 a3 r3] [|]]]]; try discriminate.
    simpl in Hmass. injection Hmass as -> -> ->.
    vm_compute. repeat constructor; discriminate.
Qed.

End Recallibrate.

Lemma recallibrate_keeps_its_argument_witness :
  exists (s' : loc) (σ' : store),
    @recallibrate bench 1%positive (Some 4%positive) "assign" true
      (lab_store scenario_rows scenario_curve) = Ok (s', σ') /\
    untouched (lab_store scenario_rows scenario_curve) σ' /\
    lab_store scenario_rows scenario_curve !! s' = None.
Proof.
  destruct (@recallibrate_keeps_its_argument bench
              (lab_store scenario_rows scenario_curve) 1%positive 2%positive 3%positive
              scenario_rows ∅ eq_refl eq_refl eq_refl) as [Hret Hkeep].
  destruct (Hret 4%positive 5%positive scenario_curve "assign" true eq_refl eq_refl)
    as (s' & σ' & Hrun).
  exists s', σ'. split; [exact Hrun|].
  destruct (Hkeep (Some 4%positive) "assign" true s' σ' Hrun) as (Hu & Hn & _).
  split; assumption.
Defined.

Lemma recallibrate_scenario_witness :
  exists (s' : loc) (σ' : store) (masses : list Q),
    @recallibrate bench 1%positive (Some 4%positive) "assign" true
      (lab_store scenario_rows scenario_curve) = Ok (s', σ') /\
    masses_at s' σ' = Some masses /\
    Forall2 Qeq masses [100; 100.01050005; 200.005].
Proof.
  apply (@recallibrate_scenario bench (lab_store scenario_rows scenario_curve)
           1%positive 2%positive 3%positive 4%positive 5%positive scenario_rows ∅
           "assign" true); reflexivity.
Defined.

(** C3, as the specification states it, fails: the third mass the code
    returns is 200.0050, not 199.9960, whatever the rounding to four
    decimals. *)
Lemma recallibrate_scenario_not_as_stated :
  exists masses : list Q,
    lab_recallibrate scenario_rows scenario_curve = Some masses /\
    ~ Forall2 (fun x c => Qabs (x - c) <= 0.00005) masses [100; 100.0105; 199.996].
Proof.
  eexists. split; [vm_compute; reflexivity|].
  intros Hall.
  inversion Hall as [|? ? ? ? _ Hall1]; subst.
  inversion Hall1 as [|? ? ? ? _ Hall2]; subst.
  inversion Hall2 as [|? ? ? ? H3 _]; subst.
  vm_compute in H3. apply H3. reflexivity.
Qed.

(** C1 at a peak just below a bin edge: the peak of mass 149.9999 is
    corrected in bin 0 (by +5 ppm), which moves it over the edge 150 into
    bin 1, where it is corrected again (by -5 ppm). *)
Lemma recallibrate_corrects_twice :
  exists m : Q,
    lab_recallibrate [mkPeak 149.9999 1 false None] scenario_curve = Some [m] /\
    m == (149.9999 + 149.9999 * 5 / 1000000)
         + (149.9999 + 149.9999 * 5 / 1000000) * (-5) / 1000000 /\
    ~ m == 149.9999 + 149.9999 * 5 / 1000000.
Proof.
  eexists. split; [vm_compute; reflexivity|]. split.
  - vm_compute. reflexivity.
  - intros E. vm_compute in E. discriminate.
Qed.

(* ===================================================================== *)
(** * ErrorTable.extrapolate and ErrorTable.zeroshift on the store *)
(* ===================================================================== *)

(** C4. [extrapolate] on a curve of increasing masses (two rows or
    more) returns a new error table of 100 rows whose masses are
    [linspace] over the target range (the curve's own range when none is
    given) and whose ppm values lie on the piecewise-linear function
    through the curve, continued beyond its ends by the lines of the
    first and last segments; every object of the store, the source curve
    among them, is left as it was. *)
Theorem extrapolate_curve (σ : store) (self t : loc) (tbl : list CurvePoint)
    (ranges : option (Q * Q)) :
  σ !! self = Some (ErrorTableObj t) -> σ !! t = Some (CurveFrame tbl) ->
  increasing tbl -> (2 <= length tbl)%nat ->
  exists (r t' : loc) (σ' : store) (new : list CurvePoint) (lo hi : Q),
    extrapolate self ranges σ = Ok (r, σ') /\
    match ranges with
    | Some rg => lo = fst rg /\ hi = snd rg
    | None => col_min (map cmass tbl) = Some lo /\ col_max (map cmass tbl) = Some hi
    end /\
    length new = 100%nat /\
    map cmass new = linspace lo hi 100 /\
    Forall (fun pt => piecewise_linear tbl (cmass pt) (cppm pt)) new /\
    σ !! r = None /\ σ !! t' = None /\
    σ' !! r = Some (ErrorTableObj t') /\ σ' !! t' = Some (CurveFrame new) /\
    untouched σ σ'.
Proof.
  intros Hself Ht Hinc Hlen.
  destruct (extrapolate_rows_spec tbl ranges Hinc Hlen)
    as (new & lo & hi & Hnew & Hrange & Hlen' & Hmass & Hppm).
  destruct (new_error_table_run σ new) as (t' & r & Ht' & Hr & Htr & Hrun).
  exists r, t', (<[r := ErrorTableObj t']> (<[t' := CurveFrame new]> σ)), new, lo, hi.
  split.
  { unfold extrapolate.
    st_step (etable_field_run _ _ _ Hself).
    st_step (get_curve_run _ _ _ Ht).
    st_step (lift_Ok _ _ σ Hnew). exact Hrun. }
  do 6 (split; [assumption|]).
  split; [apply lookup_insert_eq|].
  split; [rewrite lookup_insert_ne by congruence; apply lookup_insert_eq|].
  repeat (apply untouched_insert; [|assumption]). apply untouched_refl.
Qed.

Lemma extrapolate_curve_witness :
  exists (r t' : loc) (σ' : store) (new : list CurvePoint) (lo hi : Q),
    extrapolate 4%positive (Some (50, 250)) (lab_store [] scenario_curve) = Ok (r, σ') /\
    (lo = 50 /\ hi = 250) /\
    length new = 100%nat /\
    map cmass new = linspace lo hi 100 /\
    Forall (fun pt => piecewise_linear scenario_curve (cmass pt) (cppm pt)) new /\
    lab_store [] scenario_curve !! r = None /\
    lab_store [] scenario_curve !! t' = None /\
    σ' !! r = Some (ErrorTableObj t') /\ σ' !! t' = Some (CurveFrame new) /\
    untouched (lab_store [] scenario_curve) σ'.
Proof.
  apply (extrapolate_curve (lab_store [] scenario_curve) 4%positive 5%positive scenario_curve
           (Some (50, 250)) eq_refl eq_refl).
  - repeat constructor.
  - simpl. lia.
Defined.

Section Zeroshift.
Context `{Collaborators}.

(** C7. [zeroshift] returns a new error table in which every ppm value
    is the value of the source curve minus the mean of the relative
    errors of the assigned peaks of the reference spectrum; every object
    of the store, the table of the source curve among them, is left as it
    was. *)
Theorem zeroshift_curve (σ : store) (self t spec ts ms : loc) (tbl : list CurvePoint)
    (rows : list Peak) (kv : gmap string string) (sp : Spectrum) (errs : list Q) :
  σ !! self = Some (ErrorTableObj t) -> σ !! t = Some (CurveFrame tbl) ->
  σ !! spec = Some (SpectrumObj ts ms) -> σ !! ts = Some (DataFrame rows) ->
  σ !! ms = Some (MetaData kv) ->
  spectrum_calc_error (drop_unassigned {| table := rows; metadata := kv |}) = Ok sp ->
  omap rel_error (table sp) = errs -> errs <> [] ->
  let mean := Qsum errs / Qnat (length errs) in
  exists (r t' : loc) (σ' : store),
    zeroshift self spec σ = Ok (r, σ') /\
    σ !! r = None /\ σ !! t' = None /\
    σ' !! r = Some (ErrorTableObj t') /\
    σ' !! t' = Some (CurveFrame (map (fun p => mkPoint (cmass p) (cppm p - mean)) tbl)) /\
    untouched σ σ'.
Proof.
  intros Hself Ht Hs Hts Hms Hsp Herrs Hne mean.
  assert (mean_rel_error {| table := rows; metadata := kv |} = Ok mean) as Hmean.
  { unfold mean_rel_error, mbind, outcome_bind. rewrite Hsp. cbn [obind].
    unfold series_mean. rewrite omap_id_map, Herrs.
    destruct errs as [|x errs']; [congruence | reflexivity]. }
  destruct (new_error_table_run σ tbl) as (t1 & e1 & Ht1 & He1 & Hte & Hnew).
  set (σ2 := <[e1 := ErrorTableObj t1]> (<[t1 := CurveFrame tbl]> σ)) in *.
  assert (untouched σ σ2) as H2.
  { subst σ2. repeat (apply untouched_insert; [|assumption]). apply untouched_refl. }
  assert (σ2 !! e1 = Some (ErrorTableObj t1)) as He2 by apply lookup_insert_eq.
  assert (σ2 !! t1 = Some (CurveFrame tbl)) as Ht2.
  { subst σ2. rewrite lookup_insert_ne by congruence. apply lookup_insert_eq. }
  set (σ3 := <[t1 := CurveFrame (zeroshift_rows mean tbl)]> σ2).
  assert (σ3 !! e1 = Some (ErrorTableObj t1)) as He3.
  { subst σ3. rewrite lookup_insert_ne by congruence. assumption. }
  assert (σ3 !! t1 = Some (CurveFrame (zeroshift_rows mean tbl))) as Ht3
    by apply lookup_insert_eq.
  pose proof (fresh_lookup σ3) as Hr3.
  set (r := fresh (dom σ3)) in *.
  assert (r ≠ t1 /\ r ≠ e1) as [Hrt Hre] by (split; intros E; rewrite E in Hr3; congruence).
  exists r, t1, (<[r := ErrorTableObj t1]> σ3).
  split; [|split; [|split; [exact Ht1 | split; [|split]]]].
  - unfold zeroshift.
    st_step (etable_field_run _ _ _ Hself).
    st_step (get_curve_run _ _ _ Ht).
    st_step Hnew. fold σ2.
    st_step (read_spectrum_run _ _ _ _ _ _ (H2 _ _ Hs) (H2 _ _ Hts) (H2 _ _ Hms)).
    st_step (lift_Ok _ _ σ2 Hmean).
    st_step (etable_field_run _ _ _ He2).
    st_step (get_curve_run _ _ _ Ht2).
    st_step (write_run σ2 t1 (CurveFrame (zeroshift_rows mean tbl))). fold σ3.
    st_step (etable_field_run _ _ _ He3).
    reflexivity.
  - subst σ3 σ2. rewrite !lookup_insert_ne in Hr3 by congruence. exact Hr3.
  - apply lookup_insert_eq.
  - rewrite lookup_insert_ne by congruence. exact Ht3.
  - apply untouched_insert.
    + subst σ3. apply untouched_insert; [exact H2 | exact Ht1].
    + subst σ3 σ2. rewrite !lookup_insert_ne in Hr3 by congruence. exact Hr3.
Qed.

End Zeroshift.

Lemma zeroshift_curve_witness :
  exists (r t' : loc) (σ' : store),
    @zeroshift bench 4%positive 1%positive (lab_store assigned_rows scenario_curve)
    = Ok (r, σ') /\
    σ' !! r = Some (ErrorTableObj t') /\
    σ' !! t' = Some (CurveFrame [mkPoint 100 (5 - (0 + 1 + 2) / Qnat 2);
                                 mkPoint 200 (-5 - (0 + 1 + 2) / Qnat 2)]) /\
    untouched (lab_store assigned_rows scenario_curve) σ'.
Proof.
  destruct (@zeroshift_curve bench (lab_store assigned_rows scenario_curve)
              4%positive 5%positive 1%positive 2%positive 3%positive scenario_curve
              assigned_rows ∅ (drop_unassigned {| table := assigned_rows; metadata := ∅ |})
              [1; 2] eq_refl eq_refl eq_refl eq_refl eq_refl eq_refl eq_refl
              ltac:(discriminate))
    as (r & t' & σ' & Hrun & _ & _ & Hr & Ht' & Hu).
  exists r, t', σ'. split; [exact Hrun | split; [exact Hr | split; [exact Ht' | exact Hu]]].
Defined.

(* ===================================================================== *)
(** * The strategies and the errors they pass on *)
(* ===================================================================== *)

Section Pipelines.
Context `{Collaborators}.

(** A curve of [fit_kernel] can be extrapolated only when the masses it
    was fitted on are not all the same; its rows then climb in mass. *)
Lemma fit_kernel_extrapolated (f : list (list Q)) (mass : list Q)
    (err e : list CurvePoint) (ranges : option (Q * Q)) :
  fit_kernel f mass = Ok err -> extrapolate_rows err ranges = Ok e ->
  increasing err /\ (2 <= length err)%nat.
Proof.
  intros Hfit Hext.
  destruct (fit_kernel_masses f mass err Hfit) as (xmin & xmax & Hmin & Hmax & Hlen & Hmass).
  assert (xmin <= xmax) as Hle.
  { apply col_min_spec in Hmin as [Hin _]. apply col_max_spec in Hmax as [_ Hge].
    apply Hge, Hin. }
  split; [|lia].
  destruct (Qlt_le_dec xmin xmax) as [Hlt | Hge].
  - apply increasing_of_lookup. intros i j p q Hij Hp Hq.
    assert (j < 100)%nat by (rewrite <- Hlen; eapply lookup_lt_Some; exact Hq).
    rewrite <- (nth_map_lookup cmass err i p Hp), <- (nth_map_lookup cmass err j q Hq), Hmass.
    apply linspace_strict; [lia | exact Hlt | lia].
  - exfalso. apply (extrapolate_rows_flat err e ranges xmin); [lia | | exact Hext].
    apply Forall_forall. intros p Hp. apply list_elem_of_lookup in Hp as (i & Hi).
    assert (i < 100)%nat by (rewrite <- Hlen; eapply lookup_lt_Some; exact Hi).
    rewrite <- (nth_map_lookup cmass err i p Hi), Hmass.
    pose proof (linspace_bounds xmin xmax 99 i ltac:(lia) ltac:(lia) Hle). lra.
Qed.

(** C5. The curve [assign_error] returns for a spectrum has 100 rows
    whose masses are [linspace(min, max, 100)] of the masses of that
    spectrum, the assigned or not; its ppm values are those of the
    piecewise-linear function through the ridge curve of [fit_kernel]
    (fitted on the assigned masses, and continued beyond them by the
    lines of its end segments), minus the mean relative error of the
    assigned peaks. The curve [massdiff_error] returns is the ridge curve
    of [fit_kernel] itself: its masses span the spectrum, and its first
    ppm value is still the zero [fit_kernel] locks it at. *)
Theorem assign_error_extrapolates_and_shifts :
  (forall (spec : Spectrum) (ppm : Q) (brutto_dict : gmap string (nat * nat))
          (curve : list CurvePoint),
     assign_error spec ppm brutto_dict = Ok curve ->
     exists (s1 s2 spectr sp : Spectrum) (kdm : list (list Q)) (err : list CurvePoint)
            (lo hi : Q),
       spectrum_assign ppm brutto_dict spec = Ok s1 /\
       spectrum_calc_mass s1 = Ok s2 /\
       spectrum_calc_error s2 = Ok spectr /\
       kernel_density_map
         (dropna (map (fun r => (fst r, Qopp <$> snd r))
                      (map (fun p => (mass p, rel_error p)) (table spectr)))) 3 = Ok kdm /\
       fit_kernel kdm (map mass (table (drop_unassigned spectr))) = Ok err /\
       col_min (map mass (table spec)) = Some lo /\
       col_max (map mass (table spec)) = Some hi /\
       length curve = 100%nat /\
       map cmass curve = linspace lo hi 100 /\
       spectrum_calc_error (drop_unassigned spectr) = Ok sp /\
       omap rel_error (table sp) <> [] /\
       let mean := Qsum (omap rel_error (table sp))
                   / Qnat (length (omap rel_error (table sp))) in
       Forall (fun pt => piecewise_linear err (cmass pt) (cppm pt + mean)) curve) /\
  (forall (spec : Spectrum) (curve : list CurvePoint),
     massdiff_error spec = Ok curve <->
     exists kdm : list (list Q),
       kernel_density_map (md_error_map spec 3) 3 = Ok kdm /\
       fit_kernel kdm (map mass (table spec)) = Ok curve) /\
  (forall (spec : Spectrum) (curve : list CurvePoint),
     massdiff_error spec = Ok curve ->
     exists (lo hi : Q) (p0 : CurvePoint),
       col_min (map mass (table spec)) = Some lo /\
       col_max (map mass (table spec)) = Some hi /\
       length curve = 100%nat /\
       map cmass curve = linspace lo hi 100 /\
       curve !! 0%nat = Some p0 /\ cppm p0 == 0).
Proof.
  assert (forall (spec : Spectrum) (curve : list CurvePoint),
            massdiff_error spec = Ok curve <->
            exists kdm : list (list Q),
              kernel_density_map (md_error_map spec 3) 3 = Ok kdm /\
              fit_kernel kdm (map mass (table spec)) = Ok curve) as Hmd.
  { intros spec curve. unfold massdiff_error, mbind, outcome_bind. split.
    - destruct (kernel_density_map _ 3) as [kdm| |]; cbn [obind]; try discriminate.
      intros Hf. exists kdm. split; [reflexivity | exact Hf].
    - intros (kdm & -> & Hf). exact Hf. }
  split; [|split; [exact Hmd|]].
  - intros spec ppm brutto_dict curve. unfold assign_error, mbind, outcome_bind.
    destruct (spectrum_assign ppm brutto_dict spec) as [s1| |] eqn:H1; cbn [obind];
      try discriminate.
    destruct (spectrum_calc_mass s1) as [s2| |] eqn:H2; cbn [obind]; try discriminate.
    destruct (spectrum_calc_error s2) as [spectr| |] eqn:H3; cbn [obind]; try discriminate.
    destruct (kernel_density_map _ 3) as [kdm| |] eqn:Hk; cbn [obind]; try discriminate.
    destruct (fit_kernel kdm _) as [err| |] eqn:Hf; cbn [obind]; try discriminate.
    destruct (col_min (map mass (table spec))) as [lo|] eqn:Hlo; cbn [obind or_nan];
      try discriminate.
    destruct (col_max (map mass (table spec))) as [hi|] eqn:Hhi; cbn [obind or_nan];
      try discriminate.
    destruct (extrapolate_rows err (Some (lo, hi))) as [e| |] eqn:He; cbn [obind];
      try discriminate.
    unfold zeroshift_value, mean_rel_error, mbind, outcome_bind.
    destruct (spectrum_calc_error (drop_unassigned spectr)) as [sp| |] eqn:Hsp; cbn [obind];
      try discriminate.
    unfold series_mean. rewrite omap_id_map.
    destruct (np_mean (omap rel_error (table sp))) as [mean|] eqn:Hmean; cbn [or_nan obind];
      [|discriminate].
    intros [= <-].
    apply np_mean_Some in Hmean as [Hne ->].
    destruct (fit_kernel_extrapolated _ _ err e _ Hf He) as [Hinc Hlen].
    destruct (extrapolate_rows_spec err (Some (lo, hi)) Hinc Hlen)
      as (new & lo' & hi' & Hrun & [Elo Ehi] & Hlen' & Hmass & Hppm).
    cbn [fst snd] in Elo, Ehi. subst lo' hi'.
    assert (new = e) as -> by congruence.
    exists s1, s2, spectr, sp, kdm, err, lo, hi.
    do 7 (split; [first [assumption | reflexivity]|]).
    split; [unfold zeroshift_rows; rewrite length_map; exact Hlen'|].
    split; [rewrite <- Hmass; unfold zeroshift_rows; rewrite map_map; reflexivity|].
    split; [exact Hsp | split; [exact Hne|]].
    cbv zeta. unfold zeroshift_rows. apply Forall_forall. intros pt Hpt.
    apply list_elem_of_In, in_map_iff in Hpt as (r & <- & Hr). cbn [cmass cppm].
    rewrite Forall_forall in Hppm.
    apply (piecewise_linear_Qeq err (cmass r) (cppm r)); [ring|].
    apply Hppm, list_elem_of_In, Hr.
  - intros spec curve Hrun. apply Hmd in Hrun as (kdm & _ & Hf).
    destruct (fit_kernel_masses _ _ curve Hf) as (lo & hi & Hlo & Hhi & Hlen & Hmass).
    destruct (fit_kernel_first_zero _ _ curve Hf) as (p0 & Hp0 & Hzero).
    exists lo, hi, p0. repeat split; assumption.
Qed.


End Pipelines.

Lemma assign_error_extrapolates_and_shifts_witness :
  exists (curve : list CurvePoint) (p0 p99 : CurvePoint),
    @assign_error bench_slope {| table := wide_rows; metadata := ∅ |} 3 default_brutto_dict
    = Ok curve /\
    map cmass curve = linspace 50 250 100 /\
    curve !! 0%nat = Some p0 /\ cppm p0 == -3 /\
    curve !! 99%nat = Some p99 /\ cppm p99 == 4.
Proof.
  assert (exists curve p0 p99,
            @assign_error bench_slope {| table := wide_rows; metadata := ∅ |} 3
              default_brutto_dict = Ok curve /\
            curve !! 0%nat = Some p0 /\ cppm p0 == -3 /\
            curve !! 99%nat = Some p99 /\ cppm p99 == 4)
    as (curve & p0 & p99 & E & Hp0 & H0 & Hp99 & H99)
    by (vm_compute; eexists _, _, _; repeat split; reflexivity).
  destruct (@assign_error_extrapolates_and_shifts bench_slope) as [Hassign _].
  destruct (Hassign _ _ _ _ E)
    as (s1 & s2 & spectr & sp & kdm & err & lo & hi
        & _ & _ & _ & _ & _ & Hlo & Hhi & _ & Hmass & _).
  vm_compute in Hlo. injection Hlo as <-.
  vm_compute in Hhi. injection Hhi as <-.
  exists curve, p0, p99.
  split; [exact E | split; [exact Hmass | split; [exact Hp0 | split; [exact H0|]]]].
  split; [exact Hp99 | exact H99].
Defined.



(* ===================================================================== *)
(** * The error table recallibrate computes *)
(* ===================================================================== *)

Section Computed.
Context `{Collaborators}.

(** Whatever the strategy, the error table computed for a spectrum has
    100 rows, and its masses are [linspace(min, max, 100)] of the masses
    of the spectrum. *)
Theorem compute_error_table_spans_spectrum (spec : Spectrum) (how : string)
    (curve : list CurvePoint) :
  compute_error_table spec how = Ok curve ->
  exists lo hi : Q,
    col_min (map mass (table spec)) = Some lo /\
    col_max (map mass (table spec)) = Some hi /\
    length curve = 100%nat /\
    map cmass curve = linspace lo hi 100.
Proof.
  unfold compute_error_table.
  destruct (String.eqb how "assign"); [|destruct (String.eqb how "mdm")].
  - unfold assign_error, mbind, outcome_bind.
    destruct (spectrum_assign _ _ spec) as [s1| |]; cbn [obind]; try discriminate.
    destruct (spectrum_calc_mass s1) as [s2| |]; cbn [obind]; try discriminate.
    destruct (spectrum_calc_error s2) as [spectr| |]; cbn [obind]; try discriminate.
    destruct (kernel_density_map _ 3) as [kdm| |]; cbn [obind]; try discriminate.
    destruct (fit_kernel kdm _) as [err| |]; cbn [obind]; try discriminate.
    destruct (col_min (map mass (table spec))) as [lo|]; cbn [obind or_nan]; try discriminate.
    destruct (col_max (map mass (table spec))) as [hi|]; cbn [obind or_nan]; try discriminate.
    destruct (extrapolate_rows err (Some (lo, hi))) as [e| |] eqn:He; cbn [obind];
      try discriminate.
    unfold zeroshift_value, mbind, outcome_bind.
    destruct (mean_rel_error spectr) as [mean| |]; cbn [obind]; try discriminate.
    intros [= <-]. destruct (extrapolate_rows_masses _ _ _ _ He) as [Hlen Hmass].
    exists lo, hi. split; [reflexivity | split; [reflexivity | split]].
    + unfold zeroshift_rows. rewrite length_map. exact Hlen.
    + rewrite <- Hmass. unfold zeroshift_rows. rewrite map_map. reflexivity.
  - unfold massdiff_error, mbind, outcome_bind.
    destruct (kernel_density_map _ 3) as [kdm| |]; cbn [obind]; try discriminate.
    apply fit_kernel_masses.
  - unfold mbind, outcome_bind.
    destruct (read_csv how) as [etalon| |]; cbn [obind]; try discriminate.
    unfold etalon_error, mbind, outcome_bind.
    destruct (etalon_scatter _ _ _ _) as [scatter| |]; cbn [obind]; try discriminate.
    destruct (kernel_density_map _ 3) as [kdm| |]; cbn [obind]; try discriminate.
    apply fit_kernel_masses.
Qed.

(** The run of [recallibrate] that computes its error table. *)
Lemma recallibrate_computed_inv (σ σ' : store) (s t m s' : loc) rows kv how draw :
  σ !! s = Some (SpectrumObj t m) -> σ !! t = Some (DataFrame rows) ->
  σ !! m = Some (MetaData kv) ->
  recallibrate s None how draw σ = Ok (s', σ') ->
  exists (t' m' : loc) (curve : list CurvePoint),
    compute_error_table {| table := rows; metadata := kv |} how = Ok curve /\
    σ' !! s' = Some (SpectrumObj t' m') /\
    σ' !! t' = Some (DataFrame (recal_loop curve rows)).
Proof.
  intros Hs Ht Hm Hrun.
  destruct (spectrum_copy_run σ s t m rows kv Hs Ht Hm)
    as (t1 & m1 & s1 & Ht1 & Hm1 & Hs1 & Htm & Hts & Hms & Hcopy).
  unfold recallibrate in Hrun. rewrite (st_bind_Ok _ _ _ _ _ Hcopy) in Hrun.
  set (σc := <[s1 := SpectrumObj t1 m1]> (<[m1 := MetaData kv]> (<[t1 := DataFrame rows]> σ))) in *.
  assert (σc !! s1 = Some (SpectrumObj t1 m1)) as Hsc by apply lookup_insert_eq.
  assert (σc !! t1 = Some (DataFrame rows)) as Htc.
  { subst σc. rewrite !lookup_insert_ne by congruence. apply lookup_insert_eq. }
  assert (σc !! m1 = Some (MetaData kv)) as Hmc.
  { subst σc. rewrite lookup_insert_ne by congruence. apply lookup_insert_eq. }
  unfold st_bind at 1 in Hrun.
  destruct (choose_error_table s1 None how σc) as [[e σ1]| |] eqn:Hch; try discriminate.
  unfold choose_error_table in Hch.
  rewrite (st_bind_Ok _ _ _ _ _ (read_spectrum_run _ _ _ _ _ _ Hsc Htc Hmc)) in Hch.
  unfold st_bind at 1, lift in Hch.
  destruct (compute_error_table _ how) as [curve| |] eqn:Hcomp; try discriminate.
  destruct (new_error_table_run σc curve) as (te & e0 & Hte & He0 & Hne & Hnew).
  rewrite Hnew in Hch. injection Hch as <- <-.
  set (σ1 := <[e0 := ErrorTableObj te]> (<[te := CurveFrame curve]> σc)) in *.
  assert (s1 ≠ te /\ s1 ≠ e0 /\ t1 ≠ te /\ t1 ≠ e0 /\ m1 ≠ te /\ m1 ≠ e0)
    as (? & ? & ? & ? & ? & ?) by (repeat split; congruence).
  assert (σ1 !! s1 = Some (SpectrumObj t1 m1)) as Hs1'
    by (subst σ1; rewrite !lookup_insert_ne by congruence; exact Hsc).
  assert (σ1 !! t1 = Some (DataFrame rows)) as Ht1'
    by (subst σ1; rewrite !lookup_insert_ne by congruence; exact Htc).
  assert (σ1 !! m1 = Some (MetaData kv)) as Hm1'
    by (subst σ1; rewrite !lookup_insert_ne by congruence; exact Hmc).
  assert (σ1 !! e0 = Some (ErrorTableObj te)) as He1 by apply lookup_insert_eq.
  assert (σ1 !! te = Some (CurveFrame curve)) as Hte1.
  { subst σ1. rewrite lookup_insert_ne by congruence. apply lookup_insert_eq. }
  destruct (apply_error_table_run σ1 s1 t1 m1 e0 te rows kv curve how Hs1' Ht1' Hm1' He1 Hte1)
    as (c & t' & Hc1 & Ht'1 & Hct & Happ).
  rewrite Happ in Hrun. injection Hrun as <- <-.
  assert (s1 ≠ t' /\ m1 ≠ t' /\ s1 ≠ m1) as (? & ? & ?) by (repeat split; congruence).
  exists t', m1, curve. split; [reflexivity | split].
  - rewrite !lookup_insert_ne by congruence. apply lookup_insert_eq.
  - rewrite lookup_insert_ne by congruence. apply lookup_insert_eq.
Qed.

(** When [recallibrate] computes its error table itself, the least mass
    of the spectrum is the left, open end of the first bin: a peak of
    least mass is never corrected. *)
Theorem recallibrate_computed_keeps_lowest_peak (σ σ' : store) (s t m s' : loc)
    (rows : list Peak) (kv : gmap string string) (how : string) (draw : bool)
    (k : nat) (p : Peak) :
  σ !! s = Some (SpectrumObj t m) -> σ !! t = Some (DataFrame rows) ->
  σ !! m = Some (MetaData kv) ->
  recallibrate s None how draw σ = Ok (s', σ') ->
  rows !! k = Some p -> (forall q, q ∈ rows -> mass p <= mass q) ->
  exists (t' m' : loc) (rows' : list Peak),
    σ' !! s' = Some (SpectrumObj t' m') /\
    σ' !! t' = Some (DataFrame rows') /\
    rows' !! k = Some p.
Proof.
  intros Hs Ht Hm Hrun Hk Hleast.
  destruct (recallibrate_computed_inv σ σ' s t m s' rows kv how draw Hs Ht Hm Hrun)
    as (t' & m' & curve & Hcomp & Hs' & Ht').
  exists t', m', (recal_loop curve rows). split; [exact Hs' | split; [exact Ht'|]].
  destruct (compute_error_table_spans_spectrum _ _ _ Hcomp) as (lo & hi & Hlo & Hhi & Hlen & Hmass).
  cbn [table] in Hlo, Hhi.
  apply col_min_spec in Hlo as [Hlo_in Hlo_le]. apply col_max_spec in Hhi as [Hhi_in Hhi_ge].
  assert (mass p <= lo) as Hp.
  { apply list_elem_of_In, in_map_iff in Hlo_in as (q & <- & Hq).
    apply Hleast, list_elem_of_In, Hq. }
  assert (lo <= hi) as Hlohi by (apply Hhi_ge, Hlo_in).
  destruct (col_min (map cmass curve)) as [m0|] eqn:Hm0;
    [|destruct curve; [discriminate Hlen | discriminate Hm0]].
  destruct (col_max (map cmass curve)) as [m1|] eqn:Hm1;
    [|destruct curve; discriminate].
  assert (lo <= m0) as Hm0lo.
  { apply col_min_spec in Hm0 as [Hin _]. rewrite Hmass in Hin.
    apply list_elem_of_In, (In_nth _ _ 0) in Hin as (i & Hi & <-).
    rewrite length_linspace in Hi.
    apply (linspace_bounds lo hi 99 i); [lia | lia | exact Hlohi]. }
  rewrite recal_loop_unfold, correct_bins_skip; [exact Hk|].
  intros q j Hq Hj. assert (q = p) as -> by congruence.
  apply elem_of_seq in Hj. apply bin_mask_below.
  pose proof (bin_edges_bounds curve m0 m1 j Hm0 Hm1 ltac:(lia)). lra.
Qed.

(** A [how] that is neither ['assign'] nor ['mdm'] is read as the path of
    an etalon file: when reading it fails, [recallibrate] fails the same
    way. *)
Theorem recallibrate_how_is_a_path (σ : store) (s t m : loc) (rows : list Peak)
    (kv : gmap string string) (how : string) (draw : bool) (exc : string) :
  σ !! s = Some (SpectrumObj t m) -> σ !! t = Some (DataFrame rows) ->
  σ !! m = Some (MetaData kv) ->
  how <> "assign" -> how <> "mdm" -> read_csv how = Raise exc ->
  recallibrate s None how draw σ = Raise exc.
Proof.
  intros Hs Ht Hm Ha Hmd Hread.
  destruct (spectrum_copy_run σ s t m rows kv Hs Ht Hm)
    as (t1 & m1 & s1 & Ht1 & Hm1 & Hs1 & Htm & Hts & Hms & Hcopy).
  unfold recallibrate. rewrite (st_bind_Ok _ _ _ _ _ Hcopy).
  set (σc := <[s1 := SpectrumObj t1 m1]> (<[m1 := MetaData kv]> (<[t1 := DataFrame rows]> σ))).
  assert (σc !! s1 = Some (SpectrumObj t1 m1)) as Hsc by apply lookup_insert_eq.
  assert (σc !! t1 = Some (DataFrame rows)) as Htc.
  { subst σc. rewrite !lookup_insert_ne by congruence. apply lookup_insert_eq. }
  assert (σc !! m1 = Some (MetaData kv)) as Hmc.
  { subst σc. rewrite lookup_insert_ne by congruence. apply lookup_insert_eq. }
  unfold choose_error_table. unfold st_bind at 1. unfold st_bind at 1.
  rewrite (read_spectrum_run _ _ _ _ _ _ Hsc Htc Hmc).
  unfold st_bind at 1, lift, compute_error_table.
  apply String.eqb_neq in Ha, Hmd. rewrite Ha, Hmd.
  unfold mbind, outcome_bind. rewrite Hread. reflexivity.
Qed.

(** [zeroshift] against a spectrum none of whose assigned peaks has a
    relative error subtracts the mean of nothing: the ppm column is
    [nan]. *)
Theorem zeroshift_without_errors (σ : store) (self t spec ts ms : loc)
    (tbl : list CurvePoint) (rows : list Peak) (kv : gmap string string) (sp : Spectrum) :
  σ !! self = Some (ErrorTableObj t) -> σ !! t = Some (CurveFrame tbl) ->
  σ !! spec = Some (SpectrumObj ts ms) -> σ !! ts = Some (DataFrame rows) ->
  σ !! ms = Some (MetaData kv) ->
  spectrum_calc_error (drop_unassigned {| table := rows; metadata := kv |}) = Ok sp ->
  omap rel_error (table sp) = [] ->
  zeroshift self spec σ = NaN.
Proof.
  intros Hself Ht Hs Hts Hms Hsp Herrs.
  assert (mean_rel_error {| table := rows; metadata := kv |} = NaN) as Hmean.
  { unfold mean_rel_error, mbind, outcome_bind. rewrite Hsp. cbn [obind].
    unfold series_mean. rewrite omap_id_map, Herrs. reflexivity. }
  destruct (new_error_table_run σ tbl) as (t1 & e1 & Ht1 & He1 & Hte & Hnew).
  set (σ2 := <[e1 := ErrorTableObj t1]> (<[t1 := CurveFrame tbl]> σ)) in *.
  assert (untouched σ σ2) as H2.
  { subst σ2. repeat (apply untouched_insert; [|assumption]). apply untouched_refl. }
  unfold zeroshift.
  st_step (etable_field_run _ _ _ Hself).
  st_step (get_curve_run _ _ _ Ht).
  st_step Hnew. fold σ2.
  st_step (read_spectrum_run _ _ _ _ _ _ (H2 _ _ Hs) (H2 _ _ Hts) (H2 _ _ Hms)).
  unfold st_bind at 1, lift. rewrite Hmean. reflexivity.
Qed.

End Computed.

Lemma compute_error_table_spans_spectrum_witness :
  exists curve : list CurvePoint,
    @compute_error_table bench md_demo "mdm" = Ok curve /\
    length curve = 100%nat /\ map cmass curve = linspace 100 200.005 100.
Proof.
  assert (exists curve, @compute_error_table bench md_demo "mdm" = Ok curve) as [curve E]
    by (vm_compute; eexists; reflexivity).
  exists curve. split; [exact E|].
  destruct (@compute_error_table_spans_spectrum bench md_demo "mdm" curve E)
    as (lo & hi & Hlo & Hhi & Hlen & Hmass).
  vm_compute in Hlo. injection Hlo as <-.
  vm_compute in Hhi. injection Hhi as <-.
  split; [exact Hlen | exact Hmass].
Defined.

Lemma recallibrate_computed_keeps_lowest_peak_witness :
  exists (s' : loc) (σ' : store) (t' m' : loc) (rows' : list Peak),
    @recallibrate bench 1%positive None "mdm" true (lab_store (table md_demo) []) = Ok (s', σ') /\
    σ' !! s' = Some (SpectrumObj t' m') /\
    σ' !! t' = Some (DataFrame rows') /\
    rows' !! 0%nat = Some (mkPeak 100 10 false None).
Proof.
  assert (forall q, q ∈ table md_demo -> mass (mkPeak 100 10 false None) <= mass q) as Hleast.
  { intros q Hq. apply list_elem_of_In in Hq. simpl in Hq.
    destruct Hq as [<-|[<-|[<-|[<-|[]]]]]; discriminate. }
  assert (exists s' σ', @recallibrate bench 1%positive None "mdm" true
                          (lab_store (table md_demo) []) = Ok (s', σ')) as (s' & σ' & E)
    by (vm_compute; eexists _, _; reflexivity).
  destruct (@recallibrate_computed_keeps_lowest_peak bench
              (lab_store (table md_demo) []) σ' 1%positive 2%positive 3%positive s'
              (table md_demo) ∅ "mdm" true 0 (mkPeak 100 10 false None)
              eq_refl eq_refl eq_refl E eq_refl Hleast)
    as (t' & m' & rows' & Hs' & Ht' & Hk).
  exists s', σ', t', m', rows'.
  split; [exact E | split; [exact Hs' | split; [exact Ht' | exact Hk]]].
Defined.

Lemma recallibrate_how_is_a_path_witness :
  @recallibrate bench 1%positive None "Assign" true (lab_store scenario_rows [])
  = Raise "FileNotFoundError".
Proof.
  apply (@recallibrate_how_is_a_path bench (lab_store scenario_rows []) 1%positive 2%positive
           3%positive scenario_rows ∅ "Assign" true "FileNotFoundError");
    try reflexivity; discriminate.
Defined.

Lemma zeroshift_without_errors_witness :
  @zeroshift bench 4%positive 1%positive (lab_store scenario_rows scenario_curve) = NaN.
Proof.
  apply (@zeroshift_without_errors bench (lab_store scenario_rows scenario_curve)
           4%positive 5%positive 1%positive 2%positive 3%positive scenario_curve
           scenario_rows ∅ (drop_unassigned {| table := scenario_rows; metadata := ∅ |}));
    reflexivity.
Defined.
